(** * zigbee-shepherd: the Shepherd facade (lib/shepherd.js)

    A shallow embedding of the parts of [ZShepherd] that the specification
    makes statements about: the request router ([_foundation],
    [_updateFinalizer], the per-endpoint [read] and [report] methods), the
    mount serializer, the topology scanner and the [reset] / [list] facade
    methods.

    Conventions.
    - A Q promise is represented by the value it settles with
      ([Resolved] / [Rejected]); a [then] callback that throws rejects the
      derived promise, which is how [andThen] treats a [Rejected].
    - The node-style [callback] argument that every method forwards to
      [nodeify] only mirrors the promise and is left out.
    - Collaborators that live outside lib/shepherd.js (the ZCL catalog, the
      AF layer, the Controller, the DevBox) are interfaces: type classes or
      oracles whose answers are inputs of the model.
    - Where the order of callbacks matters, the callbacks are steps of
      their own: a pass of [_updateFinalizer] is split into its call, which
      dumps the cluster table, the callback that gets the new snapshot and
      the callback that writes and emits; the mount serializer and the
      scanner run on events.  A method of the router or the facade taken
      as a whole runs the work it defers with nothing else in between. *)

From stdpp Require Import base option list sorting strings gmap pretty.

(** ** JavaScript values, errors and settled promises *)

Module Js.

Inductive jsval :=
  | VUndefined
  | VNull
  | VBool (b : bool)
  | VNum (n : Z)
  | VStr (s : string).

#[global] Instance jsval_eq_dec : EqDecision jsval.
Proof. solve_decision. Defined.

(** What a promise is rejected with: [new Error(msg)], a [TypeError] raised
    by the runtime (reading a property of [undefined]), or a bare value
    handed to [reject]. *)
Inductive error :=
  | Error (msg : string)
  | TypeError (msg : string)
  | Reason (v : jsval).

#[global] Instance error_eq_dec : EqDecision error.
Proof. solve_decision. Defined.

Inductive settled (A : Type) :=
  | Resolved (a : A)
  | Rejected (e : error).
Arguments Resolved {A} a.
Arguments Rejected {A} e.

(** A synchronous call returns or throws. *)
Inductive completion (A : Type) :=
  | Return (a : A)
  | Throw (e : error).
Arguments Return {A} a.
Arguments Throw {A} e.

(** [p.then(f)]: a rejection skips [f]. *)
Definition andThen {A B} (p : settled A) (f : A → settled B) : settled B :=
  match p with
  | Resolved a => f a
  | Rejected e => Rejected e
  end.

(** Cluster, attribute and command identifiers are given either by number
    or by name. *)
Inductive ident :=
  | Num (n : Z)
  | Name (s : string).

#[global] Instance ident_eq_dec : EqDecision ident.
Proof. solve_decision. Defined.

(** Property-key conversion ([obj[k]]) and string concatenation
    (['...' + k]) both print a number in decimal. *)
Definition propKey (i : ident) : string :=
  match i with
  | Num n => pretty n
  | Name s => s
  end.

(** ['' + x] for a field that holds a number or is absent. *)
Definition showField (x : option Z) : string :=
  match x with
  | Some n => pretty n
  | None => "undefined"
  end.

End Js.
Export Js.

(** ** External interfaces *)

(** An entry of the ZCL catalog: [{ key, value }]. *)
Record item := Item { key : string; value : Z }.

(** The ZCL identifier catalog (package zcl-id).  Every lookup answers
    [undefined] for an identifier it does not know; the Shepherd guards
    [cluster], [attr] and [foundation], and reads [attrType(...).value] and
    [status(...).key] without a guard. *)
Class ZclId := {
  zclId_cluster : ident → option item;
  zclId_attr : ident → ident → option item;
  zclId_attrType : ident → ident → option item;
  zclId_foundation : ident → option item;
  zclId_status : Z → option item;
}.

(** The order in which the keys of an object are visited by [_.forEach].
    The run-time fixes it (integer-like keys in ascending order, then the
    other keys in the order of their creation); the maps of the model do
    not record it, so it is an input of the model, and any order will do. *)
Class KeyOrder := {
  entriesOf : gmap string jsval → list (string * jsval);
  entriesOf_perm : ∀ m, entriesOf m ≡ₚ map_to_list m;
}.

(** A record of a foundation response or of an attribute report:
    [{ attrId, status, dataType, attrData }].  Reports carry no [status];
    a failed read carries neither [dataType] nor [attrData]. *)
Record attrRec := AttrRec {
  attrId : Z;
  status : option Z;
  dataType : option Z;
  attrData : jsval;
}.

(** A record of a [configReport] request. *)
Record cfgRptRec := CfgRptRec {
  direction : Z;
  cfg_attrId : ident;
  cfg_dataType : Z;
  minRepIntval : jsval;
  maxRepIntval : jsval;
  repChange : jsval;
}.

(** The [zclData] argument of the foundation commands used here. *)
Inductive zclData :=
  | ReadData (recs : list ident)
  | WriteData (recs : list (ident * Z * jsval))
  | CfgRptData (recs : list cfgRptRec).

(** Endpoints are objects; the model names them by reference. *)
Definition epRef := nat.

Record afMsg := AfMsg { payload : list attrRec }.

(** What the Shepherd asks of the AF layer. *)
Inductive afRequest :=
  | ZclFoundation (srcEp dstEp : epRef) (cId cmd : ident) (data : zclData)
  | ZclClusterAttrsReq (ep : epRef) (cId : ident).

(** The AF layer: how the radio side settles each request. *)
Class Af := {
  af_zclFoundation : epRef → epRef → ident → ident → zclData → settled afMsg;
  af_zclClusterAttrsReq : epRef → ident → settled (gmap string jsval);
}.

(** ** The request router *)

Module Router.

(** The external [ind] events produced by the router. *)
Inductive ind :=
  | DevChange (ep : epRef) (cid : string) (data : gmap string jsval)
  | AttReport (ep : epRef) (cid : string) (data : gmap string jsval).

(** The part of the world the router reads and writes: the cluster table of
    every endpoint ([ep.getClusters()], cluster key to [attrs]), the
    requests handed to the AF layer and the [ind] events emitted. *)
Record world := World {
  tables : gmap epRef (gmap string (gmap string jsval));
  afLog : list afRequest;
  indLog : list ind;
}.

Definition getClusters (w : world) (ep : epRef) : gmap string (gmap string jsval) :=
  default ∅ (tables w !! ep).

Definition send (r : afRequest) (w : world) : world :=
  World (tables w) (afLog w ++ [r]) (indLog w).

Definition emit (e : ind) (w : world) : world :=
  World (tables w) (afLog w) (indLog w ++ [e]).

(** The world in which the attributes of one cluster of one endpoint have
    been replaced. *)
Definition withAttrs (ep : epRef) (cid : string) (attrs : gmap string jsval)
    (w : world) : world :=
  World (<[ep := <[cid := attrs]> (getClusters w ep)]> (tables w)) (afLog w) (indLog w).

(** [ep.getClusters().set(cid, 'attrs', attrId, val)].  The cluster table
    (package ziee, not among the sources) refuses the value [undefined]:
    [set] throws, which is [None] here, and writes nothing. *)
Definition setAttr (ep : epRef) (cid attrId : string) (val : jsval) (w : world)
  : option world :=
  if decide (val = VUndefined) then None
  else Some (withAttrs ep cid (<[attrId := val]> (default ∅ (getClusters w ep !! cid))) w).

(** [_.forEach(diff, function (val, attrId) { ...set(cIdString, 'attrs', attrId, val) })]
    over the entries of the diff in the order they are visited.  A [set]
    that throws ends the loop: the entries before it have been written,
    the others have not.  The flag tells whether the loop came to its
    end. *)
Fixpoint applyDiff (ep : epRef) (cid : string) (entries : list (string * jsval))
    (w : world) : world * bool :=
  match entries with
  | [] => (w, true)
  | (attrId, val) :: rest =>
      match setAttr ep cid attrId val w with
      | None => (w, false)
      | Some w' => applyDiff ep cid rest w'
      end
  end.

(** The entries that such a loop writes: those before the first
    [undefined] value. *)
Fixpoint accepted (entries : list (string * jsval)) : list (string * jsval) :=
  match entries with
  | [] => []
  | kv :: rest => if decide (kv.2 = VUndefined) then [] else kv :: accepted rest
  end.

(** Attributes after the entries have been set one after the other. *)
Definition overlay (entries : list (string * jsval)) (attrs : gmap string jsval)
  : gmap string jsval :=
  foldl (λ m kv, <[kv.1 := kv.2]> m) attrs entries.

(** Modelled from the spec: [zutils.objectDiff] (lib/components/zutils.js is
    not among the sources).  The diff of a new attribute snapshot against
    the cached one holds the entries of the new snapshot whose value is not
    the cached value. *)
Definition objectDiff (oldAttrs newAttrs : gmap string jsval) : gmap string jsval :=
  filter (λ kv, oldAttrs !! kv.1 ≠ Some kv.2) newAttrs.

(** What a pass of [_updateFinalizer] keeps from the moment it is called
    until its promise chain runs: its arguments and [clusters], the dump of
    the endpoint's cluster table taken at the call. *)
Record pass := Pass {
  pass_ep : epRef;
  pass_cId : ident;
  pass_attrs : option (list attrRec);
  pass_reported : bool;
  pass_clusters : gmap string (gmap string jsval);
}.

Section WithInterfaces.
Context `{ZclId} `{Af} {keyOrder : KeyOrder}.

(** [cIdString]: the catalog's name of the cluster, or the identifier as
    given when the catalog does not know it; and the property key it makes. *)
Definition clusterIdent (cId : ident) : ident :=
  match zclId_cluster cId with
  | Some it => Name (key it)
  | None => cId
  end.

Definition clusterKey (cId : ident) : string := propKey (clusterIdent cId).

(** The name under which an attribute of a response record is cached. *)
Definition attrKey (cId : ident) (rec : attrRec) : string :=
  match zclId_attr cId (Num (attrId rec)) with
  | Some it => key it
  | None => propKey (Num (attrId rec))
  end.

(** The [newAttrs] object that [_updateFinalizer] builds from the records. *)
Definition newAttrsOf (cId : ident) (reported : bool) (attrs : list attrRec)
  : gmap string jsval :=
  foldl (λ newAttrs rec,
           <[attrKey cId rec :=
               if reported then attrData rec
               else if decide (status rec = Some 0%Z) then attrData rec else VNull]>
             newAttrs)
        ∅ attrs.

(** The attributes cached for a cluster of an endpoint, if the cluster is
    in the endpoint's table. *)
Definition cache (w : world) (ep : epRef) (cId : ident) : option (gmap string jsval) :=
  getClusters w ep !! clusterKey cId.

(** The value that a report carries for an attribute name: the data of the
    last record filed under that name. *)
Definition reportedValue (cId : ident) (attrs : list attrRec) (k : string) : option jsval :=
  attrData <$> last (filter (λ rec, attrKey cId rec = k) attrs).

(** The entries of the diff in the order in which [_.forEach] visits them.

    Modelled from the spec: the diff is taken to keep its keys in the
    order of the new snapshot, from which [zutils.objectDiff] builds it. *)
Definition diffEntries (oldAttrs newAttrs : gmap string jsval) : list (string * jsval) :=
  filter (λ kv, oldAttrs !! kv.1 ≠ Some kv.2) (entriesOf newAttrs).

(** *** [ZShepherd.prototype._updateFinalizer], step by step

    The call itself only computes [cIdString], dumps the cluster table and
    starts a promise chain; the chain runs on later ticks, after whatever
    else is due before them. *)

(** The synchronous part: [clusters = ep.getClusters().dumpSync()]. *)
Definition startPass (ep : epRef) (cId : ident) (attrs : option (list attrRec))
    (reported : bool) (w : world) : pass :=
  Pass ep cId attrs reported (getClusters w ep).

(** The [Q.fcall] callback: the new snapshot, built from the records or
    asked of the AF layer. *)
Definition fetch (p : pass) (w : world) : settled (gmap string jsval) * world :=
  match pass_attrs p with
  | Some recs => (Resolved (newAttrsOf (pass_cId p) (pass_reported p) recs), w)
  | None =>
      (af_zclClusterAttrsReq (pass_ep p) (pass_cId p),
       send (ZclClusterAttrsReq (pass_ep p) (pass_cId p)) w)
  end.

(** The [then] callback, which gets the new snapshot, and the empty [fail]
    handler behind it.  The diff is taken against the dump made at the
    call; the writes go to the table as it is now.  Whatever throws (the
    cluster missing from the dump, a [set] that refuses a value) is
    swallowed, and then nothing is emitted. *)
Definition finishPass (p : pass) (fetched : settled (gmap string jsval)) (w : world)
  : world :=
  let cIdString := clusterKey (pass_cId p) in
  match fetched with
  | Rejected _ => w
  | Resolved newAttrs =>
      match pass_clusters p !! cIdString with
      | None => w
      | Some oldAttrs =>
          let diff := objectDiff oldAttrs newAttrs in
          if decide (diff = ∅) then w
          else
            let '(w', finished) :=
              applyDiff (pass_ep p) cIdString (diffEntries oldAttrs newAttrs) w in
            if finished then emit (DevChange (pass_ep p) cIdString diff) w' else w'
      end
  end.

(** A pass from its call to its end, with nothing else happening between
    the two. *)
Definition _updateFinalizer (ep : epRef) (cId : ident) (attrs : option (list attrRec))
    (reported : bool) (w : world) : world :=
  let p := startPass ep cId attrs reported w in
  let '(fetched, w1) := fetch p w in
  finishPass p fetched w1.

(** [ZShepherd.prototype._foundation], with the pass it starts run to its
    end. *)
Definition _foundation (srcEp dstEp : epRef) (cId cmd : ident) (data : zclData)
    (w : world) : settled (list attrRec) * world :=
  let w1 := send (ZclFoundation srcEp dstEp cId cmd data) w in
  match af_zclFoundation srcEp dstEp cId cmd data with
  | Rejected e => (Rejected e, w1)
  | Resolved msg =>
      let cmdString :=
        match zclId_foundation cmd with
        | Some it => Name (key it)
        | None => cmd
        end in
      let w2 :=
        if decide (cmdString = Name "read") then
          _updateFinalizer dstEp cId (Some (payload msg)) false w1
        else if decide (cmdString = Name "write" ∨ cmdString = Name "writeUndiv"
                        ∨ cmdString = Name "writeNoRsp") then
          _updateFinalizer dstEp cId None false w1
        else w1 in
      (Resolved (payload msg), w2)
  end.

(** The catalog's entry for the command name [read], if it has one, is
    called [read]. *)
Definition readIsRead : Prop :=
  ∀ it, zclId_foundation (Name "read") = Some it → key it = "read".

(** The attribute id that [ep.read] and [ep.report] send: the catalog's
    number when the attribute is known, the caller's identifier otherwise. *)
Definition attrIdValue (cId attrId : ident) : ident :=
  match zclId_attr cId attrId with
  | Some it => Num (value it)
  | None => attrId
  end.

(** [ep.read] as attached by [_attachZclMethods] to a remote endpoint. *)
Definition read (ep : epRef) (cId attrId : ident) (w : world) : settled jsval * world :=
  let attr := attrIdValue cId attrId in
  let '(rsp, w') := _foundation ep ep cId (Name "read") (ReadData [attr]) w in
  (andThen rsp (λ readStatusRecsRsp,
     match readStatusRecsRsp with
     | [] => Rejected (TypeError "Cannot read properties of undefined (reading 'status')")
     | rec :: _ =>
         if decide (status rec = Some 0%Z) then Resolved (attrData rec)
         else Rejected (Error ("request unsuccess: " +:+ showField (status rec)))
     end), w').

(** The [notifData.data] object that the [ind:reported] bridge builds from
    the records. *)
Definition reportData (cId : ident) (attrs : list attrRec) : gmap string jsval :=
  foldl (λ d rec,
           let attrIdString :=
             match zclId_attr (clusterIdent cId) (Num (attrId rec)) with
             | Some it => key it
             | None => propKey (Num (attrId rec))
             end in
           <[attrIdString := attrData rec]> d)
        ∅ attrs.

(** The [ind:reported] bridge installed by the constructor.  The handler
    starts the pass that refreshes the cache and, in the same turn,
    publishes the report; the pass runs afterwards. *)
Definition on_ind_reported (ep : epRef) (cId : ident) (attrs : list attrRec)
    (w : world) : world :=
  let p := startPass ep cId (Some attrs) true w in
  let w1 := emit (AttReport ep (propKey (clusterIdent cId)) (reportData cId attrs)) w in
  let '(fetched, w2) := fetch p w1 in
  finishPass p fetched w2.

(** *** [ep.report] *)

(** The Controller as the endpoint methods see it: [controller.bind] and
    the delegator lookup on [controller.getCoord()]. *)
Class Binder := {
  ctl_bind : epRef → ident → epRef → settled unit;
  coord_getDelegator : Z → option epRef;
  ep_getProfId : epRef → Z;
}.

(** The arguments after [cId].  With one argument, or with a callback as
    the second, [cfgRpt] is false and nothing else is read. *)
Record reportArgs := ReportArgs {
  rpt_attrId : ident;
  rpt_minInt : jsval;
  rpt_maxInt : jsval;
  rpt_repChange : jsval;
}.

(** What a call of [ep.report] leaves behind: the promise it returns and
    the [deferred] it creates and keeps to itself ([None]: still pending). *)
Record reportOutcome := ReportOutcome {
  returned : settled jsval;
  internalDeferred : option error;
}.

(** The record sent with [configReport].  [zclId.attrType(cId, attrId).value]
    is read without a guard: there is no record for an attribute whose type
    the catalog does not know. *)
Definition cfgRptRecOf (cId : ident) (a : reportArgs) : option cfgRptRec :=
  (λ attrType,
     CfgRptRec 0 (attrIdValue cId (rpt_attrId a)) (value attrType)
       (rpt_minInt a) (rpt_maxInt a) (rpt_repChange a))
  <$> zclId_attrType cId (rpt_attrId a).

(** The promise chain of [ep.report], from [Q.fcall] on. *)
Definition reportChain `{Binder} (ep : epRef) (cId : ident) (cfgRptRec : option cfgRptRec)
    (w : world) : reportOutcome * world :=
  match coord_getDelegator (ep_getProfId ep) with
  | None =>
      (ReportOutcome
         (Rejected (Error ("Profile: " +:+ pretty (ep_getProfId ep) +:+ " is not supported.")))
         None, w)
  | Some dlg =>
      match ctl_bind ep cId dlg with
      | Rejected e => (ReportOutcome (Rejected e) None, w)
      | Resolved _ =>
          match cfgRptRec with
          | None => (ReportOutcome (Resolved VUndefined) None, w)
          | Some rec =>
              let '(rsp, w') :=
                _foundation ep ep cId (Name "configReport") (CfgRptData [rec]) w in
              match rsp with
              | Rejected e => (ReportOutcome (Rejected e) None, w')
              | Resolved [] =>
                  (ReportOutcome
                     (Rejected (TypeError "Cannot read properties of undefined (reading 'status')"))
                     None, w')
              | Resolved (r :: _) =>
                  match status r with
                  | Some st =>
                      if decide (st = 0%Z) then (ReportOutcome (Resolved VUndefined) None, w')
                      else
                        match zclId_status st with
                        | Some it =>
                            (ReportOutcome (Resolved VUndefined)
                               (Some (Reason (VStr (key it)))), w')
                        | None =>
                            (ReportOutcome
                               (Rejected
                                  (TypeError "Cannot read properties of undefined (reading 'key')"))
                               None, w')
                        end
                  | None =>
                      (ReportOutcome
                         (Rejected (TypeError "status should be a number or a string."))
                         None, w')
                  end
              end
          end
      end
  end.

(** [ep.report].  The record is built before the chain is started: for an
    attribute whose type the catalog does not know the call throws, and
    nothing else happens. *)
Definition report `{Binder} (ep : epRef) (cId : ident) (args : option reportArgs)
    (w : world) : completion (reportOutcome * world) :=
  match args with
  | None => Return (reportChain ep cId None w)
  | Some a =>
      match cfgRptRecOf cId a with
      | None => Throw (TypeError "Cannot read properties of undefined (reading 'value')")
      | Some rec => Return (reportChain ep cId (Some rec) w)
      end
  end.

End WithInterfaces.

End Router.

(** ** The mount serializer *)

Module Mount.

(** A mounted application ([Zive] instance) and a [Q.defer()] object, both
    compared by identity. *)
Definition appRef := nat.
Definition deferredRef := nat.

(** [Math.max.apply(null, l)]; [None] stands for [-Infinity], the maximum
    of no numbers. *)
Definition mathMax (l : list Z) : option Z :=
  foldr (λ x acc, Some (match acc with Some m => Z.max x m | None => x end)) None l.

(** [mountId > 10 ? mountId + 1 : 11] *)
Definition freshEpId (epList : list Z) : Z :=
  match mathMax epList with
  | Some mountId => if decide (10 < mountId)%Z then (mountId + 1)%Z else 11%Z
  | None => 11%Z
  end.

(** The coordinator device as [mount] uses it.  The endpoint map sends an
    endpoint id to the application whose Coordpoint sits there.

    Modelled from the spec: [Coordpoint] (lib/model/coordpoint.js) and
    [coord.update] (lib/model/coord.js) are not among the sources.  A
    Coordpoint keeps the endpoint id of the simple descriptor it is built
    from, which is what [getEpId] returns; [update] replaces the
    coordinator's endpoint list by the one the radio reports. *)
Record coordinator := Coordinator {
  epList : list Z;
  endpoints : gmap Z appRef;
}.

Definition addEndpoint (epId : Z) (zApp : appRef) (c : coordinator) : coordinator :=
  Coordinator (epList c) (<[epId := zApp]> (endpoints c)).

Definition update (info : list Z) (c : coordinator) : coordinator :=
  Coordinator info (endpoints c).

(** How the Controller and the DevBox settle the requests of one mount:
    [controller.registerEp], [controller.querie.coordInfo] (the endpoint
    list it reports) and [devbox.sync]. *)
Record answers := Answers {
  registerEp : settled unit;
  coordInfo : settled (list Z);
  sync : settled unit;
}.

(** The Shepherd fields that [mount] and [stop] touch, with the bookkeeping
    of the run-time around them: the promise chains that have been started
    and have not reached their [done] handler, the [process.nextTick]
    callbacks scheduled and not yet run, the deferreds created so far and
    how each one was settled, whether a callback died of an uncaught
    exception, whether the first callback of the chain in flight has run,
    and the deferreds whose promise was given something that is not a
    function as node-style callback. *)
Record shepherd := Shepherd {
  _zApp : list appRef;
  _mounting : bool;
  _mountQueue : list (appRef * deferredRef);
  coord : option coordinator;
  inFlight : list (appRef * deferredRef);
  nextTicks : nat;
  deferreds : nat;
  settledLog : list (deferredRef * settled Z);
  uncaught : bool;
  begun : bool;
  nodebacks : list deferredRef;
}.

Definition init (c : option coordinator) : shepherd :=
  Shepherd [] false [] c [] 0 0 [] false false [].

(** The first callback of the chain, run by [Q.fcall]: the duplicate check
    and the push onto [_zApp]. *)
Definition firstCallback (zApp : appRef) (zApps : list appRef)
  : settled unit * list appRef :=
  if decide (zApp ∈ zApps) then (Rejected (Error "zApp already exists."), zApps)
  else (Resolved tt, zApps ++ [zApp]).

(** The callbacks behind the first, up to the one that resolves the
    deferred, given the answers of the collaborators. *)
Definition laterCallbacks (ans : answers) (zApp : appRef) (c : option coordinator)
  : settled Z * option coordinator :=
  match c with
  | None => (Rejected (Error "Coordinator has not been initialized yet."), c)
  | Some co =>
      let epId := freshEpId (epList co) in
      let co1 := addEndpoint epId zApp co in
      match registerEp ans with
      | Rejected e => (Rejected e, Some co1)
      | Resolved _ =>
          match coordInfo ans with
          | Rejected e => (Rejected e, Some co1)
          | Resolved info =>
              let co2 := update info co1 in
              match sync ans with
              | Rejected e => (Rejected e, Some co2)
              | Resolved _ => (Resolved epId, Some co2)
              end
          end
      end
  end.

(** The promise chain of one mount, from [Q.fcall] to the handler that
    resolves the deferred, with nothing else happening in between. *)
Definition chain (ans : answers) (zApp : appRef) (zApps : list appRef)
    (c : option coordinator) : settled Z * list appRef * option coordinator :=
  match firstCallback zApp zApps with
  | (Rejected e, zApps0) => (Rejected e, zApps0, c)
  | (Resolved _, zApps1) =>
      let '(result, c') := laterCallbacks ans zApp c in
      (result, zApps1, c')
  end.

(** The synchronous part of [ZShepherd.prototype.mount]: queue the call
    when a mount is in flight, otherwise raise [_mounting] and start the
    chain.  A call that the drain makes passes the deferred in the place of
    the callback: when that call is queued again, [nodeify] is given the
    deferred, which is not a function. *)
Definition mount (zApp : appRef) (deferred : deferredRef) (requeued : bool)
    (s : shepherd) : shepherd :=
  if _mounting s then
    Shepherd (_zApp s) (_mounting s) (_mountQueue s ++ [(zApp, deferred)]) (coord s)
      (inFlight s) (nextTicks s) (deferreds s) (settledLog s) (uncaught s) (begun s)
      (if requeued then nodebacks s ++ [deferred] else nodebacks s)
  else
    Shepherd (_zApp s) true (_mountQueue s) (coord s)
      (inFlight s ++ [(zApp, deferred)]) (nextTicks s) (deferreds s) (settledLog s)
      (uncaught s) (begun s) (nodebacks s).

(** The end of a chain: the deferred is settled, then the [done] handler
    lowers [_mounting] and, if calls are queued, schedules one drain.
    Settling a deferred whose promise holds a node-style callback that is
    not a function makes that callback throw outside every promise. *)
Definition finish (result : settled Z) (zApps : list appRef) (c : option coordinator)
    (s : shepherd) : shepherd :=
  match inFlight s with
  | [] => s
  | (zApp, deferred) :: rest =>
      Shepherd zApps false (_mountQueue s) c rest
        (if decide (_mountQueue s = []) then nextTicks s else S (nextTicks s))
        (deferreds s) (settledLog s ++ [(deferred, result)])
        (uncaught s || bool_decide (deferred ∈ nodebacks s)) false (nodebacks s)
  end.

(** The first callback of the chain in flight, on the tick after the call.
    When it throws, the callbacks behind it are skipped and only the
    handlers at the end of the chain run; they are taken here at once.
    Nothing is lost by that: a call of [mount] or a drain that comes
    between the throw and the handlers finds [_mounting] raised and the
    queue as it is, as it does just before the throw, and a [stop] in
    between empties [_zApp], as it does just after the handlers. *)
Definition begin (s : shepherd) : shepherd :=
  match inFlight s with
  | [] => s
  | (zApp, deferred) :: rest =>
      if begun s then s
      else
        match firstCallback zApp (_zApp s) with
        | (Rejected e, zApps0) => finish (Rejected e) zApps0 (coord s) s
        | (Resolved _, zApps1) =>
            Shepherd zApps1 (_mounting s) (_mountQueue s) (coord s) (inFlight s)
              (nextTicks s) (deferreds s) (settledLog s) (uncaught s) true (nodebacks s)
        end
  end.

(** The chain in flight runs to its end: its first callback, unless it has
    run already, and the callbacks behind it, given the answers of the
    collaborators. *)
Definition complete (ans : answers) (s : shepherd) : shepherd :=
  match inFlight s with
  | [] => s
  | (zApp, deferred) :: rest =>
      if begun s then
        let '(result, c) := laterCallbacks ans zApp (coord s) in
        finish result (_zApp s) c s
      else
        let '(result, zApps, c) := chain ans zApp (_zApp s) (coord s) in
        finish result zApps c s
  end.

(** A scheduled drain: [self._mountQueue.shift()()].  Calling the
    [undefined] that [shift] returns on an empty queue throws outside any
    promise. *)
Definition drain (s : shepherd) : shepherd :=
  match nextTicks s with
  | O => s
  | S n =>
      match _mountQueue s with
      | [] =>
          Shepherd (_zApp s) (_mounting s) [] (coord s) (inFlight s) n (deferreds s)
            (settledLog s) true (begun s) (nodebacks s)
      | (zApp, deferred) :: queue =>
          mount zApp deferred true
            (Shepherd (_zApp s) (_mounting s) queue (coord s) (inFlight s) n
               (deferreds s) (settledLog s) (uncaught s) (begun s) (nodebacks s))
      end
  end.

(** [ZShepherd.prototype.stop], as far as the mount state goes: once the
    Controller has closed, the list of mounted applications is emptied. *)
Definition stop (closed : settled unit) (s : shepherd) : shepherd :=
  match closed with
  | Rejected _ => s
  | Resolved _ =>
      Shepherd [] (_mounting s) (_mountQueue s) (coord s) (inFlight s) (nextTicks s)
        (deferreds s) (settledLog s) (uncaught s) (begun s) (nodebacks s)
  end.

(** What can happen next: a client calls [mount] (with a fresh deferred),
    the first callback of the chain in flight runs, the chain in flight
    completes, a scheduled drain runs, or [stop] is called.

    Q runs the [done] handler of a chain inside its flush, which is itself
    a [process.nextTick] callback and goes on until no promise reaction is
    left to run.  The drain that the handler schedules therefore runs after
    the reactions that are pending, or become pending, in that flush, and
    after the next-tick callbacks that were queued before it.  Any of these
    may call [mount]: a [Call] can come between a [Complete] and the [Tick]
    it scheduled. *)
Inductive event :=
  | Call (zApp : appRef)
  | Begin
  | Complete (ans : answers)
  | Tick
  | Stop (closed : settled unit).

Definition step (s : shepherd) (e : event) : shepherd :=
  match e with
  | Call zApp =>
      mount zApp (deferreds s) false
        (Shepherd (_zApp s) (_mounting s) (_mountQueue s) (coord s) (inFlight s)
           (nextTicks s) (S (deferreds s)) (settledLog s) (uncaught s) (begun s)
           (nodebacks s))
  | Begin => begin s
  | Complete ans => complete ans s
  | Tick => drain s
  | Stop closed => stop closed s
  end.

Definition run (s : shepherd) (evs : list event) : shepherd := foldl step s evs.

(** Every collaborator answers with success. *)
Definition allFine (info : list Z) : answers :=
  Answers (Resolved tt) (Resolved info) (Resolved tt).

(** A run in which every drain follows at once the end of the chain that
    scheduled it, with no call of [mount] in between. *)
Definition stepCalm (s : shepherd) (e : event) : shepherd :=
  match e with
  | Begin => drain (begin s)
  | Complete ans => drain (complete ans s)
  | Tick => s
  | _ => step s e
  end.

Definition runCalm (s : shepherd) (evs : list event) : shepherd := foldl stepCalm s evs.

(** The deferreds in the order in which they were or will be served:
    settled, in flight, queued. *)
Definition line (s : shepherd) : list deferredRef :=
  (settledLog s).*1 ++ (inFlight s).*2 ++ (_mountQueue s).*2.

(** What holds throughout such a run: the line is in the order of the
    calls, no drain is pending between events, and a lowered [_mounting]
    means that nothing is in flight or queued. *)
Record calm (s : shepherd) : Prop := Calm {
  calm_line : StronglySorted lt (line s);
  calm_bound : Forall (λ d, d < deferreds s) (line s);
  calm_ticks : nextTicks s = 0;
  calm_single : length (inFlight s) ≤ 1;
  calm_idle : _mounting s = false → inFlight s = [] ∧ _mountQueue s = [];
  calm_caught : uncaught s = false;
  calm_nodebacks : nodebacks s = [];
}.

(** [m] is the greatest element of [l]. *)
Definition isMax (m : Z) (l : list Z) : Prop :=
  m ∈ l ∧ ∀ x, x ∈ l → (x ≤ m)%Z.

(** The events that empty the list of mounted applications: a [stop] whose
    Controller closed. *)
Definition clears (ev : event) : Prop := ∃ u, ev = Stop (Resolved u).

(** A chain that gets past the duplicate check fails when the coordinator
    is missing or a collaborator rejects. *)
Definition failsLater (ans : answers) (c : option coordinator) : Prop :=
  c = None
  ∨ (∃ e, registerEp ans = Rejected e)
  ∨ (∃ e, coordInfo ans = Rejected e)
  ∨ (∃ e, sync ans = Rejected e).

End Mount.

(** ** The device registry *)

Module Registry.

(** Modelled from the spec: the [Device] class (lib/model/device.js) is not
    among the sources.  A device has the attributes of the data model; its
    [dump] is the object of those attributes together with the registry id
    and the dumps of its endpoints. *)
Record device := Device {
  id : option nat;
  type : string;
  ieeeAddr : string;
  nwkAddr : Z;
  manufId : Z;
  epList : list Z;
  status : string;
  joinTime : Z;
  incomplete : bool;
}.

Inductive field :=
  | FVal (v : jsval)
  | FEpList (l : list Z)
  | FEndpoints (l : list Z).

Definition dump (d : device) : list (string * field) :=
  [ ("id", FVal (from_option (λ n, VNum (Z.of_nat n)) VUndefined (id d)));
    ("type", FVal (VStr (type d)));
    ("ieeeAddr", FVal (VStr (ieeeAddr d)));
    ("nwkAddr", FVal (VNum (nwkAddr d)));
    ("manufId", FVal (VNum (manufId d)));
    ("epList", FEpList (epList d));
    ("status", FVal (VStr (status d)));
    ("joinTime", FVal (VNum (joinTime d)));
    ("endpoints", FEndpoints (epList d)) ].

(** Modelled from the spec: the DevBox (package objectbox) is an ordered
    collection of objects keyed by a registry id; [find] is a linear scan
    that returns the first match. *)
Definition devbox := list (nat * device).

Definition exportAllIds (box : devbox) : list nat := box.*1.
Definition exportAllObjs (box : devbox) : list device := box.*2.

Fixpoint find (p : device → bool) (box : devbox) : option device :=
  match box with
  | [] => None
  | (_, d) :: box' => if p d then Some d else find p box'
  end.

Definition remove (i : nat) (box : devbox) : devbox :=
  filter (λ e, e.1 ≠ i) box.


(** An address is an IEEE address (a string) or a network address (a
    number). *)
Inductive addr :=
  | Ieee (a : string)
  | Nwk (a : Z).

(** [ZShepherd.prototype._findDevByAddr] *)
Definition _findDevByAddr (box : devbox) (a : addr) : option device :=
  find (λ dev,
          match a with
          | Ieee s => bool_decide (ieeeAddr dev = s)
          | Nwk n => bool_decide (nwkAddr dev = n)
          end) box.

End Registry.

(** ** The facade: [reset] and [list] *)

Module Facade.
Import Registry.

(** *** [reset] *)

Inductive mode :=
  | ModeName (s : string)
  | ModeNum (n : Z).

#[global] Instance mode_eq_dec : EqDecision mode.
Proof. solve_decision. Defined.




(** *** [list] *)

(** The first argument of [list]: absent, a string, an array (of anything),
    or some other value. *)
Inductive listArg :=
  | NoArg
  | OneAddr (a : string)
  | Addrs (l : list jsval)
  | OtherArg.

(** [_.omit(obj, keys)] *)
Definition omit (obj : list (string * field)) (keys : list string) : list (string * field) :=
  filter (λ kv, kv.1 ∉ keys) obj.

(** The slot that [list] returns for an address: the dump of the device
    found, without [id] and [endpoints]; [undefined] when no device is
    found. *)
Definition slotOf (box : devbox) (a : string) : option (list (string * field)) :=
  (λ found, omit (dump found) ["id"; "endpoints"]) <$> _findDevByAddr box (Ieee a).

(** The callback mapped over the addresses: [proving.string] throws on a
    slot that is not a string. *)
Definition lookupOne (box : devbox) (a : jsval)
  : completion (option (list (string * field))) :=
  match a with
  | VStr ieeeAddr => Return (slotOf box ieeeAddr)
  | _ => Throw (TypeError "ieeeAddr should be a string.")
  end.

Fixpoint mapLookup (box : devbox) (l : list jsval)
  : completion (list (option (list (string * field)))) :=
  match l with
  | [] => Return []
  | a :: l' =>
      match lookupOne box a with
      | Throw e => Throw e
      | Return slot =>
          match mapLookup box l' with
          | Throw e => Throw e
          | Return slots => Return (slot :: slots)
          end
      end
  end.

(** [ZShepherd.prototype.list] *)
Definition listDevs (box : devbox) (ieeeAddrs : listArg) (showIncomplete : bool)
  : completion (list (option (list (string * field)))) :=
  match ieeeAddrs with
  | OneAddr a => mapLookup box [VStr a]
  | OtherArg =>
      Throw (TypeError "ieeeAddrs should be a string or an array of strings if given.")
  | NoArg =>
      mapLookup box
        ((λ dev, VStr (ieeeAddr dev)) <$>
           filter (λ a, showIncomplete || negb (incomplete a)) (exportAllObjs box))
  | Addrs l => mapLookup box l
  end.

(** *** Words for the statements *)



End Facade.

(** ** The topology scanner *)

Module Scan.
Import Registry.

(** An entry of the neighbour table in a [mgmtLqiReq] response, and the
    response itself. *)
Record neighbor := Neighbor {
  extAddr : string;
  nbr_nwkAddr : Z;
  nbr_lqi : Z;
}.

Record lqiRsp := LqiRsp {
  rsp_status : Z;
  neighborlqilist : list neighbor;
}.

(** The Controller's answer to a [ZDO mgmtLqiReq] sent to a network
    address. *)
Definition radio := Z → settled lqiRsp.

(** A record of the scan.  [lqi] creates [{ ieeeAddr, nwkAddr, lqi }];
    the scan adds [parent] and [status], and [error] when the request to
    that node failed; the record of the start node has [ieeeAddr],
    [status] and [type] only. *)
Record scanRec := ScanRec {
  rec_ieeeAddr : string;
  rec_nwkAddr : option Z;
  rec_lqi : option Z;
  rec_parent : option string;
  rec_status : option string;
  rec_type : option string;
  rec_error : option error;
}.

(** [ZShepherd.prototype.lqi]: a response whose status is not 0 resolves
    with [undefined]. *)
Definition lqi (box : devbox) (ask : radio) (ieeeAddr : string)
  : settled (option (list scanRec)) :=
  match _findDevByAddr box (Ieee ieeeAddr) with
  | None => Rejected (Error "device is not found.")
  | Some dev =>
      andThen (ask (nwkAddr dev)) (λ rsp,
        Resolved
          (if decide (rsp_status rsp = 0%Z) then
             Some ((λ n, ScanRec (extAddr n) (Some (nbr_nwkAddr n)) (Some (nbr_lqi n))
                           None None None None) <$> neighborlqilist rsp)
           else None))
  end.

(** The state shared by the callbacks of one scan: the [noDuplicate]
    object, in insertion order, and what was handed to the [emit] sink. *)
Record scanState := ScanState {
  noDuplicate : list (string * scanRec);
  emitted : list scanRec;
}.

Definition lookupRec (a : string) (nd : list (string * scanRec)) : option scanRec :=
  (list_find (λ kv, kv.1 = a) nd) ≫= (λ hit, Some hit.2.2).

Definition zeroAddr : string := "0x0000000000000000".

(** One turn of the [for] loop of [processResponse(parent)]; [set] holds
    the addresses for which a request was started in this call. *)
Definition sight (box : devbox) (emit : bool) (parent : string)
    (acc : list string * scanState) (entry : scanRec) : list string * scanState :=
  let '(set, st) := acc in
  let ieeeAddr := rec_ieeeAddr entry in
  if decide (ieeeAddr = zeroAddr) then acc
  else
    let dev := _findDevByAddr box (Ieee ieeeAddr) in
    let stamped :=
      ScanRec ieeeAddr (rec_nwkAddr entry) (rec_lqi entry) (Some parent)
        (Some (from_option status "offline" dev)) (rec_type entry) (rec_error entry) in
    let out := if emit then emitted st ++ [stamped] else emitted st in
    match lookupRec ieeeAddr (noDuplicate st) with
    | Some _ => (set, ScanState (noDuplicate st) out)
    | None =>
        (if bool_decide (type <$> dev = Some "Router") then set ++ [ieeeAddr] else set,
         ScanState (noDuplicate st ++ [(ieeeAddr, stamped)]) out)
    end.

(** The synchronous part of [processResponse(parent)(data)]. *)
Definition processResponse (box : devbox) (emit : bool) (parent : string)
    (data : list scanRec) (st : scanState) : list string * scanState :=
  foldl (sight box emit parent) ([], st) data.

(** The [catch] handler of a sub-request: [noDuplicate[ieeeAddr].error = err]. *)
Definition markError (ieeeAddr : string) (err : error) (st : scanState) : scanState :=
  ScanState
    ((λ kv, if decide (kv.1 = ieeeAddr)
            then (kv.1, ScanRec (rec_ieeeAddr kv.2) (rec_nwkAddr kv.2) (rec_lqi kv.2)
                          (rec_parent kv.2) (rec_status kv.2) (rec_type kv.2) (Some err))
            else kv) <$> noDuplicate st)
    (emitted st).

(** The requests started for the addresses of [set], once they have all
    settled: a failed one leaves its error on the record and counts as an
    empty neighbour list; otherwise the data, or [undefined], to process. *)
Fixpoint settleAll (box : devbox) (ask : radio) (set : list string) (st : scanState)
  : list (string * option (list scanRec)) * scanState :=
  match set with
  | [] => ([], st)
  | a :: set' =>
      match lqi box ask a with
      | Rejected err =>
          let '(rest, st') := settleAll box ask set' (markError a err st) in
          ((a, Some []) :: rest, st')
      | Resolved data =>
          let '(rest, st') := settleAll box ask set' st in
          ((a, data) :: rest, st')
      end
  end.

(** The callbacks of the scan in the order in which they run when the
    radio answers requests in the order they were sent: breadth first.
    [pending] holds the responses waiting for their [processResponse];
    reading [data.length] of an [undefined] response rejects the scan. *)
Fixpoint scanLoop (fuel : nat) (box : devbox) (ask : radio) (emit : bool)
    (pending : list (string * option (list scanRec))) (st : scanState)
  : option (settled scanState) :=
  match pending with
  | [] => Some (Resolved st)
  | (parent, data) :: rest =>
      match fuel with
      | O => None
      | S fuel' =>
          match data with
          | None =>
              Some (Rejected
                      (TypeError "Cannot read properties of undefined (reading 'length')"))
          | Some entries =>
              let '(set, st1) := processResponse box emit parent entries st in
              let '(children, st2) := settleAll box ask set st1 in
              scanLoop fuel' box ask emit (rest ++ children) st2
          end
      end
  end.

(** The start record: [{ status: "online", ieeeAddr: startAddr, type: "Coordinator" }]. *)
Definition startRec (startAddr : string) : scanRec :=
  ScanRec startAddr None None None (Some "online") (Some "Coordinator") None.

Definition startState (startAddr : string) : scanState :=
  ScanState [(startAddr, startRec startAddr)] [].

(** [if (!startAddr) startAddr = info.net.ieeeAddr]: an absent or empty
    [startAddr] is falsy. *)
Definition startOf (netIeeeAddr : string) (startAddr : option string) : string :=
  match startAddr with
  | Some a => if decide (a = "") then netIeeeAddr else a
  | None => netIeeeAddr
  end.

(** [ZShepherd.prototype.lqiScan].  [netIeeeAddr] is [info().net.ieeeAddr].
    The result is [Object.values(noDuplicate)]; [None] means the fuel ran
    out. *)
Definition lqiScan (fuel : nat) (box : devbox) (ask : radio) (netIeeeAddr : string)
    (startAddr : option string) (emit : bool) : option (settled (list scanRec)) :=
  let start := startOf netIeeeAddr startAddr in
  match lqi box ask start with
  | Rejected e => Some (Rejected e)
  | Resolved data =>
      match scanLoop fuel box ask emit [(start, data)] (startState start) with
      | None => None
      | Some (Rejected e) => Some (Rejected e)
      | Some (Resolved st) => Some (Resolved ((noDuplicate st).*2))
      end
  end.

(** Whatever the order in which the radio answers, the [noDuplicate]
    object changes only through calls of [processResponse] and of the
    [catch] handlers. *)
Inductive scanStep :=
  | Response (parent : string) (data : list scanRec)
  | Failure (ieeeAddr : string) (err : error).

Definition scanStepRun (box : devbox) (emit : bool) (st : scanState) (s : scanStep)
  : scanState :=
  match s with
  | Response parent data => (processResponse box emit parent data st).2
  | Failure a err => markError a err st
  end.

(** A record without its [error] field. *)
Definition sighting (r : scanRec) : scanRec :=
  ScanRec (rec_ieeeAddr r) (rec_nwkAddr r) (rec_lqi r) (rec_parent r) (rec_status r)
    (rec_type r) None.

(** What holds of [noDuplicate] throughout a scan started at [start]. *)
Record scanInv (start : string) (nd : list (string * scanRec)) : Prop := ScanInv {
  inv_keys : NoDup nd.*1;
  inv_addr : ∀ k r, (k, r) ∈ nd → rec_ieeeAddr r = k;
  inv_start : ∃ r, (start, r) ∈ nd ∧ rec_parent r = None;
  inv_zero : ∀ k r, (k, r) ∈ nd → k = zeroAddr → k = start;
}.

(** The properties of a list of scan records: one record per IEEE address;
    exactly one record for the start node, and it has no parent; the
    all-zero address on no record but, possibly, that of the start node. *)
Definition scanResultOk (start : string) (l : list scanRec) : Prop :=
  NoDup (rec_ieeeAddr <$> l)
  ∧ (∃ r0, filter (λ r, rec_ieeeAddr r = start) l = [r0] ∧ rec_parent r0 = None)
  ∧ (∀ r, r ∈ l → rec_ieeeAddr r = zeroAddr → start = zeroAddr).

(** The registered addresses, each once, and how many of them the scan has
    not recorded yet: what is left for it to request. *)
Definition candidates (box : devbox) : list string :=
  remove_dups (ieeeAddr <$> exportAllObjs box).

Definition unseen (box : devbox) (st : scanState) : nat :=
  length (filter (λ a, a ∉ (noDuplicate st).*1) (candidates box)).

End Scan.

(** ** Fixtures: a small catalog, radio and registry *)

Module Demo.

(** The entries of the ZCL catalog for cluster [genBasic] (0): attributes
    [zclVersion] (0) and [hwVersion] (3); foundation commands [read] (0),
    [write] (2) and [configReport] (6); both attributes are of type [uint8]
    (32); status 0 is [success], status 0x86 is [unsupAttribute], and no
    other status has a name. *)
Definition isGenBasic (c : ident) : bool :=
  bool_decide (c = Num 0 ∨ c = Name "genBasic").

Definition catalog : ZclId := {|
  zclId_cluster c := if isGenBasic c then Some (Item "genBasic" 0) else None;
  zclId_attr c a :=
    if isGenBasic c then
      if bool_decide (a = Num 0 ∨ a = Name "zclVersion") then Some (Item "zclVersion" 0)
      else if bool_decide (a = Num 3 ∨ a = Name "hwVersion") then Some (Item "hwVersion" 3)
      else None
    else None;
  zclId_attrType c a :=
    if isGenBasic c then
      if bool_decide (a = Num 0 ∨ a = Name "zclVersion" ∨ a = Num 3 ∨ a = Name "hwVersion")
      then Some (Item "uint8" 32)
      else None
    else None;
  zclId_foundation c :=
    if bool_decide (c = Num 0 ∨ c = Name "read") then Some (Item "read" 0)
    else if bool_decide (c = Num 2 ∨ c = Name "write") then Some (Item "write" 2)
    else if bool_decide (c = Num 6 ∨ c = Name "configReport") then Some (Item "configReport" 6)
    else None;
  zclId_status st :=
    if bool_decide (st = 0%Z) then Some (Item "success" 0)
    else if bool_decide (st = 134%Z) then Some (Item "unsupAttribute" 134)
    else None;
|}.

(** Objects whose keys are visited in the order of the map. *)
Definition order : KeyOrder := {|
  entriesOf := map_to_list;
  entriesOf_perm := λ m, reflexivity (map_to_list m);
|}.

(** A radio that answers every foundation command with the given records. *)
Definition answering (recs : list attrRec) : Af := {|
  af_zclFoundation _ _ _ _ _ := Resolved (AfMsg recs);
  af_zclClusterAttrsReq _ _ := Resolved ∅;
|}.

(** The hardware version, read with success. *)
Definition hwVersionOk : attrRec := AttrRec 3 (Some 0%Z) (Some 33%Z) (VNum 2400).

(** The same attribute refused with status 0x86. *)
Definition hwVersionRefused : attrRec := AttrRec 3 (Some 134%Z) None VUndefined.

(** An endpoint (number 1) whose [genBasic] cache holds the given
    attributes. *)
Definition cached (attrs : gmap string jsval) : Router.world :=
  Router.World {[ 1 := {[ "genBasic" := attrs ]} ]} [] [].

(** A Controller with a delegator (endpoint 9) for every profile and binds
    that succeed. *)
Definition binder : Router.Binder := {|
  Router.ctl_bind _ _ _ := Resolved tt;
  Router.coord_getDelegator _ := Some 9;
  Router.ep_getProfId _ := 260%Z;
|}.

(** A registry of five devices: the coordinator, routers A, B and C, and
    the end device D. *)
Definition dev (i : nat) (type ieeeAddr : string) (nwkAddr : Z) : nat * Registry.device :=
  (i, Registry.Device (Some i) type ieeeAddr nwkAddr 0 [1%Z] "online" 1700000000 false).

Definition addrS : string := "0x00124b0000".
Definition addrA : string := "0x00124b0001".
Definition addrB : string := "0x00124b0002".
Definition addrC : string := "0x00124b0003".
Definition addrD : string := "0x00124b0004".

Definition box : Registry.devbox :=
  [ dev 1 "Coordinator" addrS 0; dev 2 "Router" addrA 1; dev 3 "Router" addrB 2;
    dev 4 "Router" addrC 3; dev 5 "EndDevice" addrD 4 ].

(** The neighbour tables: the coordinator hears A and B (and an unknown
    node reported with the all-zero address), A hears the coordinator and
    C, B hears C and D, C hears A and B. *)
Definition radio : Scan.radio := λ nwkAddr,
  let table (l : list (string * Z)) :=
    Resolved (Scan.LqiRsp 0 ((λ n, Scan.Neighbor n.1 n.2 100) <$> l)) in
  if bool_decide (nwkAddr = 0%Z) then
    table [(addrA, 1%Z); (Scan.zeroAddr, 65534%Z); (addrB, 2%Z)]
  else if bool_decide (nwkAddr = 1%Z) then table [(addrS, 0%Z); (addrC, 3%Z)]
  else if bool_decide (nwkAddr = 2%Z) then table [(addrC, 3%Z); (addrD, 4%Z)]
  else if bool_decide (nwkAddr = 3%Z) then table [(addrA, 1%Z); (addrB, 2%Z)]
  else Rejected (Error "timeout").

(** A registry whose only device has the all-zero address, and a radio
    that reports no neighbour. *)
Definition zeroBox : Registry.devbox := [ dev 1 "Coordinator" Scan.zeroAddr 0 ].

Definition silent : Scan.radio := λ _, Resolved (Scan.LqiRsp 0 []).

End Demo.

(** ** More of the per-endpoint facade *)

Module Endpoint.
Import Facade Router.

(** [dev.getEndpoint(epId)] of the [Device] class, which is not among the
    sources: the endpoint object of a device for an endpoint id, or
    [undefined]. *)
Class Endpoints := {
  getEndpoint : Registry.device → Z → option epRef;
}.

(** [ZShepherd.prototype.find]: the device by address, then its endpoint. *)
Definition find `{Endpoints} (box : Registry.devbox) (a : Registry.addr) (epId : Z) : option epRef :=
  Registry._findDevByAddr box a ≫= (λ dev, getEndpoint dev epId).

(** The [cfg] argument of the AF requests, as far as the Shepherd reads it:
    [skipFinalize] is [undefined], [true] or [false]. *)
Record cfg := Cfg { skipFinalize : option bool }.

(** The AF layer for cluster-specific commands; the payloads are opaque
    here. *)
Class AfFunctional := {
  af_zclFunctional : epRef → epRef → ident → ident → jsval → option cfg → settled jsval;
}.

Section WithInterfaces.
Context `{ZclId} `{Af} {keyOrder : KeyOrder}.

(** [ep.write].  [zclId.attrType(cId, attrId).value] and [attr.value] are
    read without a guard: for an attribute that the catalog does not know,
    the call throws before anything is sent. *)
Definition write (ep : epRef) (cId attrId : ident) (data : jsval) (w : world)
  : completion (settled jsval * world) :=
  match zclId_attr cId attrId, zclId_attrType cId attrId with
  | Some attr, Some attrType =>
      let '(rsp, w') :=
        _foundation ep ep cId (Name "write")
          (WriteData [(Num (value attr), value attrType, data)]) w in
      Return
        (andThen rsp (λ writeStatusRecsRsp,
           match writeStatusRecsRsp with
           | [] =>
               Rejected (TypeError "Cannot read properties of undefined (reading 'status')")
           | rec :: _ =>
               if decide (status rec = Some 0%Z) then Resolved data
               else Rejected (Error ("request unsuccess: " +:+ showField (status rec)))
           end), w')
  | _, _ => Throw (TypeError "Cannot read properties of undefined (reading 'value')")
  end.

(** [ZShepherd.prototype._functional], with the pass it starts run to its
    end: the cache is refreshed only when the caller passes
    [skipFinalize: false]. *)
Definition _functional `{AfFunctional} (srcEp dstEp : epRef) (cId cmd : ident)
    (zclData : jsval) (c : option cfg) (w : world) : settled jsval * world :=
  match af_zclFunctional srcEp dstEp cId cmd zclData c with
  | Rejected e => (Rejected e, w)
  | Resolved payload =>
      (Resolved payload,
       if decide (c ≫= skipFinalize = Some false)
       then _updateFinalizer dstEp cId None false w
       else w)
  end.

(** [zApp.foundation] as attached to a mounted application, whose local
    endpoint is [zApp._endpoint]. *)
Definition zApp_foundation `{Endpoints} (box : Registry.devbox) (_endpoint : epRef)
    (dstAddr : Registry.addr) (dstEpId : Z) (cId cmd : ident) (data : zclData) (w : world)
  : settled (list attrRec) * world :=
  match find box dstAddr dstEpId with
  | None => (Rejected (Error "dstEp is not found."), w)
  | Some dstEp => _foundation _endpoint dstEp cId cmd data w
  end.

(** [zApp.functional] *)
Definition zApp_functional `{Endpoints} `{AfFunctional} (box : Registry.devbox) (_endpoint : epRef)
    (dstAddr : Registry.addr) (dstEpId : Z) (cId cmd : ident) (zclData : jsval) (c : option cfg)
    (w : world) : settled jsval * world :=
  match find box dstAddr dstEpId with
  | None => (Rejected (Error "dstEp is not found."), w)
  | Some dstEp => _functional _endpoint dstEp cId cmd zclData c w
  end.

(** The catalog's entry for the command name [write], if it has one, is
    called [write]. *)
Definition writeIsWrite : Prop :=
  ∀ it, zclId_foundation (Name "write") = Some it → key it = "write".

(** The catalog names the attributes of a cluster alike whether the cluster
    is given as the caller gave it or by its catalog name. *)
Definition namesAgree (cId : ident) : Prop :=
  ∀ a, zclId_attr (clusterIdent cId) a = zclId_attr cId a.

(** The keys of the diff that a pass does not get to write: those of the
    entries from the first [undefined] value on. *)
Definition refused (oldAttrs newAttrs : gmap string jsval) : list string :=
  (drop (length (accepted (diffEntries oldAttrs newAttrs)))
     (diffEntries oldAttrs newAttrs)).*1.

End WithInterfaces.

End Endpoint.

(** ** More of the facade: [rtg], [remove], [permitJoin], [start], [stop] *)

Module Lookup.
Import Registry.

(** An entry of the routing table in a [mgmtRtgReq] response.  The
    Shepherd reads [routeStatus] and passes the other fields on. *)
Record route := Route {
  routeStatus : Z;
  otherFields : list (string * jsval);
}.

Record rtgRsp := RtgRsp {
  rtg_status : Z;
  routingtablelist : list route;
}.

(** [ZShepherd.prototype.rtg]: the entries whose [routeStatus & 7] is 3
    are dropped; a response whose status is not 0 resolves with
    [undefined]. *)
Definition rtg (box : devbox) (ask : Z → settled rtgRsp) (ieeeAddr : string)
  : settled (option (list route)) :=
  match _findDevByAddr box (Ieee ieeeAddr) with
  | None => Rejected (Error "device is not found.")
  | Some dev =>
      andThen (ask (nwkAddr dev)) (λ rsp,
        Resolved
          (if decide (rtg_status rsp = 0%Z) then
             Some (filter (λ neighbor, Z.land (routeStatus neighbor) 7 ≠ 3%Z)
                     (routingtablelist rsp))
           else None))
  end.

(** The [cfg] argument of [remove]: absent, a callback in its place, or an
    object, which is handed on as it is; the first two become [{}]. *)
Inductive cfgArg :=
  | NoCfg
  | CfgCallback
  | CfgObject (fields : list (string * jsval)).

Definition cfgOf (c : cfgArg) : list (string * jsval) :=
  match c with
  | CfgObject fields => fields
  | _ => []
  end.

(** [ZShepherd.prototype.remove] *)
Definition remove (box : devbox)
    (ctl_remove : device → list (string * jsval) → settled unit)
    (ieeeAddr : string) (c : cfgArg) : settled unit :=
  match _findDevByAddr box (Ieee ieeeAddr) with
  | None => Rejected (Error "device is not found.")
  | Some dev => ctl_remove dev (cfgOf c)
  end.

(** No device is registered under the IEEE address. *)
Definition unknown (box : devbox) (ieeeAddr : string) : Prop :=
  ∀ dev, dev ∈ exportAllObjs box → Registry.ieeeAddr dev ≠ ieeeAddr.

End Lookup.

Module Lifecycle.
Import Registry.

(** The fields that [start], [stop] and [permitJoin] touch, and the number
    of [ready] events scheduled with [setImmediate]. *)
Record state := State {
  _enabled : bool;
  _startTime : Z;
  _devbox : devbox;
  readyEvents : nat;
}.

(** The constructor: [_startTime = 0], [_enabled = false]. *)
Definition created (box : devbox) : state := State false 0 box 0.

(** [ZShepherd.prototype.start], with the [_ready] handler of the
    constructor, which runs inside [emit]: [Math.floor(Date.now()/1000)].

    Modelled from the spec: [init.setupShepherd] (lib/initializators) is
    not among the sources.  It brings up the Controller and rehydrates the
    persisted devices; it is taken by what it leaves behind: the promise it
    returns and the registry as it has loaded it. *)
Definition start (setup : settled unit) (loaded : devbox) (now : Z) (generateEvent : bool)
    (s : state) : settled unit * state :=
  match setup with
  | Rejected e => (Rejected e, State (_enabled s) (_startTime s) loaded (readyEvents s))
  | Resolved _ =>
      (Resolved tt,
       State true (now `div` 1000) loaded
         (if generateEvent then S (readyEvents s) else readyEvents s))
  end.

(** [devbox.removeElement(id)] for every id of [exportAllIds()]: the
    objects leave the memory of the box, one by one. *)
Definition removeElements (box : devbox) : devbox :=
  foldl (λ b i, Registry.remove i b) box (exportAllIds box).

(** [ZShepherd.prototype.stop]: the registry is emptied before the
    Controller is asked to close. *)
Definition stop (closed : settled unit) (s : state) : settled unit * state :=
  let box := if _enabled s then removeElements (_devbox s) else _devbox s in
  match closed with
  | Rejected e => (Rejected e, State (_enabled s) (_startTime s) box (readyEvents s))
  | Resolved _ => (Resolved tt, State false (_startTime s) box (readyEvents s))
  end.

(** The [type] argument of [permitJoin]: absent, a function, or a string
    (the empty string is falsy). *)
Inductive typeArg :=
  | NoType
  | TypeFunction
  | TypeString (s : string).

(** What the Controller is given as [type]: a string, or the function
    itself when both [type] and [callback] are functions. *)
Inductive joinType :=
  | JoinString (s : string)
  | JoinFunction.

Definition typeOf (type : typeArg) (callbackIsFunction : bool) : joinType :=
  match type with
  | TypeFunction => if callbackIsFunction then JoinFunction else JoinString "all"
  | TypeString t => if decide (t = "") then JoinString "all" else JoinString t
  | NoType => JoinString "all"
  end.

(** [ZShepherd.prototype.permitJoin] *)
Definition permitJoin (ctl_permitJoin : Z → joinType → settled unit)
    (time : Z) (type : typeArg) (callbackIsFunction : bool) (s : state) : settled unit :=
  if _enabled s then ctl_permitJoin time (typeOf type callbackIsFunction)
  else Rejected (Error "Shepherd is not enabled.").

(** What happens to a Shepherd over its life. *)
Inductive event :=
  | Start (setup : settled unit) (loaded : devbox) (now : Z) (generateEvent : bool)
  | Stop (closed : settled unit).

Definition step (s : state) (e : event) : state :=
  match e with
  | Start setup loaded now generateEvent => (start setup loaded now generateEvent s).2
  | Stop closed => (stop closed s).2
  end.

Definition run (s : state) (evs : list event) : state := foldl step s evs.

(** The clock is past the first second of 1970 at every start. *)
Definition clockRuns (e : event) : Prop :=
  match e with
  | Start _ _ now _ => (1000 ≤ now)%Z
  | Stop _ => True
  end.

End Lifecycle.

(** ** Words for the statements about the scanner *)

Module ScanWords.
Import Registry Scan.

(** The registry knows the address as that of a router. *)
Definition isRouter (box : devbox) (a : string) : Prop :=
  type <$> _findDevByAddr box (Ieee a) = Some "Router".

(** A neighbour entry as [processResponse] stamps it: with the node being
    scanned as [parent] and the status the registry has for the address,
    ["offline"] when it has none. *)
Definition stamped (box : devbox) (parent : string) (entry : scanRec) : scanRec :=
  ScanRec (rec_ieeeAddr entry) (rec_nwkAddr entry) (rec_lqi entry) (Some parent)
    (Some (from_option status "offline" (_findDevByAddr box (Ieee (rec_ieeeAddr entry)))))
    (rec_type entry) (rec_error entry).

(** The radio never answers with a status other than 0 (it may fail to
    answer). *)
Definition neverRefuses (ask : radio) : Prop :=
  ∀ n rsp, ask n = Resolved rsp → rsp_status rsp = 0%Z.

(** What reading [data.length] of [undefined] rejects with. *)
Definition noLength : error :=
  TypeError "Cannot read properties of undefined (reading 'length')".

End ScanWords.

(** ** More fixtures *)

Module Demo2.

(** A radio that answers a foundation command with the given records and
    the attribute query with the given snapshot. *)
Definition device (recs : list attrRec) (snapshot : gmap string jsval) : Af := {|
  af_zclFoundation _ _ _ _ _ := Resolved (AfMsg recs);
  af_zclClusterAttrsReq _ _ := Resolved snapshot;
|}.

(** Endpoint [epId] of the device registered under id [i] is the endpoint
    object [10 * i + epId]. *)
Definition endpoints : Endpoint.Endpoints := {|
  Endpoint.getEndpoint dev epId :=
    if bool_decide (epId ∈ Registry.epList dev)
    then (λ i, 10 * i + Z.to_nat epId) <$> Registry.id dev
    else None;
|}.

(** A radio that answers every cluster-specific command with [undefined]. *)
Definition functional : Endpoint.AfFunctional := {|
  Endpoint.af_zclFunctional _ _ _ _ _ _ := Resolved VUndefined;
|}.

(** A world in which endpoint 1 caches two clusters. *)
Definition twoClusters : Router.world :=
  Router.World
    {[ 1 := {[ "genBasic" := {[ "hwVersion" := VNum 2400 ]};
               "genOnOff" := {[ "onOff" := VNum 1 ]} ]} ]} [] [].

(** A radio on which router B answers the LQI request with status 0x80. *)
Definition refusing : Scan.radio := λ nwkAddr,
  if bool_decide (nwkAddr = 2%Z) then Resolved (Scan.LqiRsp 128 [])
  else Demo.radio nwkAddr.

(** A routing table with an active, an inactive and a discovery-underway
    entry. *)
Definition routes : Z → settled Lookup.rtgRsp := λ _,
  Resolved (Lookup.RtgRsp 0
              [Lookup.Route 0 [("destNwkAddr", VNum 1)];
               Lookup.Route 3 [("destNwkAddr", VNum 2)];
               Lookup.Route 1 [("destNwkAddr", VNum 3)]]).

End Demo2.

(** * Properties *)

(** ** The request router *)

Module RouterFacts.
Import Router.

Lemma getClusters_withAttrs ep cid attrs w :
  getClusters (withAttrs ep cid attrs w) ep = <[cid := attrs]> (getClusters w ep).
Proof. unfold getClusters at 1, withAttrs; simpl. by rewrite lookup_insert_eq. Qed.

Lemma getClusters_withAttrs_other ep cid attrs w ep' cid' :
  (ep', cid') ≠ (ep, cid) →
  getClusters (withAttrs ep cid attrs w) ep' !! cid' = getClusters w ep' !! cid'.
Proof.
  intros Hother. destruct (decide (ep' = ep)) as [->|Hep].
  - rewrite getClusters_withAttrs, lookup_insert_ne; [done|congruence].
  - unfold getClusters, withAttrs. simpl. by rewrite lookup_insert_ne.
Qed.

Lemma withAttrs_twice ep cid a b w :
  withAttrs ep cid b (withAttrs ep cid a w) = withAttrs ep cid b w.
Proof.
  unfold withAttrs at 1. rewrite getClusters_withAttrs. simpl.
  unfold withAttrs. by rewrite !insert_insert_eq.
Qed.

Lemma setAttr_defined ep cid k v w :
  v ≠ VUndefined →
  setAttr ep cid k v w
  = Some (withAttrs ep cid (<[k := v]> (default ∅ (getClusters w ep !! cid))) w).
Proof. intros Hv. unfold setAttr. by rewrite decide_False. Qed.

Lemma objectDiff_lookup (old new : gmap string jsval) k v :
  objectDiff old new !! k = Some v ↔ new !! k = Some v ∧ old !! k ≠ Some v.
Proof. unfold objectDiff. by rewrite map_lookup_filter_Some. Qed.

Lemma objectDiff_lookup_None (old new : gmap string jsval) k :
  objectDiff old new !! k = None ↔ (∀ v, new !! k = Some v → old !! k = Some v).
Proof.
  rewrite eq_None_not_Some. split.
  - intros Hno v Hnew. destruct (decide (old !! k = Some v)) as [|Hne]; [done|].
    exfalso. apply Hno. exists v. by apply objectDiff_lookup.
  - intros Hall [v Hv]. apply objectDiff_lookup in Hv as [Hnew Hold]. auto.
Qed.

Lemma objectDiff_empty (old new : gmap string jsval) :
  objectDiff old new = ∅ ↔ (∀ k v, new !! k = Some v → old !! k = Some v).
Proof.
  split.
  - intros He k. apply objectDiff_lookup_None. by rewrite He.
  - intros Hall. apply map_eq. intros k. rewrite lookup_empty.
    apply objectDiff_lookup_None. auto.
Qed.

Lemma merged_lookup (old new : gmap string jsval) k :
  (objectDiff old new ∪ old) !! k
  = match new !! k with Some v => Some v | None => old !! k end.
Proof.
  destruct (new !! k) as [v|] eqn:Hnew.
  - destruct (decide (old !! k = Some v)) as [Hold|Hne].
    + apply lookup_union_Some_raw. right. split; [|done].
      apply objectDiff_lookup_None. intros v' Hv'. congruence.
    + apply lookup_union_Some_raw. left. by apply objectDiff_lookup.
  - apply lookup_union_r. apply objectDiff_lookup_None. intros v Hv. congruence.
Qed.

(** *** Writing the entries of a diff *)

Lemma overlay_cons k v (l : list (string * jsval)) m :
  overlay ((k, v) :: l) m = overlay l (<[k := v]> m).
Proof. reflexivity. Qed.

Lemma overlay_lookup_ne (l : list (string * jsval)) m k :
  k ∉ l.*1 → overlay l m !! k = m !! k.
Proof.
  revert m. induction l as [|[k' v'] l IH]; intros m Hk; [done|].
  apply not_elem_of_cons in Hk as [Hne Hk].
  rewrite overlay_cons, IH by done. by rewrite lookup_insert_ne.
Qed.

Lemma overlay_lookup (l : list (string * jsval)) m k v :
  NoDup l.*1 → (k, v) ∈ l → overlay l m !! k = Some v.
Proof.
  revert m. induction l as [|[k' v'] l IH]; intros m Hnd Hin.
  { by apply elem_of_nil in Hin. }
  apply NoDup_cons in Hnd as [Hk' Hnd]. rewrite overlay_cons.
  apply elem_of_cons in Hin as [[= -> ->]|Hin].
  - rewrite overlay_lookup_ne by done. by rewrite lookup_insert_eq.
  - by apply IH.
Qed.

Lemma accepted_elem l kv : kv ∈ accepted l → kv.2 ≠ VUndefined ∧ kv ∈ l.
Proof.
  induction l as [|kv' l IH]; simpl; [by intros ?%elem_of_nil|].
  destruct (decide _) as [|Hdef]; [by intros ?%elem_of_nil|].
  intros [->|Hin]%elem_of_cons.
  - split; [done|apply list_elem_of_here].
  - destruct (IH Hin). split; [done|by apply list_elem_of_further].
Qed.

Lemma accepted_all l : Forall (λ kv, kv.2 ≠ VUndefined) l ↔ accepted l = l.
Proof.
  induction l as [|kv l IH]; simpl; [done|].
  rewrite Forall_cons. destruct (decide _) as [Hu|Hdef].
  - split; [by intros [? _]|done].
  - rewrite IH. split; [by intros [_ ->]|]. intros [= Heq]. by rewrite Heq.
Qed.

(** The entries are those accepted followed, unless all were, by one with
    the value [undefined] and the rest. *)
Lemma accepted_split l :
  accepted l = l ∨ ∃ k rest, l = accepted l ++ (k, VUndefined) :: rest.
Proof.
  induction l as [|[k v] l IH]; simpl; [by left|].
  destruct (decide _) as [Hu|Hdef]; simpl in *.
  - right. exists k, l. by subst.
  - destruct IH as [->|(k' & rest & Hl)]; [by left|].
    right. exists k', rest. by rewrite <-Hl.
Qed.

Lemma accepted_sublist l : accepted l `sublist_of` l.
Proof.
  destruct (accepted_split l) as [->|(k & rest & Hl)]; [done|].
  rewrite Hl at 2. by apply sublist_inserts_r.
Qed.

Lemma accepted_NoDup (l : list (string * jsval)) : NoDup l.*1 → NoDup (accepted l).*1.
Proof.
  intros Hnd. eapply sublist_NoDup; [done|]. apply fmap_sublist, accepted_sublist.
Qed.

Lemma applyDiff_spec ep cid entries w :
  applyDiff ep cid entries w
  = (if decide (accepted entries = []) then w
     else withAttrs ep cid
            (overlay (accepted entries) (default ∅ (getClusters w ep !! cid))) w,
     bool_decide (accepted entries = entries)).
Proof.
  revert w. induction entries as [|[k v] entries IH]; intros w.
  { reflexivity. }
  cbn [applyDiff accepted snd]. unfold setAttr.
  destruct (decide (v = VUndefined)) as [Hu|Hdef].
  { by rewrite decide_True, bool_decide_eq_false_2. }
  rewrite IH, (decide_False (P := _ :: _ = [])) by done.
  rewrite getClusters_withAttrs, lookup_insert_eq. cbn [default from_option].
  f_equal.
  - destruct (decide (accepted entries = [])) as [->|Hne]; [done|].
    by rewrite withAttrs_twice.
  - apply bool_decide_ext. split; [by intros ->|by intros [= ->]].
Qed.

Section WithInterfaces.
Context `{ZclId} `{Af} {keyOrder : KeyOrder}.

Lemma entriesOf_elem (m : gmap string jsval) k v : (k, v) ∈ entriesOf m ↔ m !! k = Some v.
Proof. by rewrite (entriesOf_perm m), elem_of_map_to_list. Qed.

Lemma entriesOf_NoDup (m : gmap string jsval) : NoDup (entriesOf m).*1.
Proof. rewrite (entriesOf_perm m). apply NoDup_fst_map_to_list. Qed.

Lemma diffEntries_elem old new k v :
  (k, v) ∈ diffEntries old new ↔ objectDiff old new !! k = Some v.
Proof.
  unfold diffEntries. rewrite list_elem_of_filter, entriesOf_elem, objectDiff_lookup.
  simpl. tauto.
Qed.

Lemma diffEntries_NoDup old new : NoDup (diffEntries old new).*1.
Proof.
  eapply sublist_NoDup; [apply (entriesOf_NoDup new)|].
  apply fmap_sublist, sublist_filter.
Qed.

Lemma diffEntries_nil old new : diffEntries old new = [] ↔ objectDiff old new = ∅.
Proof.
  split.
  - intros Hnil. apply map_eq. intros k. rewrite lookup_empty.
    destruct (objectDiff old new !! k) as [v|] eqn:Hk; [|done].
    apply diffEntries_elem in Hk. rewrite Hnil in Hk. by apply elem_of_nil in Hk.
  - intros He. destruct (diffEntries old new) as [|[k v] l] eqn:Hl; [done|].
    assert (Hin : (k, v) ∈ diffEntries old new) by (rewrite Hl; apply list_elem_of_here).
    apply diffEntries_elem in Hin. by rewrite He, lookup_empty in Hin.
Qed.

(** When no value of the diff is [undefined], every entry is written: the
    diff is merged over the cached attributes. *)
Lemma diffEntries_accepted old new :
  (∀ k, objectDiff old new !! k ≠ Some VUndefined) →
  accepted (diffEntries old new) = diffEntries old new.
Proof.
  intros Hdef. apply accepted_all, Forall_forall. intros [k v] Hin. simpl.
  apply diffEntries_elem in Hin. intros ->. by apply (Hdef k).
Qed.

Lemma overlay_diff old new m :
  (∀ k, k ∈ (diffEntries old new).*1 ∨ m !! k = old !! k) →
  overlay (diffEntries old new) m = objectDiff old new ∪ old.
Proof.
  intros Hm. apply map_eq. intros k.
  destruct (objectDiff old new !! k) as [v|] eqn:Hk.
  - rewrite (overlay_lookup _ _ k v);
      [|apply diffEntries_NoDup|by apply diffEntries_elem].
    symmetry. by apply lookup_union_Some_l.
  - assert (Hnot : k ∉ (diffEntries old new).*1).
    { intros ([k' v] & -> & Hin)%list_elem_of_fmap. simpl in Hk.
      apply diffEntries_elem in Hin. congruence. }
    rewrite overlay_lookup_ne by done. rewrite lookup_union_r by done.
    by destruct (Hm k).
Qed.

Lemma newAttrsOf_snoc cId reported recs rec :
  newAttrsOf cId reported (recs ++ [rec])
  = <[attrKey cId rec :=
        if reported then attrData rec
        else if decide (status rec = Some 0%Z) then attrData rec else VNull]>
      (newAttrsOf cId reported recs).
Proof. unfold newAttrsOf. by rewrite foldl_snoc. Qed.

(** A report files, under each attribute name, the data of the last record
    for that name; the [status] field is not looked at. *)
Lemma newAttrsOf_reported cId recs k :
  newAttrsOf cId true recs !! k = reportedValue cId recs k.
Proof.
  unfold reportedValue.
  induction recs as [|rec recs IH] using rev_ind; [done|].
  rewrite newAttrsOf_snoc, filter_app, filter_cons, filter_nil.
  destruct (decide (attrKey cId rec = k)) as [Hk|Hne].
  - by rewrite Hk, lookup_insert_eq, last_snoc.
  - by rewrite lookup_insert_ne, app_nil_r.
Qed.

(** A read whose records all failed files [null] under the name of every
    record. *)
Lemma newAttrsOf_failed cId recs k v :
  Forall (λ r, status r ≠ Some 0%Z) recs →
  newAttrsOf cId false recs !! k = Some v
  ↔ v = VNull ∧ ∃ r, r ∈ recs ∧ attrKey cId r = k.
Proof.
  induction recs as [|rec recs IH] using rev_ind; intros Hall.
  - unfold newAttrsOf; simpl. rewrite lookup_empty. split; [done|].
    intros [_ (r & Hr & _)]. by apply elem_of_nil in Hr.
  - apply Forall_app in Hall as [Hrecs Hrec]. apply Forall_inv in Hrec.
    rewrite newAttrsOf_snoc. destruct (decide _) as [|_]; [done|].
    destruct (decide (attrKey cId rec = k)) as [Hk|Hne].
    + rewrite Hk, lookup_insert_eq. split.
      * intros [= <-]. split; [done|]. exists rec. split; [|done].
        apply elem_of_app. right. by apply list_elem_of_singleton.
      * by intros [-> _].
    + rewrite lookup_insert_ne by done. rewrite IH by done. split.
      * intros [-> (r & Hr & Hk)]. split; [done|]. exists r. split; [|done].
        apply elem_of_app. by left.
      * intros [-> (r & Hr & Hk)]. split; [done|]. exists r. split; [|done].
        apply elem_of_app in Hr as [|Hr%list_elem_of_singleton]; [done|]. by subst.
Qed.

(** *** One pass *)

(** What the [then] callback of a pass does to the world it finds. *)
Lemma finishPass_cases p fetched w :
  finishPass p fetched w = w
  ∨ ∃ old new,
      fetched = Resolved new
      ∧ pass_clusters p !! clusterKey (pass_cId p) = Some old
      ∧ objectDiff old new ≠ ∅
      ∧ accepted (diffEntries old new) ≠ []
      ∧ let written :=
          withAttrs (pass_ep p) (clusterKey (pass_cId p))
            (overlay (accepted (diffEntries old new))
               (default ∅ (getClusters w (pass_ep p) !! clusterKey (pass_cId p)))) w in
        (accepted (diffEntries old new) = diffEntries old new
         ∧ finishPass p fetched w
           = emit (DevChange (pass_ep p) (clusterKey (pass_cId p)) (objectDiff old new))
               written)
        ∨ (accepted (diffEntries old new) ≠ diffEntries old new
           ∧ finishPass p fetched w = written).
Proof.
  unfold finishPass. destruct fetched as [new|]; [|by left].
  destruct (pass_clusters p !! _) as [old|] eqn:Hold; [|by left].
  cbv zeta. destruct (decide (objectDiff old new = ∅)) as [|Hne]; [by left|].
  rewrite applyDiff_spec.
  destruct (decide (accepted (diffEntries old new) = [])) as [Hnone|Hsome].
  - rewrite Hnone. rewrite bool_decide_eq_false_2; [by left|].
    intros Hnil. symmetry in Hnil. by apply diffEntries_nil in Hnil.
  - right. exists old, new. do 4 (split; [done|]). simpl.
    case_bool_decide; [by left|by right].
Qed.

Lemma finishPass_afLog p fetched w : afLog (finishPass p fetched w) = afLog w.
Proof.
  destruct (finishPass_cases p fetched w)
    as [->|(old & new & _ & _ & _ & _ & [[_ ->]|[_ ->]])]; done.
Qed.

Lemma finishPass_indLog p fetched w :
  indLog (finishPass p fetched w) = indLog w
  ∨ ∃ old new,
      fetched = Resolved new
      ∧ pass_clusters p !! clusterKey (pass_cId p) = Some old
      ∧ objectDiff old new ≠ ∅
      ∧ (∀ k, objectDiff old new !! k ≠ Some VUndefined)
      ∧ indLog (finishPass p fetched w)
        = indLog w ++ [DevChange (pass_ep p) (clusterKey (pass_cId p)) (objectDiff old new)].
Proof.
  destruct (finishPass_cases p fetched w)
    as [->|(old & new & Hf & Hold & Hne & _ & [[Hall ->]|[_ ->]])]; [by left| |by left].
  right. exists old, new. do 3 (split; [done|]). split; [|done].
  intros k Hk. apply accepted_all in Hall. rewrite Forall_forall in Hall.
  apply diffEntries_elem in Hk. by apply Hall in Hk.
Qed.

Lemma finishPass_frame p fetched w ep' cid' :
  (ep', cid') ≠ (pass_ep p, clusterKey (pass_cId p)) →
  getClusters (finishPass p fetched w) ep' !! cid' = getClusters w ep' !! cid'.
Proof.
  intros Hother.
  destruct (finishPass_cases p fetched w)
    as [->|(old & new & _ & _ & _ & _ & [[_ ->]|[_ ->]])]; [done| |].
  - change (getClusters (emit ?e ?w0) ep') with (getClusters w0 ep').
    by apply getClusters_withAttrs_other.
  - by apply getClusters_withAttrs_other.
Qed.

Lemma fetch_records ep cId recs reported w w' :
  fetch (startPass ep cId (Some recs) reported w) w'
  = (Resolved (newAttrsOf cId reported recs), w').
Proof. reflexivity. Qed.

Lemma fetch_query ep cId reported w w' :
  fetch (startPass ep cId None reported w) w'
  = (af_zclClusterAttrsReq ep cId, send (ZclClusterAttrsReq ep cId) w').
Proof. reflexivity. Qed.

Lemma fetch_tables p w : tables (fetch p w).2 = tables w.
Proof. unfold fetch. by destruct (pass_attrs p). Qed.

Lemma fetch_indLog p w : indLog (fetch p w).2 = indLog w.
Proof. unfold fetch. by destruct (pass_attrs p). Qed.

Lemma updateFinalizer_unfold ep cId attrs reported w :
  _updateFinalizer ep cId attrs reported w
  = finishPass (startPass ep cId attrs reported w)
      (fetch (startPass ep cId attrs reported w) w).1
      (fetch (startPass ep cId attrs reported w) w).2.
Proof. unfold _updateFinalizer. by destruct (fetch _ w). Qed.

Lemma cache_tables w w' ep cId : tables w = tables w' → cache w ep cId = cache w' ep cId.
Proof. unfold cache, getClusters. by intros ->. Qed.

Lemma cache_send r w ep cId : cache (send r w) ep cId = cache w ep cId.
Proof. reflexivity. Qed.

Lemma cache_emit e w ep cId : cache (emit e w) ep cId = cache w ep cId.
Proof. reflexivity. Qed.

Lemma cache_withAttrs ep cId attrs w :
  cache (withAttrs ep (clusterKey cId) attrs w) ep cId = Some attrs.
Proof. unfold cache. by rewrite getClusters_withAttrs, lookup_insert_eq. Qed.

(** A pass run on its own, when the cluster is in the table and the new
    snapshot has come: the entries of the diff are written up to the first
    [undefined], and the [devChange] is emitted when all were. *)
Lemma pass_alone ep cId attrs reported w old new :
  (fetch (startPass ep cId attrs reported w) w).1 = Resolved new →
  cache w ep cId = Some old →
  let w1 := (fetch (startPass ep cId attrs reported w) w).2 in
  let written := accepted (diffEntries old new) in
  _updateFinalizer ep cId attrs reported w
  = if decide (written = []) then w1
    else if decide (written = diffEntries old new)
         then emit (DevChange ep (clusterKey cId) (objectDiff old new))
                (withAttrs ep (clusterKey cId) (overlay written old) w1)
         else withAttrs ep (clusterKey cId) (overlay written old) w1.
Proof.
  intros Hnew Hold. cbv zeta. rewrite updateFinalizer_unfold, Hnew.
  set (p := startPass ep cId attrs reported w).
  assert (Hlive : getClusters (fetch p w).2 ep !! clusterKey cId = Some old).
  { unfold getClusters. rewrite fetch_tables. exact Hold. }
  unfold finishPass. simpl. fold (cache w ep cId). rewrite Hold.
  destruct (decide (objectDiff old new = ∅)) as [He|Hne].
  { apply diffEntries_nil in He. by rewrite He. }
  rewrite applyDiff_spec, Hlive. cbn [default from_option].
  destruct (decide (accepted (diffEntries old new) = [])) as [Hnone|Hsome].
  - rewrite Hnone. rewrite bool_decide_eq_false_2; [done|].
    intros Hnil. symmetry in Hnil. by apply diffEntries_nil in Hnil.
  - case_bool_decide; by rewrite ?decide_True, ?decide_False by done.
Qed.

(** The same when no value of the diff is [undefined]: the diff is merged
    over the cached attributes and the [devChange] is emitted. *)
Lemma pass_alone_defined ep cId attrs reported w old new :
  (fetch (startPass ep cId attrs reported w) w).1 = Resolved new →
  cache w ep cId = Some old →
  (∀ k, objectDiff old new !! k ≠ Some VUndefined) →
  let w1 := (fetch (startPass ep cId attrs reported w) w).2 in
  _updateFinalizer ep cId attrs reported w
  = if decide (objectDiff old new = ∅) then w1
    else emit (DevChange ep (clusterKey cId) (objectDiff old new))
           (withAttrs ep (clusterKey cId) (objectDiff old new ∪ old) w1).
Proof.
  intros Hnew Hold Hdef. cbv zeta.
  rewrite (pass_alone ep cId attrs reported w old new) by done. cbv zeta.
  rewrite diffEntries_accepted by done.
  destruct (decide (objectDiff old new = ∅)) as [He|Hne].
  - rewrite decide_True; [done|]. by apply diffEntries_nil.
  - rewrite decide_False by (by rewrite diffEntries_nil).
    rewrite decide_True by done. rewrite overlay_diff; [done|]. by right.
Qed.

Lemma pass_alone_no_cluster ep cId attrs reported w :
  cache w ep cId = None →
  _updateFinalizer ep cId attrs reported w
  = (fetch (startPass ep cId attrs reported w) w).2.
Proof.
  intros Hno. rewrite updateFinalizer_unfold. unfold finishPass. simpl.
  fold (cache w ep cId). rewrite Hno. by destruct (fetch _ w).1.
Qed.

Lemma pass_alone_rejected ep cId attrs reported w e :
  (fetch (startPass ep cId attrs reported w) w).1 = Rejected e →
  _updateFinalizer ep cId attrs reported w
  = (fetch (startPass ep cId attrs reported w) w).2.
Proof. intros Hrej. rewrite updateFinalizer_unfold, Hrej. done. Qed.

(** The cache of the cluster after a pass run on its own. *)
Lemma pass_alone_cache ep cId attrs reported w old new :
  (fetch (startPass ep cId attrs reported w) w).1 = Resolved new →
  cache w ep cId = Some old →
  cache (_updateFinalizer ep cId attrs reported w) ep cId
  = Some (overlay (accepted (diffEntries old new)) old).
Proof.
  intros Hnew Hold. rewrite (pass_alone ep cId attrs reported w old new) by done.
  cbv zeta.
  assert (Hw1 : cache (fetch (startPass ep cId attrs reported w) w).2 ep cId = Some old).
  { rewrite <-Hold. apply cache_tables, fetch_tables. }
  destruct (decide (accepted (diffEntries old new) = [])) as [->|Hsome]; [done|].
  destruct (decide _); by rewrite ?cache_emit, cache_withAttrs.
Qed.

Lemma updateFinalizer_afLog_records ep cId recs reported w :
  afLog (_updateFinalizer ep cId (Some recs) reported w) = afLog w.
Proof. rewrite updateFinalizer_unfold, finishPass_afLog. done. Qed.

Lemma updateFinalizer_afLog_query ep cId reported w :
  afLog (_updateFinalizer ep cId None reported w) = afLog w ++ [ZclClusterAttrsReq ep cId].
Proof. rewrite updateFinalizer_unfold, finishPass_afLog. done. Qed.

(** A pass leaves every other cluster and every other endpoint alone. *)
Lemma pass_frame ep cId attrs reported w ep' cid' :
  (ep', cid') ≠ (ep, clusterKey cId) →
  getClusters (_updateFinalizer ep cId attrs reported w) ep' !! cid'
  = getClusters w ep' !! cid'.
Proof.
  intros Hother. rewrite updateFinalizer_unfold, finishPass_frame by done.
  unfold getClusters. by rewrite fetch_tables.
Qed.

(** *** [_foundation] and [ep.read] *)

(** The promise of [_foundation] mirrors the answer of the AF layer. *)
Lemma foundation_result srcEp dstEp cId cmd data w :
  (_foundation srcEp dstEp cId cmd data w).1
  = andThen (af_zclFoundation srcEp dstEp cId cmd data) (λ msg, Resolved (payload msg)).
Proof. unfold _foundation. by destruct (af_zclFoundation _ _ _ _ _). Qed.

Lemma foundation_sends srcEp dstEp cId cmd data w :
  ∃ more, afLog (_foundation srcEp dstEp cId cmd data w).2
          = afLog w ++ ZclFoundation srcEp dstEp cId cmd data :: more.
Proof.
  unfold _foundation. destruct (af_zclFoundation _ _ _ _ _) as [msg|e]; simpl.
  - repeat case_decide.
    + rewrite updateFinalizer_afLog_records. by exists [].
    + rewrite updateFinalizer_afLog_query. simpl. rewrite <-app_assoc. by eexists.
    + by exists [].
  - by exists [].
Qed.

Lemma foundation_read_world srcEp dstEp cId data w msg :
  readIsRead →
  af_zclFoundation srcEp dstEp cId (Name "read") data = Resolved msg →
  (_foundation srcEp dstEp cId (Name "read") data w).2
  = _updateFinalizer dstEp cId (Some (payload msg)) false
      (send (ZclFoundation srcEp dstEp cId (Name "read") data) w).
Proof.
  intros Hread Haf. unfold _foundation. rewrite Haf. simpl.
  destruct (zclId_foundation (Name "read")) as [it|] eqn:Hit.
  - rewrite (Hread it Hit). by rewrite decide_True.
  - by rewrite decide_True.
Qed.

Lemma read_result ep cId attrId w :
  (read ep cId attrId w).1
  = andThen (af_zclFoundation ep ep cId (Name "read") (ReadData [attrIdValue cId attrId]))
      (λ msg,
         match payload msg with
         | [] => Rejected (TypeError "Cannot read properties of undefined (reading 'status')")
         | rec :: _ =>
             if decide (status rec = Some 0%Z) then Resolved (attrData rec)
             else Rejected (Error ("request unsuccess: " +:+ showField (status rec)))
         end).
Proof.
  unfold read.
  pose proof (foundation_result ep ep cId (Name "read") (ReadData [attrIdValue cId attrId]) w)
    as Hres.
  destruct (_foundation _ _ _ _ _ _) as [rsp w']. simpl in *. subst rsp.
  by destruct (af_zclFoundation _ _ _ _ _).
Qed.

Lemma read_world ep cId attrId w :
  (read ep cId attrId w).2
  = (_foundation ep ep cId (Name "read") (ReadData [attrIdValue cId attrId]) w).2.
Proof. unfold read. by destruct (_foundation _ _ _ _ _ _). Qed.

(** C1.  [ep.read(cId, attrId)] hands the AF layer the foundation command
    [read] with the single record [{ attrId }] (the catalog's number of the
    attribute when it has one).  When the first record of the response has
    status 0 the call resolves with that record's [attrData]; otherwise it
    rejects with the error ['request unsuccess: ' + status]. *)
Theorem read_first_record ep cId attrId w :
  (∃ more, afLog (read ep cId attrId w).2
           = afLog w
             ++ ZclFoundation ep ep cId (Name "read") (ReadData [attrIdValue cId attrId])
             :: more)
  ∧ ∀ msg rec rest,
      af_zclFoundation ep ep cId (Name "read") (ReadData [attrIdValue cId attrId])
      = Resolved msg →
      payload msg = rec :: rest →
      (status rec = Some 0%Z → (read ep cId attrId w).1 = Resolved (attrData rec))
      ∧ (status rec ≠ Some 0%Z →
         (read ep cId attrId w).1
         = Rejected (Error ("request unsuccess: " +:+ showField (status rec)))).
Proof.
  split.
  { rewrite read_world. apply foundation_sends. }
  intros msg rec rest Haf Hpayload. split.
  - intros Hst. rewrite read_result, Haf. simpl. rewrite Hpayload. by rewrite decide_True.
  - intros Hst. rewrite read_result, Haf. simpl. rewrite Hpayload. by rewrite decide_False.
Qed.

Lemma snoc_neq {A} (l : list A) (x : A) : l ++ [x] ≠ l.
Proof.
  intros Heq. apply (f_equal length) in Heq. rewrite length_app in Heq. simpl in Heq. lia.
Qed.

(** What a pass run on its own does with the records of a response or of
    a report when the cluster is in the endpoint's table and no value to
    be written is [undefined]. *)
Lemma updateFinalizer_records ep cId recs reported w old :
  cache w ep cId = Some old →
  (∀ k, objectDiff old (newAttrsOf cId reported recs) !! k ≠ Some VUndefined) →
  _updateFinalizer ep cId (Some recs) reported w
  = let diff := objectDiff old (newAttrsOf cId reported recs) in
    if decide (diff = ∅) then w
    else emit (DevChange ep (clusterKey cId) diff)
           (withAttrs ep (clusterKey cId) (diff ∪ old) w).
Proof.
  intros Hold Hdef.
  by rewrite (pass_alone_defined ep cId (Some recs) reported w old
                (newAttrsOf cId reported recs)).
Qed.

Lemma updateFinalizer_no_cluster ep cId recs reported w :
  cache w ep cId = None →
  _updateFinalizer ep cId (Some recs) reported w = w.
Proof. intros Hno. by rewrite pass_alone_no_cluster. Qed.

(** The cache after the records have been processed: the diff merged over
    what was cached. *)
Lemma updateFinalizer_records_cache ep cId recs reported w old :
  cache w ep cId = Some old →
  (∀ k, objectDiff old (newAttrsOf cId reported recs) !! k ≠ Some VUndefined) →
  cache (_updateFinalizer ep cId (Some recs) reported w) ep cId
  = Some (objectDiff old (newAttrsOf cId reported recs) ∪ old).
Proof.
  intros Hold Hdef. rewrite (updateFinalizer_records _ _ _ _ _ old) by done. simpl.
  destruct (decide _) as [->|Hne].
  - by rewrite (left_id ∅ (∪)).
  - by rewrite cache_emit, cache_withAttrs.
Qed.

(** C2, amended.  When every record of the response to a read has a
    non-zero status (and there is a first one), [ep.read] rejects with
    ['request unsuccess: ' + status] of the first record.  With the pass
    that the read starts run on its own: when the cluster is in the
    endpoint's table, [null] is cached for every attribute of the response
    and the other attributes stay as they were; when it is not, nothing is
    cached.  No [devChange] is emitted exactly when the endpoint has no
    cache for the cluster or already caches [null] for each of those
    attributes; otherwise one [devChange] is emitted, and its diff maps
    attributes of the response to [null]. *)
Theorem read_failure ep cId attrId w msg rec rest :
  readIsRead →
  af_zclFoundation ep ep cId (Name "read") (ReadData [attrIdValue cId attrId])
  = Resolved msg →
  payload msg = rec :: rest →
  Forall (λ r, status r ≠ Some 0%Z) (payload msg) →
  (read ep cId attrId w).1
  = Rejected (Error ("request unsuccess: " +:+ showField (status rec)))
  ∧ match cache w ep cId with
    | None => tables (read ep cId attrId w).2 = tables w
    | Some old =>
        ∃ new,
          cache (read ep cId attrId w).2 ep cId = Some new
          ∧ (∀ r, r ∈ payload msg → new !! attrKey cId r = Some VNull)
          ∧ (∀ k, (∀ r, r ∈ payload msg → attrKey cId r ≠ k) → new !! k = old !! k)
    end
  ∧ (indLog (read ep cId attrId w).2 = indLog w
     ↔ match cache w ep cId with
       | None => True
       | Some old => ∀ r, r ∈ payload msg → old !! attrKey cId r = Some VNull
       end)
  ∧ (indLog (read ep cId attrId w).2 = indLog w
     ∨ ∃ diff,
         indLog (read ep cId attrId w).2
         = indLog w ++ [DevChange ep (clusterKey cId) diff]
         ∧ ∀ k v, diff !! k = Some v →
                  v = VNull ∧ ∃ r, r ∈ payload msg ∧ attrKey cId r = k).
Proof.
  intros Hread Haf Hpayload Hall.
  split.
  { rewrite read_result, Haf. simpl. rewrite Hpayload.
    rewrite Hpayload in Hall. apply Forall_inv in Hall. by rewrite decide_False. }
  rewrite read_world, (foundation_read_world _ _ _ _ _ msg) by done.
  set (w1 := send _ w).
  assert (Hc : cache w1 ep cId = cache w ep cId) by apply cache_send.
  destruct (cache w ep cId) as [old|] eqn:Hold.
  - assert (Hdef : ∀ k, objectDiff old (newAttrsOf cId false (payload msg)) !! k
                        ≠ Some VUndefined).
    { intros k [Hk _]%objectDiff_lookup. by apply newAttrsOf_failed in Hk as [? _]. }
    rewrite (updateFinalizer_records _ _ _ _ _ old) by done. simpl.
    assert (Hempty : objectDiff old (newAttrsOf cId false (payload msg)) = ∅
                     ↔ ∀ r, r ∈ payload msg → old !! attrKey cId r = Some VNull).
    { rewrite objectDiff_empty. split.
      - intros Hsame r Hr. apply Hsame. apply newAttrsOf_failed; [done|]. eauto.
      - intros Hnull k v Hk. apply newAttrsOf_failed in Hk as [-> (r & Hr & <-)]; auto. }
    assert (Hmerged : ∀ k, (objectDiff old (newAttrsOf cId false (payload msg)) ∪ old) !! k
                           = match newAttrsOf cId false (payload msg) !! k with
                             | Some v => Some v
                             | None => old !! k
                             end) by (intros k; apply merged_lookup).
    assert (Hnulls : ∀ r, r ∈ payload msg →
                       newAttrsOf cId false (payload msg) !! attrKey cId r = Some VNull).
    { intros r Hr. apply newAttrsOf_failed; [done|]. eauto. }
    assert (Hothers : ∀ k, (∀ r, r ∈ payload msg → attrKey cId r ≠ k) →
                        newAttrsOf cId false (payload msg) !! k = None).
    { intros k Hk. destruct (newAttrsOf _ _ _ !! k) as [v|] eqn:Hv; [|done].
      apply newAttrsOf_failed in Hv as [_ (r & Hr & Heq)]; [|done]. by apply Hk in Hr. }
    destruct (decide _) as [He|Hne]; simpl.
    + split.
      { exists old. split; [done|]. split.
        - intros r Hr. by apply Hempty.
        - done. }
      split; [|by left]. split; [|done]. intros _. by apply Hempty.
    + split.
      { eexists. split; [by rewrite cache_emit, cache_withAttrs|]. split.
        - intros r Hr. by rewrite Hmerged, Hnulls.
        - intros k Hk. by rewrite Hmerged, Hothers. }
      split.
      * split; [intros Heq; by apply snoc_neq in Heq|].
        intros Hnull. by apply Hempty in Hnull.
      * right. eexists. split; [done|].
        intros k v [Hk _]%objectDiff_lookup. by apply newAttrsOf_failed in Hk.
  - rewrite updateFinalizer_no_cluster by done. simpl. split; [done|]. split; [done|by left].
Qed.

Lemma on_ind_reported_pass ep cId attrs w :
  on_ind_reported ep cId attrs w
  = _updateFinalizer ep cId (Some attrs) true
      (emit (AttReport ep (clusterKey cId) (reportData cId attrs)) w).
Proof. reflexivity. Qed.

Lemma reportedValue_elem cId attrs k v :
  reportedValue cId attrs k = Some v → ∃ rec, rec ∈ attrs ∧ attrData rec = v.
Proof.
  unfold reportedValue. intros Hlast.
  destruct (last _) as [rec|] eqn:Hrec; [|done]. injection Hlast as <-.
  exists rec. split; [|done].
  apply last_Some in Hrec as [l Hl].
  assert (Hin : rec ∈ filter (λ r, attrKey cId r = k) attrs).
  { rewrite Hl. apply elem_of_app. right. by apply list_elem_of_singleton. }
  by apply list_elem_of_filter in Hin as [_ Hin].
Qed.

(** C6, amended.  An attribute report whose records all carry a value, for
    a cluster that is in the endpoint's table, with the pass it starts run
    on its own: the reporter's values are written into the cache whatever
    the records' [status] fields hold.  Afterwards every attribute of the
    report is cached with its reported value, its cache entry has changed
    if and only if that value differs from what was cached before, and the
    attributes the report does not mention are as before.  For a cluster
    that is not in the endpoint's table nothing is cached. *)
Theorem report_updates_cache ep cId attrs w :
  Forall (λ rec, attrData rec ≠ VUndefined) attrs →
  match cache w ep cId with
  | None => tables (on_ind_reported ep cId attrs w) = tables w
  | Some old =>
      ∃ new,
        cache (on_ind_reported ep cId attrs w) ep cId = Some new
        ∧ (∀ k v, reportedValue cId attrs k = Some v →
                  new !! k = Some v ∧ (new !! k ≠ old !! k ↔ old !! k ≠ Some v))
        ∧ (∀ k, reportedValue cId attrs k = None → new !! k = old !! k)
        ∧ (∀ before rec after,
             attrs = before ++ rec :: after →
             Forall (λ later, attrKey cId later ≠ attrKey cId rec) after →
             new !! attrKey cId rec = Some (attrData rec))
  end.
Proof.
  intros Hvalues. rewrite on_ind_reported_pass.
  set (w1 := emit _ w).
  destruct (cache w ep cId) as [old|] eqn:Hold.
  2:{ rewrite updateFinalizer_no_cluster; [done|exact Hold]. }
  assert (Hdef : ∀ k, objectDiff old (newAttrsOf cId true attrs) !! k ≠ Some VUndefined).
  { intros k [Hk _]%objectDiff_lookup. rewrite newAttrsOf_reported in Hk.
    apply reportedValue_elem in Hk as (rec & Hin & Hrec).
    rewrite Forall_forall in Hvalues. by apply (Hvalues rec Hin). }
  eexists. split.
  { apply updateFinalizer_records_cache; [exact Hold|done]. }
  assert (Hnew : ∀ k, (objectDiff old (newAttrsOf cId true attrs) ∪ old) !! k
                      = match reportedValue cId attrs k with
                        | Some v => Some v
                        | None => old !! k
                        end).
  { intros k. by rewrite merged_lookup, newAttrsOf_reported. }
  split; [|split].
  - intros k v Hv. rewrite Hnew, Hv. split; [done|]. split; congruence.
  - intros k Hk. by rewrite Hnew, Hk.
  - intros before rec after -> Hafter. rewrite Hnew.
    unfold reportedValue. rewrite filter_app, filter_cons_True by done.
    assert (filter (λ r, attrKey cId r = attrKey cId rec) after = []) as ->.
    { clear Hnew Hvalues Hdef. induction Hafter as [|r l Hr _ IH]; [done|].
      by rewrite filter_cons_False. }
    by rewrite last_snoc.
Qed.


End WithInterfaces.

(** C1 at work: the hardware version read from an endpoint with an empty
    [genBasic] cache. *)
Lemma read_first_record_witness :
  (read (H := Demo.catalog) (H0 := Demo.answering [Demo.hwVersionOk])
     (keyOrder := Demo.order) 1 (Name "genBasic") (Name "hwVersion") (Demo.cached ∅)).1
  = Resolved (VNum 2400).
Proof.
  refine (proj1 (proj2 (read_first_record (H := Demo.catalog)
                          (H0 := Demo.answering [Demo.hwVersionOk])
                          (keyOrder := Demo.order)
                          1 (Name "genBasic") (Name "hwVersion") (Demo.cached ∅))
                   (AfMsg [Demo.hwVersionOk]) Demo.hwVersionOk [] _ _) _);
    reflexivity.
Defined.

Lemma demo_readIsRead : readIsRead (H := Demo.catalog).
Proof. intros it. vm_compute. by intros [= <-]. Defined.

(** The claim of C2 as it stands fails: the refused read of an attribute
    whose cached value is 2400 (or that is not cached yet) rejects with
    status 134 and still emits a [devChange], carrying [null]. *)
Lemma read_failure_emits_devChange :
  let refused := Demo.answering [Demo.hwVersionRefused] in
  let known := Demo.cached {[ "hwVersion" := VNum 2400 ]} in
  let fresh := Demo.cached ∅ in
  Forall (λ r, status r ≠ Some 0%Z) [Demo.hwVersionRefused]
  ∧ (read (H := Demo.catalog) (H0 := refused) (keyOrder := Demo.order)
       1 (Name "genBasic") (Name "hwVersion") known).1
    = Rejected (Error "request unsuccess: 134")
  ∧ indLog known = []
  ∧ indLog (read (H := Demo.catalog) (H0 := refused) (keyOrder := Demo.order)
              1 (Name "genBasic") (Name "hwVersion") known).2
    = [DevChange 1 "genBasic" {[ "hwVersion" := VNull ]}]
  ∧ indLog fresh = []
  ∧ indLog (read (H := Demo.catalog) (H0 := refused) (keyOrder := Demo.order)
              1 (Name "genBasic") (Name "hwVersion") fresh).2
    = [DevChange 1 "genBasic" {[ "hwVersion" := VNull ]}].
Proof.
  repeat split; try (vm_compute; reflexivity).
  repeat constructor. by vm_compute.
Qed.

(** C2 as amended, at work: the same refused read when [null] is already
    cached rejects, leaves [null] cached and emits nothing. *)
Lemma read_failure_witness :
  let w := Demo.cached {[ "hwVersion" := VNull ]} in
  let out := read (H := Demo.catalog) (H0 := Demo.answering [Demo.hwVersionRefused])
               (keyOrder := Demo.order) 1 (Name "genBasic") (Name "hwVersion") w in
  out.1 = Rejected (Error "request unsuccess: 134") ∧ indLog out.2 = indLog w.
Proof.
  intros w out.
  destruct (read_failure (H := Demo.catalog)
              (H0 := Demo.answering [Demo.hwVersionRefused]) (keyOrder := Demo.order)
              1 (Name "genBasic") (Name "hwVersion") w
              (AfMsg [Demo.hwVersionRefused]) Demo.hwVersionRefused [])
    as (Hres & _ & Hquiet & _).
  - exact demo_readIsRead.
  - reflexivity.
  - reflexivity.
  - repeat constructor. by vm_compute.
  - split; [exact Hres|]. apply Hquiet. vm_compute.
    intros r Hr. apply list_elem_of_singleton in Hr. subst r. reflexivity.
Defined.

(** The claim of C6 as it stands fails.  A report from an endpoint whose
    table has no entry for the cluster is not written anywhere; and a
    record without [attrData] reports a value, [undefined], that differs
    from the cached 2400 and leaves the cache entry as it is. *)
Lemma report_for_missing_cluster_is_dropped :
  let w := Demo.cached {[ "hwVersion" := VNum 2400 ]} in
  let elsewhere :=
    on_ind_reported (H := Demo.catalog) (H0 := Demo.answering []) (keyOrder := Demo.order)
      2 (Name "genBasic") [AttrRec 3 None (Some 33%Z) (VNum 2401)] w in
  let valueless :=
    on_ind_reported (H := Demo.catalog) (H0 := Demo.answering []) (keyOrder := Demo.order)
      1 (Name "genBasic") [AttrRec 3 None None VUndefined] w in
  cache (H := Demo.catalog) w 2 (Name "genBasic") = None
  ∧ tables elsewhere = tables w
  ∧ cache (H := Demo.catalog) elsewhere 2 (Name "genBasic") = None
  ∧ reportedValue (H := Demo.catalog) (Name "genBasic")
      [AttrRec 3 None None VUndefined] "hwVersion" = Some VUndefined
  ∧ cache (H := Demo.catalog) valueless 1 (Name "genBasic")
    = Some {[ "hwVersion" := VNum 2400 ]}.
Proof. repeat split; vm_compute; reflexivity. Qed.

(** C6 as amended, at work: a report of the hardware version over a cached
    2400. *)
Lemma report_updates_cache_witness :
  ∃ new,
    cache (H := Demo.catalog)
      (on_ind_reported (H := Demo.catalog) (H0 := Demo.answering [])
         (keyOrder := Demo.order)
         1 (Name "genBasic") [AttrRec 3 None (Some 33%Z) (VNum 2401)]
         (Demo.cached {[ "hwVersion" := VNum 2400 ]}))
      1 (Name "genBasic") = Some new
    ∧ new !! "hwVersion" = Some (VNum 2401).
Proof.
  destruct (report_updates_cache (H := Demo.catalog) (H0 := Demo.answering [])
              (keyOrder := Demo.order)
              1 (Name "genBasic") [AttrRec 3 None (Some 33%Z) (VNum 2401)]
              (Demo.cached {[ "hwVersion" := VNum 2400 ]}))
    as (new & Hcache & Hwritten & _).
  - repeat constructor. intros Heq. discriminate Heq.
  - exists new. split; [exact Hcache|].
    apply (Hwritten "hwVersion" (VNum 2401)). reflexivity.
Defined.



End RouterFacts.

(** ** The mount serializer *)

Module MountFacts.
Import Mount.

Lemma mathMax_spec l :
  match mathMax l with
  | Some m => isMax m l
  | None => l = []
  end.
Proof.
  induction l as [|x l IH]; [done|]. simpl.
  destruct (mathMax l) as [m|].
  - destruct IH as [Hin Hle]. split.
    + destruct (Z.max_spec x m) as [[_ ->]|[_ ->]];
        [by apply list_elem_of_further|apply list_elem_of_here].
    + intros y [->|Hy]%elem_of_cons; [lia|]. specialize (Hle y Hy). lia.
  - subst l. split; [apply list_elem_of_here|].
    by intros y ->%list_elem_of_singleton.
Qed.

Lemma freshEpId_spec l :
  (∃ m, isMax m l ∧ (10 < m)%Z ∧ freshEpId l = (m + 1)%Z)
  ∨ ((∀ x, x ∈ l → (x ≤ 10)%Z) ∧ freshEpId l = 11%Z).
Proof.
  unfold freshEpId. pose proof (mathMax_spec l) as Hmax.
  destruct (mathMax l) as [m|].
  - destruct (decide (10 < m)%Z) as [Hgt|Hle].
    + left. by exists m.
    + right. split; [|done]. intros x Hx. destruct Hmax as [_ Hmax].
      specialize (Hmax x Hx). lia.
  - right. subst l. split; [|done]. by intros x Hx%elem_of_nil.
Qed.

Lemma chain_keeps ans zApp zApps c a :
  a ∈ zApps → a ∈ (chain ans zApp zApps c).1.2.
Proof.
  intros Ha. unfold chain, firstCallback. destruct (decide _); [done|].
  assert (a ∈ zApps ++ [zApp]) by (apply elem_of_app; by left).
  by destruct (laterCallbacks ans zApp c).
Qed.

Lemma mount_zApp zApp d requeued s : _zApp (mount zApp d requeued s) = _zApp s.
Proof. unfold mount. by destruct (_mounting s). Qed.

Lemma finish_zApp result zApps c s :
  inFlight s ≠ [] → _zApp (finish result zApps c s) = zApps.
Proof. unfold finish. by destruct (inFlight s) as [|[zApp d] rest]. Qed.

Lemma begin_keeps s a : a ∈ _zApp s → a ∈ _zApp (begin s).
Proof.
  intros Ha. unfold begin. destruct (inFlight s) as [|[zApp d] rest] eqn:Hfl; [done|].
  destruct (begun s); [done|]. unfold firstCallback.
  destruct (decide _).
  - by rewrite finish_zApp by (by rewrite Hfl).
  - simpl. apply elem_of_app. by left.
Qed.

Lemma complete_keeps ans s a : a ∈ _zApp s → a ∈ _zApp (complete ans s).
Proof.
  intros Ha. unfold complete. destruct (inFlight s) as [|[zApp d] rest] eqn:Hfl; [done|].
  destruct (begun s).
  - destruct (laterCallbacks _ _ _) as [r c]. by rewrite finish_zApp by (by rewrite Hfl).
  - pose proof (chain_keeps ans zApp (_zApp s) (coord s) a Ha) as Hkeep.
    destruct (chain _ _ _ _) as [[r zs] c]. by rewrite finish_zApp by (by rewrite Hfl).
Qed.

Lemma step_keeps s ev a :
  ¬ clears ev → a ∈ _zApp s → a ∈ _zApp (step s ev).
Proof.
  intros Hev Ha. destruct ev as [zApp| |ans| |closed]; simpl.
  - by rewrite mount_zApp.
  - by apply begin_keeps.
  - by apply complete_keeps.
  - unfold drain. destruct (nextTicks s); [done|].
    destruct (_mountQueue s) as [|[zApp d] q]; [done|]. by rewrite mount_zApp.
  - destruct closed as [u|e]; [|done]. exfalso. apply Hev. by exists u.
Qed.

Lemma run_keeps evs s a :
  Forall (λ ev, ¬ clears ev) evs → a ∈ _zApp s → a ∈ _zApp (run s evs).
Proof.
  revert s. induction evs as [|ev evs IH]; intros s Hall Ha; [done|].
  apply Forall_cons in Hall as [Hev Hall]. simpl. apply IH; [done|].
  by apply step_keeps.
Qed.

(** An application that is listed stays listed, and the chain whose first
    callback has run with success is not a chain for it. *)
Lemma step_listed s ev a :
  ¬ clears ev →
  a ∈ _zApp s ∧ (begun s = true → ∃ z d r, inFlight s = (z, d) :: r ∧ z ≠ a) →
  a ∈ _zApp (step s ev)
  ∧ (begun (step s ev) = true → ∃ z d r, inFlight (step s ev) = (z, d) :: r ∧ z ≠ a).
Proof.
  intros Hev [Ha Hhead]. split; [by apply step_keeps|].
  assert (Hkeep : ∀ s',
             begun s' = begun s →
             (∃ more, inFlight s' = inFlight s ++ more) →
             begun s' = true → ∃ z d r, inFlight s' = (z, d) :: r ∧ z ≠ a).
  { intros s' Hb [more Hfl] Hb'. rewrite Hb in Hb'.
    destruct (Hhead Hb') as (z & d & r & Hs & Hne).
    exists z, d, (r ++ more). by rewrite Hfl, Hs. }
  assert (Hmount : ∀ z d q s0,
             begun s0 = begun s → inFlight s0 = inFlight s →
             begun (mount z d q s0) = true →
             ∃ z' d' r, inFlight (mount z d q s0) = (z', d') :: r ∧ z' ≠ a).
  { intros z d q s0 Hb Hfl. apply Hkeep.
    - unfold mount. by destruct (_mounting s0).
    - unfold mount. destruct (_mounting s0); simpl; rewrite Hfl;
        [exists []; by rewrite app_nil_r|by eexists]. }
  destruct ev as [zApp| |ans| |closed]; simpl.
  - by apply Hmount.
  - unfold begin. destruct (inFlight s) as [|[zApp d] rest] eqn:Hfl.
    { apply Hkeep; [done|]. exists []. by rewrite app_nil_r. }
    destruct (begun s) eqn:Hb.
    { apply Hkeep; [done|]. exists []. by rewrite app_nil_r. }
    unfold firstCallback. destruct (decide _) as [|Hnew].
    + unfold finish. rewrite Hfl. done.
    + simpl. intros _. exists zApp, d, rest. split; [done|]. by intros ->.
  - unfold complete. destruct (inFlight s) as [|[zApp d] rest] eqn:Hfl.
    { apply Hkeep; [done|]. exists []. by rewrite app_nil_r. }
    destruct (begun s).
    + destruct (laterCallbacks _ _ _) as [r c]. unfold finish. rewrite Hfl. done.
    + destruct (chain _ _ _ _) as [[r zs] c]. unfold finish. rewrite Hfl. done.
  - unfold drain. destruct (nextTicks s).
    { apply Hkeep; [done|]. exists []. by rewrite app_nil_r. }
    destruct (_mountQueue s) as [|[zApp d] q].
    + apply Hkeep; [done|]. exists []. by rewrite app_nil_r.
    + by apply Hmount.
  - destruct closed as [u|e].
    + exfalso. apply Hev. by exists u.
    + apply Hkeep; [done|]. exists []. by rewrite app_nil_r.
Qed.

Lemma run_listed evs s a :
  Forall (λ ev, ¬ clears ev) evs →
  a ∈ _zApp s ∧ (begun s = true → ∃ z d r, inFlight s = (z, d) :: r ∧ z ≠ a) →
  a ∈ _zApp (run s evs)
  ∧ (begun (run s evs) = true → ∃ z d r, inFlight (run s evs) = (z, d) :: r ∧ z ≠ a).
Proof.
  revert s. induction evs as [|ev evs IH]; intros s Hall Hs; [done|].
  apply Forall_cons in Hall as [Hev Hall]. simpl. apply IH; [done|].
  by apply step_listed.
Qed.

(** No two chains run at once: a second one starts only after the [done]
    handler of the first has lowered [_mounting]. *)
Lemma one_in_flight c evs :
  let s := run (init c) evs in
  length (inFlight s) ≤ 1 ∧ (_mounting s = false → inFlight s = []).
Proof.
  simpl. generalize (init c), (conj (Nat.le_0_l 1) (λ _, eq_refl) :
    length (inFlight (init c)) ≤ 1 ∧ (_mounting (init c) = false → inFlight (init c) = [])).
  induction evs as [|ev evs IH]; intros s Hs; [done|].
  simpl. apply IH. clear IH.
  assert (Hmount : ∀ zApp d q s0,
             length (inFlight s0) ≤ 1 ∧ (_mounting s0 = false → inFlight s0 = []) →
             length (inFlight (mount zApp d q s0)) ≤ 1
             ∧ (_mounting (mount zApp d q s0) = false → inFlight (mount zApp d q s0) = [])).
  { intros zApp d q s0 [Hlen Hidle]. unfold mount.
    destruct (_mounting s0) eqn:Hm; simpl; [by split|].
    rewrite Hidle by done. split; [simpl; lia|done]. }
  assert (Hfinish : ∀ r zs c', length (inFlight (finish r zs c' s)) ≤ 1
                              ∧ (_mounting (finish r zs c' s) = false
                                 → inFlight (finish r zs c' s) = [])).
  { intros r zs c'. destruct Hs as [Hlen Hidle]. unfold finish.
    destruct (inFlight s) as [|[zApp d] rest] eqn:Hfl; [by rewrite Hfl|]. simpl in *.
    destruct rest; [split; [simpl; lia|done]|simpl in Hlen; lia]. }
  destruct Hs as [Hlen Hidle].
  destruct ev as [zApp| |ans| |closed]; simpl.
  - by apply Hmount.
  - unfold begin. destruct (inFlight s) as [|[zApp d] rest] eqn:Hfl;
      [rewrite ?Hfl; by split|].
    destruct (begun s); [rewrite ?Hfl; by split|]. unfold firstCallback.
    destruct (decide _); [apply Hfinish|]. simpl. rewrite ?Hfl. by split.
  - unfold complete. destruct (inFlight s) as [|[zApp d] rest] eqn:Hfl;
      [rewrite ?Hfl; by split|].
    destruct (begun s).
    + destruct (laterCallbacks _ _ _) as [r c']. apply Hfinish.
    + destruct (chain _ _ _ _) as [[r zs] c']. apply Hfinish.
  - unfold drain. destruct (nextTicks s); [done|].
    destruct (_mountQueue s) as [|[zApp d] q]; [done|]. by apply Hmount.
  - by destruct closed.
Qed.

(** Whatever the outcome of a chain, its end settles the chain's own
    deferred and nothing else, lowers [_mounting], leaves the queue as it
    is and, when calls are queued, schedules one drain. *)
Lemma complete_isolated ans s zApp deferred rest :
  inFlight s = (zApp, deferred) :: rest →
  let s' := complete ans s in
  (∃ result, settledLog s' = settledLog s ++ [(deferred, result)])
  ∧ _mounting s' = false
  ∧ _mountQueue s' = _mountQueue s
  ∧ nextTicks s' = (if decide (_mountQueue s = []) then nextTicks s else S (nextTicks s)).
Proof.
  intros Hfl. simpl. unfold complete. rewrite Hfl.
  destruct (begun s).
  - destruct (laterCallbacks _ _ _) as [result c]. unfold finish. rewrite Hfl. simpl.
    by eauto.
  - destruct (chain _ _ _ _) as [[result zApps] c]. unfold finish. rewrite Hfl. simpl.
    by eauto.
Qed.

(** A drain, when no mount has started since the chain ended, starts the
    call at the head of the queue. *)
Lemma drain_starts_head s n zApp deferred queue :
  nextTicks s = S n →
  _mounting s = false →
  _mountQueue s = (zApp, deferred) :: queue →
  inFlight (drain s) = inFlight s ++ [(zApp, deferred)]
  ∧ _mountQueue (drain s) = queue
  ∧ _mounting (drain s) = true.
Proof.
  intros Hticks Hidle Hqueue. unfold drain, mount. rewrite Hticks, Hqueue. simpl.
  by rewrite Hidle.
Qed.

(** A call of [mount] that arrives after a chain has ended and before the
    drain it scheduled has run takes the place of the call at the head of
    the queue, which the drain then moves behind all other queued calls. *)
Lemma window_requeues_head s ans zA dA zB dB queue zC :
  inFlight s = [(zA, dA)] →
  _mountQueue s = (zB, dB) :: queue →
  let s' := run (complete ans s) [Call zC; Tick] in
  inFlight s' = [(zC, deferreds s)] ∧ _mountQueue s' = queue ++ [(zB, dB)].
Proof.
  intros Hfl Hqueue. simpl. unfold complete. rewrite Hfl.
  destruct (begun s).
  - destruct (laterCallbacks _ _ _) as [result c]. unfold finish. rewrite Hfl, Hqueue.
    by simpl.
  - destruct (chain _ _ _ _) as [[result zApps] c]. unfold finish. rewrite Hfl, Hqueue.
    by simpl.
Qed.

(** *** First in, first out, as long as nothing slips into the window *)

Lemma init_calm c : calm (init c).
Proof. split; simpl; try done; [constructor|lia]. Qed.

Lemma line_snoc_sorted (l : list nat) n :
  StronglySorted lt l → Forall (λ d, d < n) l →
  StronglySorted lt (l ++ [n]) ∧ Forall (λ d, d < S n) (l ++ [n]).
Proof.
  intros Hsorted Hbound. split.
  - apply StronglySorted_app_2; [|done|repeat constructor].
    intros x1 x2 Hx1 ->%list_elem_of_singleton.
    rewrite Forall_forall in Hbound. by apply Hbound.
  - apply Forall_app. split; [|repeat constructor].
    eapply Forall_impl; [done|]. simpl. lia.
Qed.

Lemma finish_drain_calm result zApps c s :
  calm s → calm (drain (finish result zApps c s)).
Proof.
  intros [Hline Hbound Hticks Hsingle Hidle Hcaught Hnb].
  unfold line in *. unfold finish.
  destruct (inFlight s) as [|[zApp deferred] rest] eqn:Hfl.
  { unfold drain. rewrite Hticks. split; unfold line; rewrite ?Hfl; try done;
      simpl; try lia. }
  destruct rest; [|simpl in Hsingle; lia].
  rewrite Hnb, Hcaught.
  destruct (_mountQueue s) as [|[zApp' deferred'] queue] eqn:Hq.
  - unfold drain. simpl. rewrite Hticks. simpl in *. rewrite ?app_nil_r in *.
    split; unfold line; simpl; rewrite ?Hq, ?fmap_app, ?app_nil_r; simpl; try done;
      try lia.
  - unfold drain, mount. simpl in *.
    split; unfold line; simpl; rewrite ?fmap_app, <-?app_assoc; simpl; try done;
      try lia.
Qed.

Lemma stepCalm_calm s e : calm s → calm (stepCalm s e).
Proof.
  intros Hcalm.
  destruct e as [zApp| |ans| |closed]; simpl;
    [| | |done|by destruct closed; destruct Hcalm].
  - (* a call *)
    destruct Hcalm as [Hline Hbound Hticks Hsingle Hidle Hcaught Hnb].
    destruct (line_snoc_sorted _ _ Hline Hbound) as [Hline' Hbound'].
    unfold line in *.
    unfold mount. simpl. destruct (_mounting s) eqn:Hm.
    + split; unfold line; simpl; try done.
      * by rewrite fmap_app, !app_assoc in *.
      * by rewrite fmap_app, !app_assoc in *.
    + destruct (Hidle eq_refl) as [Hfl Hq]. rewrite Hfl, Hq in *. simpl in *.
      rewrite app_nil_r in *.
      split; unfold line; simpl; rewrite ?Hq, ?app_nil_r; try done; try lia.
  - (* the first callback; when it throws, the end of the chain and its drain *)
    assert (Hsame : drain s = s).
    { unfold drain. by rewrite (calm_ticks s Hcalm). }
    unfold begin. destruct (inFlight s) as [|[zApp deferred] rest] eqn:Hfl;
      [by rewrite Hsame|].
    destruct (begun s); [by rewrite Hsame|]. unfold firstCallback.
    destruct (decide _); [by apply finish_drain_calm|].
    destruct Hcalm as [Hline Hbound Hticks Hsingle Hidle Hcaught Hnb].
    unfold line in *. rewrite Hfl in *.
    unfold drain. simpl. rewrite Hticks.
    split; unfold line; simpl; done.
  - (* the end of a chain and the drain it scheduled *)
    unfold complete. destruct (inFlight s) as [|[zApp deferred] rest] eqn:Hfl.
    { unfold drain. by rewrite (calm_ticks s Hcalm). }
    destruct (begun s).
    + destruct (laterCallbacks _ _ _) as [result c]. by apply finish_drain_calm.
    + destruct (chain _ _ _ _) as [[result zApps] c]. by apply finish_drain_calm.
Qed.

(** Without a call inside the window, mounts are served first in, first
    out: the deferreds were created in the order of the calls and are
    settled in that order, and no drain finds the queue empty. *)
Lemma fifo_without_window c evs :
  StronglySorted lt (settledLog (runCalm (init c) evs)).*1
  ∧ uncaught (runCalm (init c) evs) = false.
Proof.
  enough (Hcalm : calm (runCalm (init c) evs)).
  { destruct Hcalm as [Hline _ _ _ _ Hcaught _]. split; [|done].
    by apply StronglySorted_app_1_l in Hline. }
  unfold runCalm. generalize (init c), (init_calm c).
  induction evs as [|e evs IH]; intros s Hs; [done|].
  simpl. apply IH. by apply stepCalm_calm.
Qed.

(** C3, as the code has it.  Applications 1 and 2 are mounted while nothing
    else happens; the chain of 1 completes and schedules the drain; before
    that drain runs, application 3 is mounted.  It finds [_mounting]
    lowered and starts at once; the drain then finds a mount in flight and
    puts application 2 back at the end of the queue.  The mount of 3
    (deferred 2) settles before the mount of 2 (deferred 1), which was
    called first. *)
Theorem mount_queue_overtaken :
  let c := Some (Coordinator [] ∅) in
  let window := run (init c) [Call 1; Call 2; Complete (allFine [11%Z]); Call 3] in
  let drained := step window Tick in
  let s := run drained [Complete (allFine [11%Z; 12%Z]); Tick;
                        Complete (allFine [11%Z; 12%Z; 13%Z])] in
  inFlight window = [(3, 2)]
  ∧ _mountQueue window = [(2, 1)]
  ∧ inFlight drained = [(3, 2)]
  ∧ _mountQueue drained = [(2, 1)]
  ∧ settledLog s = [(0, Resolved 11%Z); (2, Resolved 12%Z); (1, Resolved 13%Z)].
Proof. by vm_compute. Qed.

(** A drain can also find the queue empty: a mount that started in the
    window and failed at once has scheduled a second drain for the one
    queued call.  [shift] then returns [undefined], and calling it throws
    outside every promise. *)
Lemma drain_of_empty_queue :
  let refused := Answers (Rejected (Error "busy")) (Resolved []) (Resolved tt) in
  let s := run (init None)
             [Call 1; Call 2; Complete refused; Call 1; Complete refused; Tick; Tick] in
  uncaught s = true.
Proof. by vm_compute. Qed.

(** A call that the drain puts back in the queue has handed its deferred to
    [nodeify] as the callback: when that deferred is settled, calling it
    throws outside every promise.  In the run of C3 this happens when the
    mount of application 2 resolves. *)
Lemma requeued_mount_throws_on_settle :
  let c := Some (Coordinator [] ∅) in
  let requeued := run (init c) [Call 1; Call 2; Complete (allFine [11%Z]); Call 3; Tick] in
  let served := run requeued [Complete (allFine [11%Z; 12%Z]); Tick] in
  let s := step served (Complete (allFine [11%Z; 12%Z; 13%Z])) in
  nodebacks requeued = [1]
  ∧ uncaught served = false
  ∧ settledLog s = [(0, Resolved 11%Z); (2, Resolved 12%Z); (1, Resolved 13%Z)]
  ∧ uncaught s = true.
Proof. by vm_compute. Qed.


(** C9.  When the mount of an application passes the duplicate check (its
    first callback has yet to run and the application is not listed, or it
    has run and has listed it) and then fails, the mount is rejected and
    the application stays in [_zApp] (with no coordinator, nothing else has
    changed).  From then on, as long as no [stop] has succeeded, every mount
    of the same application that gets to run is rejected with 'zApp already
    exists.'; a successful [stop] empties the list. *)
Theorem failed_mount_stays_listed s zApp deferred rest ans :
  inFlight s = (zApp, deferred) :: rest →
  (if begun s then zApp ∈ _zApp s else zApp ∉ _zApp s) →
  failsLater ans (coord s) →
  let s1 := complete ans s in
  (∃ e, settledLog s1 = settledLog s ++ [(deferred, Rejected e)])
  ∧ zApp ∈ _zApp s1
  ∧ (coord s = None →
     coord s1 = None
     ∧ settledLog s1
       = settledLog s
         ++ [(deferred, Rejected (Error "Coordinator has not been initialized yet."))])
  ∧ ∀ evs, Forall (λ ev, ¬ clears ev) evs →
      let s2 := run s1 evs in
      zApp ∈ _zApp s2
      ∧ (∀ deferred' rest' ans',
           inFlight s2 = (zApp, deferred') :: rest' →
           settledLog (complete ans' s2)
           = settledLog s2 ++ [(deferred', Rejected (Error "zApp already exists."))])
      ∧ _zApp (step s2 (Stop (Resolved tt))) = [].
Proof.
  intros Hfl Hpassed Hfail. simpl.
  assert (Hin : zApp ∈ _zApp s ++ [zApp])
    by (apply elem_of_app; right; apply list_elem_of_here).
  assert (Hlater : ∃ e c, laterCallbacks ans zApp (coord s) = (Rejected e, c)
                          ∧ (coord s = None →
                             e = Error "Coordinator has not been initialized yet."
                             ∧ c = None)).
  { unfold laterCallbacks. destruct (coord s) as [c|]; [|by do 2 eexists].
    destruct Hfail as [?|[[e He]|[[e He]|[e He]]]]; [done|..].
    - rewrite He. by do 2 eexists.
    - rewrite He. destruct (registerEp ans); by do 2 eexists.
    - rewrite He. destruct (registerEp ans); [|by do 2 eexists].
      destruct (coordInfo ans); by do 2 eexists. }
  destruct Hlater as (e & c & Hlater & Hnone).
  assert (Hs1 : ∃ zApps, complete ans s = finish (Rejected e) zApps c s ∧ zApp ∈ zApps).
  { unfold complete, chain, firstCallback. rewrite Hfl, Hlater.
    destruct (begun s); [by eauto|].
    rewrite (decide_False (P := zApp ∈ _zApp s)) by done. by eauto. }
  destruct Hs1 as (zApps & -> & Hlisted).
  unfold finish at 1 2 3 4. rewrite Hfl. cbn [settledLog _zApp coord].
  split; [by eauto|]. split; [done|]. split.
  { intros [-> ->]%Hnone. done. }
  intros evs Hevs.
  assert (Hinv : zApp ∈ _zApp (finish (Rejected e) zApps c s)
                 ∧ (begun (finish (Rejected e) zApps c s) = true →
                    ∃ z d r, inFlight (finish (Rejected e) zApps c s) = (z, d) :: r
                             ∧ z ≠ zApp)).
  { unfold finish. rewrite Hfl. by split. }
  pose proof (run_listed evs _ zApp Hevs Hinv) as [Hkept Hhead]. clear Hinv.
  generalize dependent (run (finish (Rejected e) zApps c s) evs). intros s2 Hkept Hhead.
  split; [done|]. split; [|done].
  intros deferred' rest' ans' Hfl'.
  assert (Hb : begun s2 = false).
  { destruct (begun s2) eqn:Hb; [|done].
    destruct (Hhead eq_refl) as (z & d & r & Hfl2 & Hne). congruence. }
  unfold complete, chain, firstCallback, finish.
  rewrite Hfl', Hb, (decide_True (P := zApp ∈ _zApp s2)) by done. by simpl.
Qed.

(** The other direction of C4: a mount can only resolve with the fresh
    endpoint id. *)
Lemma finish_settledLog result zApps c s zApp deferred rest :
  inFlight s = (zApp, deferred) :: rest →
  settledLog (finish result zApps c s) = settledLog s ++ [(deferred, result)].
Proof. intros Hfl. unfold finish. by rewrite Hfl. Qed.

Lemma laterCallbacks_resolved ans zApp c epId c' :
  laterCallbacks ans zApp c = (Resolved epId, c') →
  ∃ co, c = Some co ∧ epId = freshEpId (epList co).
Proof.
  unfold laterCallbacks. destruct c as [co|]; [|done].
  destruct (registerEp ans); [|done]. destruct (coordInfo ans); [|done].
  destruct (sync ans); [|done]. intros [= <- _]. by exists co.
Qed.

Lemma mount_resolved_inv s zApp deferred rest ans epId :
  inFlight s = (zApp, deferred) :: rest →
  settledLog (complete ans s) = settledLog s ++ [(deferred, Resolved epId)] →
  ∃ c, coord s = Some c ∧ epId = freshEpId (epList c)
       ∧ (begun s = false → zApp ∉ _zApp s).
Proof.
  intros Hfl. unfold complete, chain, firstCallback. rewrite Hfl.
  destruct (begun s).
  - destruct (laterCallbacks ans zApp (coord s)) as [result c'] eqn:Hl.
    rewrite (finish_settledLog _ _ _ _ _ _ _ Hfl). intros [= ->]%app_inv_head.
    destruct (laterCallbacks_resolved _ _ _ _ _ Hl) as (co & Hco & He).
    by exists co.
  - destruct (decide _) as [|Hnew].
    { rewrite (finish_settledLog _ _ _ _ _ _ _ Hfl). by intros [= ]%app_inv_head. }
    destruct (laterCallbacks ans zApp (coord s)) as [result c'] eqn:Hl.
    rewrite (finish_settledLog _ _ _ _ _ _ _ Hfl). intros [= ->]%app_inv_head.
    destruct (laterCallbacks_resolved _ _ _ _ _ Hl) as (co & Hco & He).
    by exists co.
Qed.


(** C9 at work: a mount before the coordinator is there, and the next
    attempt for the same application. *)
Lemma failed_mount_stays_listed_witness :
  let s1 := run (init None) [Call 7; Complete (allFine [])] in
  settledLog s1 = [(0, Rejected (Error "Coordinator has not been initialized yet."))]
  ∧ settledLog (run s1 [Call 7; Complete (allFine [])])
    = settledLog s1 ++ [(1, Rejected (Error "zApp already exists."))].
Proof.
  intros s1.
  destruct (failed_mount_stays_listed (step (init None) (Call 7)) 7 0 [] (allFine []))
    as (_ & _ & Hnone & Hlater).
  - reflexivity.
  - vm_compute. by intros Hin%elem_of_nil.
  - by left.
  - split; [exact (proj2 (Hnone eq_refl))|].
    destruct (Hlater [Call 7]) as (_ & Hagain & _).
    + repeat constructor. by intros [u Hu].
    + exact (Hagain 1 [] (allFine []) eq_refl).
Defined.

End MountFacts.

(** ** The facade *)

Module FacadeFacts.
Import Registry Facade.

(** *** [reset] *)


Lemma elem_of_remove i box (entry : nat * device) :
  entry ∈ remove i box ↔ entry ∈ box ∧ entry.1 ≠ i.
Proof. unfold remove. rewrite list_elem_of_filter. tauto. Qed.



(** *** [list] *)

Lemma mapLookup_strings box (l : list string) :
  mapLookup box (VStr <$> l) = Return (slotOf box <$> l).
Proof.
  induction l as [|a l IH]; [done|].
  rewrite !fmap_cons. cbn [mapLookup lookupOne]. by rewrite IH.
Qed.

Lemma find_Some p box d :
  find p box = Some d → d ∈ exportAllObjs box ∧ p d = true.
Proof.
  unfold exportAllObjs. induction box as [|[i d0] box IH]; [done|]. simpl.
  destruct (p d0) eqn:Hp.
  - intros [= ->]. split; [apply list_elem_of_here|done].
  - intros [Hin Hpd]%IH. split; [by apply list_elem_of_further|done].
Qed.

Lemma find_None p box d :
  find p box = None → d ∈ exportAllObjs box → p d = false.
Proof.
  unfold exportAllObjs. induction box as [|[i d0] box IH]; simpl.
  { by intros _ Hin%elem_of_nil. }
  destruct (p d0) eqn:Hp; [done|].
  intros Hnone [->|Hin]%elem_of_cons; auto.
Qed.

(** With one device per IEEE address, looking a registered device up by
    its address finds that device. *)
Lemma findDevByAddr_registered box d :
  NoDup (ieeeAddr <$> exportAllObjs box) →
  d ∈ exportAllObjs box →
  _findDevByAddr box (Ieee (ieeeAddr d)) = Some d.
Proof.
  unfold _findDevByAddr, exportAllObjs.
  induction box as [|[i d0] box IH]; simpl.
  { by intros _ Hin%elem_of_nil. }
  intros [Hfresh Hnodup]%NoDup_cons Hin.
  case_bool_decide as Haddr.
  - apply elem_of_cons in Hin as [->|Hin]; [done|].
    exfalso. apply Hfresh. rewrite Haddr. by apply list_elem_of_fmap_2.
  - apply elem_of_cons in Hin as [->|Hin]; [done|]. by apply IH.
Qed.

Lemma omit_spec obj keys k v :
  (k, v) ∈ omit obj keys ↔ (k, v) ∈ obj ∧ k ∉ keys.
Proof. unfold omit. rewrite list_elem_of_filter. simpl. tauto. Qed.

(** C8.  With one device per IEEE address in the registry: without an
    argument [list] returns, in store order, the dump of every registered
    device that is not [incomplete] (of every device when [showIncomplete]
    is set); with a string it returns the one slot of that address; with an
    array of strings it returns an array of the same length that holds, at
    each position, the slot of the address at that position.  The slot of
    a known address is the device's dump without its [id] and [endpoints]
    fields and with every other field; the slot of an unknown address is
    [undefined]. *)
Theorem list_dumps box showIncomplete :
  NoDup (ieeeAddr <$> exportAllObjs box) →
  listDevs box NoArg showIncomplete
  = Return ((λ dev, Some (omit (dump dev) ["id"; "endpoints"]))
              <$> filter (λ dev, showIncomplete || negb (incomplete dev))
                    (exportAllObjs box))
  ∧ (∀ a, listDevs box (OneAddr a) showIncomplete = Return [slotOf box a])
  ∧ (∀ l, listDevs box (Addrs (VStr <$> l)) showIncomplete = Return (slotOf box <$> l)
          ∧ length (slotOf box <$> l) = length l)
  ∧ (∀ a, (∀ dev, dev ∈ exportAllObjs box → ieeeAddr dev ≠ a) → slotOf box a = None)
  ∧ (∀ dev, dev ∈ exportAllObjs box →
       ∃ slot, slotOf box (ieeeAddr dev) = Some slot
               ∧ ∀ k v, (k, v) ∈ slot ↔ (k, v) ∈ dump dev ∧ k ≠ "id" ∧ k ≠ "endpoints").
Proof.
  intros Hnodup.
  assert (Hknown : ∀ dev, dev ∈ exportAllObjs box →
                     slotOf box (ieeeAddr dev) = Some (omit (dump dev) ["id"; "endpoints"])).
  { intros dev Hin. unfold slotOf. by rewrite findDevByAddr_registered. }
  split; [|split; [|split; [|split]]].
  - unfold listDevs. set (devs := filter _ _).
    assert (Hsub : ∀ dev, dev ∈ devs → dev ∈ exportAllObjs box).
    { by intros dev [_ Hin]%list_elem_of_filter. }
    transitivity (mapLookup box (VStr <$> (ieeeAddr <$> devs)));
      [by rewrite <-list_fmap_compose|].
    rewrite mapLookup_strings, <-list_fmap_compose. f_equal.
    apply list_fmap_ext. intros i dev Hdev. simpl. apply Hknown, Hsub.
    by eapply list_elem_of_lookup_2.
  - intros a. reflexivity.
  - intros l. split; [apply mapLookup_strings|apply length_fmap].
  - intros a Hunknown. unfold slotOf, _findDevByAddr.
    destruct (find _ box) as [dev|] eqn:Hfind; [|done].
    apply find_Some in Hfind as [Hin Haddr]. apply bool_decide_eq_true in Haddr.
    by apply Hunknown in Hin.
  - intros dev Hin. eexists. split; [by apply Hknown|].
    intros k v. rewrite omit_spec.
    rewrite !not_elem_of_cons. split.
    + by intros (Hkv & Hid & Hep & _).
    + intros (Hkv & Hid & Hep). repeat split; try done. by intros Hno%elem_of_nil.
Qed.


Lemma demo_box_NoDup : NoDup (ieeeAddr <$> exportAllObjs Demo.box).
Proof. apply (bool_decide_unpack _). by vm_compute. Defined.

(** C8 at work: a known and an unknown address. *)
Lemma list_dumps_witness :
  listDevs Demo.box (Addrs [VStr Demo.addrA; VStr "0x00124b00ff"]) false
  = Return [slotOf Demo.box Demo.addrA; None]
  ∧ slotOf Demo.box Demo.addrA
    = Some [ ("type", FVal (VStr "Router")); ("ieeeAddr", FVal (VStr Demo.addrA));
             ("nwkAddr", FVal (VNum 1)); ("manufId", FVal (VNum 0));
             ("epList", FEpList [1%Z]); ("status", FVal (VStr "online"));
             ("joinTime", FVal (VNum 1700000000)) ].
Proof.
  destruct (list_dumps Demo.box false demo_box_NoDup) as (_ & _ & Harr & _).
  split; [|by vm_compute].
  exact (proj1 (Harr [Demo.addrA; "0x00124b00ff"])).
Defined.

End FacadeFacts.

(** ** The topology scanner *)

Module ScanFacts.
Import Registry Scan.

(** *** The [noDuplicate] object *)

Lemma lookupRec_None a (nd : list (string * scanRec)) :
  lookupRec a nd = None ↔ a ∉ nd.*1.
Proof.
  unfold lookupRec. destruct (list_find _ nd) as [[i [k r]]|] eqn:Hfind; simpl.
  - apply list_find_Some in Hfind as (Hi & Hk & _). simpl in Hk. subst k.
    split; [done|]. intros Hno. exfalso. apply Hno.
    apply list_elem_of_fmap. exists (a, r). split; [done|].
    by eapply list_elem_of_lookup_2.
  - apply list_find_None in Hfind. split; [|done]. intros _ Hin.
    apply list_elem_of_fmap in Hin as ([k r] & -> & Hin).
    rewrite Forall_forall in Hfind. by apply (Hfind _ Hin).
Qed.

Lemma lookupRec_Some a r (nd : list (string * scanRec)) :
  lookupRec a nd = Some r → (a, r) ∈ nd.
Proof.
  unfold lookupRec. destruct (list_find _ nd) as [[i [k r']]|] eqn:Hfind; simpl; [|done].
  intros [= ->]. apply list_find_Some in Hfind as (Hi & Hk & _). simpl in Hk. subst k.
  by eapply list_elem_of_lookup_2.
Qed.

Lemma lookupRec_app_l a r (nd more : list (string * scanRec)) :
  lookupRec a nd = Some r → lookupRec a (nd ++ more) = Some r.
Proof.
  unfold lookupRec. destruct (list_find _ nd) as [hit|] eqn:Hfind; simpl; [|done].
  destruct hit as [i kv]. intros <-.
  by rewrite (list_find_app_l _ nd more i kv Hfind).
Qed.

Lemma startState_inv start : scanInv start (noDuplicate (startState start)).
Proof.
  split; simpl.
  - apply NoDup_singleton.
  - by intros k r [= -> ->]%list_elem_of_singleton.
  - exists (startRec start). split; [apply list_elem_of_here|done].
  - by intros k r [= -> ->]%list_elem_of_singleton.
Qed.

Lemma sight_inv box emit parent start set st entry :
  scanInv start (noDuplicate st) →
  scanInv start (noDuplicate (sight box emit parent (set, st) entry).2).
Proof.
  intros [Hkeys Haddr Hstart Hzero]. unfold sight.
  destruct (decide (rec_ieeeAddr entry = zeroAddr)) as [|Hnz]; [done|].
  destruct (lookupRec _ _) as [known|] eqn:Hlook; [done|]. simpl.
  apply lookupRec_None in Hlook. split.
  - rewrite fmap_app. apply NoDup_app. split; [done|]. split; [|apply NoDup_singleton].
    by intros k Hk ->%list_elem_of_singleton.
  - intros k r [Hin|[= -> ->]%list_elem_of_singleton]%elem_of_app; [by apply Haddr|done].
  - destruct Hstart as (r & Hin & Hparent). exists r. split; [|done].
    apply elem_of_app. by left.
  - intros k r [Hin|[= -> ->]%list_elem_of_singleton]%elem_of_app; [by eapply Hzero|done].
Qed.

Lemma processResponse_inv box emit parent start data st :
  scanInv start (noDuplicate st) →
  scanInv start (noDuplicate (processResponse box emit parent data st).2).
Proof.
  unfold processResponse. generalize (@nil string).
  revert st. induction data as [|entry data IH]; intros st set Hinv; [done|].
  cbn [foldl]. destruct (sight box emit parent (set, st) entry) as [set' st'] eqn:Hsight.
  apply IH. change st' with (set', st').2. rewrite <-Hsight. by apply sight_inv.
Qed.

Lemma markError_inv start a err st :
  scanInv start (noDuplicate st) → scanInv start (noDuplicate (markError a err st)).
Proof.
  intros [Hkeys Haddr Hstart Hzero]. unfold markError. simpl.
  set (mark := λ kv : string * scanRec, if decide (kv.1 = a) then _ else kv).
  assert (Hfst : ∀ kv, (mark kv).1 = kv.1).
  { intros kv. unfold mark. by destruct (decide _). }
  assert (Hkeys' : (mark <$> noDuplicate st).*1 = (noDuplicate st).*1).
  { rewrite <-list_fmap_compose. apply list_fmap_ext. intros i kv _. apply Hfst. }
  assert (Hin : ∀ k r, (k, r) ∈ mark <$> noDuplicate st →
                  ∃ r0, (k, r0) ∈ noDuplicate st ∧ sighting r = sighting r0).
  { intros k r ([k0 r0] & Heq & Hin0)%list_elem_of_fmap. unfold mark in Heq. simpl in Heq.
    destruct (decide _); injection Heq as -> ->; by exists r0. }
  split.
  - by rewrite Hkeys'.
  - intros k r (r0 & Hin0 & Hsame)%Hin. rewrite <-(Haddr k r0 Hin0).
    by injection Hsame.
  - destruct Hstart as (r & Hr & Hparent).
    exists (mark (start, r)).2. split.
    + assert (mark (start, r) = (start, (mark (start, r)).2)) as <-.
      { rewrite <-(Hfst (start, r)) at 2. by destruct (mark (start, r)). }
      by apply list_elem_of_fmap_2.
    + unfold mark. simpl. by destruct (decide _).
  - intros k r (r0 & Hin0 & _)%Hin. by eapply Hzero.
Qed.

Lemma scanStepRun_inv box emit start st s :
  scanInv start (noDuplicate st) → scanInv start (noDuplicate (scanStepRun box emit st s)).
Proof.
  destruct s as [parent data|a err]; simpl.
  - apply processResponse_inv.
  - apply markError_inv.
Qed.

Lemma scan_inv box emit start steps :
  scanInv start (noDuplicate (foldl (scanStepRun box emit) (startState start) steps)).
Proof.
  generalize (startState start), (startState_inv start).
  induction steps as [|s steps IH]; intros st Hinv; [done|].
  simpl. apply IH. by apply scanStepRun_inv.
Qed.

(** *** What the result looks like *)

Lemma filter_unique {A B} `{EqDecision B} (f : A → B) (l : list A) x :
  NoDup (f <$> l) → x ∈ l → filter (λ y, f y = f x) l = [x].
Proof.
  induction l as [|y l IH]; [by intros _ Hin%elem_of_nil|].
  rewrite fmap_cons. intros [Hfresh Hnodup]%NoDup_cons Hin.
  destruct (decide (f y = f x)) as [Heq|Hne].
  - rewrite filter_cons_True by done.
    assert (x = y) as ->.
    { apply elem_of_cons in Hin as [|Hin]; [done|]. exfalso. apply Hfresh.
      rewrite Heq. by apply list_elem_of_fmap_2. }
    f_equal. apply elem_of_nil_inv. intros z [Hz Hzl]%list_elem_of_filter.
    apply Hfresh. rewrite <-Hz. by apply list_elem_of_fmap_2.
  - rewrite filter_cons_False by done. apply IH; [done|].
    apply elem_of_cons in Hin as [->|Hin]; done.
Qed.

Lemma scanInv_result start nd : scanInv start nd → scanResultOk start nd.*2.
Proof.
  intros [Hkeys Haddr Hstart Hzero].
  assert (Haddrs : rec_ieeeAddr <$> nd.*2 = nd.*1).
  { rewrite <-list_fmap_compose. apply list_fmap_ext. intros i [k r] Hi. simpl.
    apply Haddr. by eapply list_elem_of_lookup_2. }
  split; [by rewrite Haddrs|]. split.
  - destruct Hstart as (r0 & Hin & Hparent). exists r0. split; [|done].
    rewrite <-(Haddr _ _ Hin). apply filter_unique; [by rewrite Haddrs|].
    by apply (list_elem_of_fmap_2 snd) in Hin.
  - intros r ([k r'] & -> & Hin)%list_elem_of_fmap Hz. simpl in Hz.
    pose proof (Haddr _ _ Hin) as Hk. rewrite Hz in Hk. subst k.
    symmetry. by eapply Hzero.
Qed.

(** Whatever the order of the callbacks, the values of [noDuplicate] are
    such a list. *)
Lemma scan_steps_result box emit start steps :
  scanResultOk start (noDuplicate (foldl (scanStepRun box emit) (startState start) steps)).*2.
Proof. apply scanInv_result, scan_inv. Qed.

(** *** First sighting wins *)

Lemma lookupRec_cons a k r (nd : list (string * scanRec)) :
  lookupRec a ((k, r) :: nd) = if decide (k = a) then Some r else lookupRec a nd.
Proof.
  unfold lookupRec. simpl. destruct (decide (k = a)); [done|].
  by destruct (list_find _ nd) as [[i kv]|].
Qed.

Lemma sight_keeps box emit parent set st entry a r :
  lookupRec a (noDuplicate st) = Some r →
  lookupRec a (noDuplicate (sight box emit parent (set, st) entry).2) = Some r.
Proof.
  intros Hlook. unfold sight. destruct (decide _); [done|].
  destruct (lookupRec (rec_ieeeAddr entry) _); [done|]. simpl.
  by apply lookupRec_app_l.
Qed.

(** The first sighting of an address files the entry, stamped with the
    node being scanned and the status of the registry. *)
Lemma sight_first box emit parent set st entry :
  rec_ieeeAddr entry ≠ zeroAddr →
  lookupRec (rec_ieeeAddr entry) (noDuplicate st) = None →
  lookupRec (rec_ieeeAddr entry)
    (noDuplicate (sight box emit parent (set, st) entry).2)
  = Some (ScanRec (rec_ieeeAddr entry) (rec_nwkAddr entry) (rec_lqi entry) (Some parent)
            (Some (from_option status "offline"
                     (_findDevByAddr box (Ieee (rec_ieeeAddr entry)))))
            (rec_type entry) (rec_error entry)).
Proof.
  intros Hnz Hnew. unfold sight. rewrite decide_False, Hnew by done. simpl.
  induction (noDuplicate st) as [|[k r] nd IH]; simpl.
  - by rewrite lookupRec_cons, decide_True.
  - rewrite lookupRec_cons in Hnew |- *.
    destruct (decide (k = rec_ieeeAddr entry)); [done|]. by apply IH.
Qed.

Lemma processResponse_keeps box emit parent data st a r :
  lookupRec a (noDuplicate st) = Some r →
  lookupRec a (noDuplicate (processResponse box emit parent data st).2) = Some r.
Proof.
  unfold processResponse. generalize (@nil string).
  revert st. induction data as [|entry data IH]; intros st set Hlook; [done|].
  cbn [foldl]. destruct (sight box emit parent (set, st) entry) as [set' st'] eqn:Hsight.
  apply IH. change st' with (set', st').2. rewrite <-Hsight. by apply sight_keeps.
Qed.

Lemma markError_keeps a' err st a r :
  lookupRec a (noDuplicate st) = Some r →
  ∃ r', lookupRec a (noDuplicate (markError a' err st)) = Some r'
        ∧ sighting r' = sighting r.
Proof.
  unfold markError. simpl. induction (noDuplicate st) as [|[k r0] nd IH]; [done|].
  rewrite lookupRec_cons, fmap_cons. simpl.
  destruct (decide (k = a)) as [->|Hne].
  - intros [= ->]. destruct (decide (a = a')); rewrite lookupRec_cons, decide_True by done;
      by eexists.
  - intros Hlook. destruct (decide (k = a')); rewrite lookupRec_cons, decide_False by done;
      by apply IH.
Qed.

(** A record, once in [noDuplicate], stays as it was sighted: later
    callbacks add at most the [error] of the request sent to that node. *)
Lemma first_sighting_wins box emit st more a r :
  lookupRec a (noDuplicate st) = Some r →
  ∃ r', lookupRec a (noDuplicate (foldl (scanStepRun box emit) st more)) = Some r'
        ∧ sighting r' = sighting r.
Proof.
  revert st r. induction more as [|s more IH]; intros st r Hlook; [by exists r|].
  cbn [foldl].
  assert (∃ r1, lookupRec a (noDuplicate (scanStepRun box emit st s)) = Some r1
                ∧ sighting r1 = sighting r) as (r1 & Hr1 & Hsame).
  { destruct s as [parent data|a' err]; simpl.
    - exists r. split; [by apply processResponse_keeps|done].
    - by apply markError_keeps. }
  destruct (IH _ _ Hr1) as (r' & Hr' & Hsame'). exists r'. split; [done|]. congruence.
Qed.

(** *** The scan itself *)

Lemma settleAll_steps box ask emit set st :
  ∃ steps, (settleAll box ask set st).2 = foldl (scanStepRun box emit) st steps.
Proof.
  revert st. induction set as [|a set IH]; intros st; [by exists []|].
  simpl. destruct (lqi box ask a) as [data|err].
  - destruct (IH st) as [steps Hsteps].
    destruct (settleAll box ask set st) as [rest st']. by exists steps.
  - destruct (IH (markError a err st)) as [steps Hsteps].
    destruct (settleAll box ask set (markError a err st)) as [rest st'].
    by exists (Failure a err :: steps).
Qed.

Lemma scanLoop_steps fuel box ask emit pending st st' :
  scanLoop fuel box ask emit pending st = Some (Resolved st') →
  ∃ steps, st' = foldl (scanStepRun box emit) st steps.
Proof.
  revert pending st. induction fuel as [|fuel IH]; intros pending st.
  - destruct pending as [|[parent data] rest]; simpl; [|done].
    intros [= <-]. by exists [].
  - destruct pending as [|[parent [entries|]] rest]; simpl; [| |done].
    + intros [= <-]. by exists [].
    + destruct (processResponse box emit parent entries st) as [set st1] eqn:Hproc.
      destruct (settleAll_steps box ask emit set st1) as [failures Hfail].
      destruct (settleAll box ask set st1) as [children st2]. simpl in Hfail.
      intros (steps & ->)%IH.
      exists (Response parent entries :: failures ++ steps).
      assert (Hfirst : scanStepRun box emit st (Response parent entries) = st1)
        by (simpl; by rewrite Hproc).
      cbn [foldl]. by rewrite Hfirst, foldl_app, <-Hfail.
Qed.

(** *** The scan comes to an end *)

Lemma length_remove_dups (l : list string) : length (remove_dups l) ≤ length l.
Proof.
  induction l as [|a l IH]; [done|]. simpl.
  destruct (decide_rel _ _ _); simpl; lia.
Qed.

Lemma findDevByAddr_candidate box a dev :
  _findDevByAddr box (Ieee a) = Some dev → a ∈ candidates box.
Proof.
  unfold _findDevByAddr, candidates, exportAllObjs. intros Hfind.
  apply elem_of_remove_dups.
  induction box as [|[i d] box IH]; [done|]. simpl in *.
  case_bool_decide as Haddr.
  - rewrite <-Haddr. apply list_elem_of_here.
  - apply list_elem_of_further. by apply IH.
Qed.

Lemma filter_ext_in {A} (P Q : A → Prop) `{!∀ x, Decision (P x), !∀ x, Decision (Q x)}
    (l : list A) :
  (∀ x, x ∈ l → P x ↔ Q x) → filter P l = filter Q l.
Proof.
  induction l as [|a l IH]; intros Hiff; [done|].
  assert (Hrest : filter P l = filter Q l).
  { apply IH. intros x Hx. apply Hiff. by apply list_elem_of_further. }
  specialize (Hiff a (list_elem_of_here _ _)). rewrite !filter_cons, Hrest.
  destruct (decide (P a)), (decide (Q a)); tauto.
Qed.

(** Recording one more address leaves no more candidates unseen, and one
    less when the address is a candidate that was not recorded. *)
Lemma unseen_more (keys candidates : list string) a :
  length (filter (λ x, x ∉ keys ++ [a]) candidates)
  ≤ length (filter (λ x, x ∉ keys) candidates).
Proof.
  induction candidates as [|c cs IH]; [done|].
  rewrite !filter_cons.
  destruct (decide (c ∉ keys ++ [a])) as [Hc|Hc];
    destruct (decide (c ∉ keys)) as [Hc'|Hc']; simpl; try lia.
  exfalso. apply Hc'. intros Hin. apply Hc. apply elem_of_app. by left.
Qed.

Lemma unseen_one_less (keys candidates : list string) a :
  NoDup candidates → a ∈ candidates → a ∉ keys →
  S (length (filter (λ x, x ∉ keys ++ [a]) candidates))
  = length (filter (λ x, x ∉ keys) candidates).
Proof.
  induction candidates as [|c cs IH]; [by intros _ Hin%elem_of_nil|].
  intros [Hfresh Hnodup]%NoDup_cons Hin Hnew.
  rewrite !filter_cons.
  destruct (decide (c = a)) as [->|Hne].
  - rewrite decide_False, decide_True by (try done; rewrite elem_of_app,
      list_elem_of_singleton; tauto).
    simpl. f_equal. f_equal. apply filter_ext_in.
    intros x Hx. rewrite elem_of_app, list_elem_of_singleton.
    split; [tauto|]. intros Hk [Hin'| ->]; [done|]. by apply Hfresh.
  - apply elem_of_cons in Hin as [->|Hin]; [done|].
    specialize (IH Hnodup Hin Hnew).
    destruct (decide (c ∉ keys)) as [Hc|Hc].
    + rewrite decide_True; [simpl; lia|].
      rewrite elem_of_app, list_elem_of_singleton. tauto.
    + rewrite decide_False; [done|].
      rewrite elem_of_app, list_elem_of_singleton. tauto.
Qed.

Lemma sight_unseen box emit parent set st entry :
  length (sight box emit parent (set, st) entry).1
  + unseen box (sight box emit parent (set, st) entry).2
  ≤ length set + unseen box st.
Proof.
  unfold sight. destruct (decide _) as [|Hnz]; [done|].
  destruct (lookupRec _ _) as [known|] eqn:Hlook; [done|].
  apply lookupRec_None in Hlook. unfold unseen. simpl. rewrite fmap_app. simpl.
  destruct (_findDevByAddr box _) as [dev|] eqn:Hdev; simpl.
  - pose proof (unseen_one_less _ (candidates box) _ (NoDup_remove_dups _)
                  (findDevByAddr_candidate _ _ _ Hdev) Hlook) as Hless.
    case_bool_decide; [rewrite length_app; simpl|]; lia.
  - pose proof (unseen_more (noDuplicate st).*1 (candidates box) (rec_ieeeAddr entry)).
    lia.
Qed.

Lemma processResponse_unseen box emit parent data st :
  length (processResponse box emit parent data st).1
  + unseen box (processResponse box emit parent data st).2
  ≤ unseen box st.
Proof.
  unfold processResponse.
  enough (Hgen : ∀ set,
             length (foldl (sight box emit parent) (set, st) data).1
             + unseen box (foldl (sight box emit parent) (set, st) data).2
             ≤ length set + unseen box st) by apply (Hgen []).
  revert st. induction data as [|entry data IH]; intros st set; [done|].
  cbn [foldl]. pose proof (sight_unseen box emit parent set st entry) as Hstep.
  destruct (sight box emit parent (set, st) entry) as [set' st']. simpl in Hstep.
  specialize (IH st' set'). lia.
Qed.

Lemma markError_keys a err st :
  (noDuplicate (markError a err st)).*1 = (noDuplicate st).*1.
Proof.
  unfold markError. simpl. rewrite <-list_fmap_compose.
  apply list_fmap_ext. intros i kv _. simpl. by destruct (decide _).
Qed.

Lemma markError_unseen box a err st : unseen box (markError a err st) = unseen box st.
Proof. unfold unseen. by rewrite markError_keys. Qed.

Lemma settleAll_unseen box ask set st :
  length (settleAll box ask set st).1 = length set
  ∧ unseen box (settleAll box ask set st).2 = unseen box st.
Proof.
  revert st. induction set as [|a set IH]; intros st; [done|]. simpl.
  destruct (lqi box ask a) as [data|err].
  - specialize (IH st). destruct (settleAll box ask set st) as [rest st']. simpl in *.
    destruct IH as [-> ->]. done.
  - specialize (IH (markError a err st)).
    destruct (settleAll box ask set (markError a err st)) as [rest st']. simpl in *.
    destruct IH as [-> ->]. by rewrite markError_unseen.
Qed.

(** Every callback takes a response off the list, and the requests it
    starts are for candidates it records: the fuel that covers the pending
    responses and the unseen candidates is enough. *)
Lemma scanLoop_terminates fuel box ask emit pending st :
  length pending + unseen box st ≤ fuel →
  scanLoop fuel box ask emit pending st ≠ None.
Proof.
  revert pending st. induction fuel as [|fuel IH]; intros pending st Hfuel.
  - destruct pending; [done|]. simpl in Hfuel. lia.
  - destruct pending as [|[parent [entries|]] rest]; simpl; [done| |done].
    pose proof (processResponse_unseen box emit parent entries st) as Hproc.
    destruct (processResponse box emit parent entries st) as [set st1].
    pose proof (settleAll_unseen box ask set st1) as [Hlen Hsame].
    destruct (settleAll box ask set st1) as [children st2]. simpl in *.
    apply IH. rewrite length_app. lia.
Qed.

Lemma lqiScan_terminates box ask netIeeeAddr startAddr emit :
  lqiScan (S (length box)) box ask netIeeeAddr startAddr emit ≠ None.
Proof.
  unfold lqiScan. destruct (lqi box ask _) as [data|]; [|done].
  pose proof (scanLoop_terminates (S (length box)) box ask emit
                [(startOf netIeeeAddr startAddr, data)]
                (startState (startOf netIeeeAddr startAddr))) as Hloop.
  destruct (scanLoop _ _ _ _ _ _) as [[st|e]|]; [done|done|].
  exfalso. apply Hloop; [|done]. simpl. unfold unseen.
  pose proof (length_filter (λ a, a ∉ (noDuplicate (startState (startOf netIeeeAddr
                startAddr))).*1) (candidates box)) as Hfilter.
  pose proof (length_remove_dups (ieeeAddr <$> exportAllObjs box)) as Hdups.
  unfold candidates in *. unfold exportAllObjs in *. rewrite !length_fmap in Hdups. lia.
Qed.

(** C5, amended.  The list that [lqiScan] returns has at most one record
    per IEEE address; the start node appears in it exactly once, and its
    record has no parent; and a record carries the address
    0x0000000000000000 only if the scan was started at that address, in
    which case it is the record of the start node.  The first sighting
    wins: the list is what the callbacks of the scan leave in [noDuplicate],
    and a record found there after some of them is in the list as it was
    sighted.  The scan settles: one unit of fuel for the start node and one
    for each registered device are enough. *)
Theorem lqiScan_result box ask netIeeeAddr startAddr emit :
  lqiScan (S (length box)) box ask netIeeeAddr startAddr emit ≠ None
  ∧ ∀ fuel l,
      lqiScan fuel box ask netIeeeAddr startAddr emit = Some (Resolved l) →
      let start := startOf netIeeeAddr startAddr in
      NoDup (rec_ieeeAddr <$> l)
      ∧ (∃ r0, filter (λ r, rec_ieeeAddr r = start) l = [r0] ∧ rec_parent r0 = None)
      ∧ (∀ r, r ∈ l → rec_ieeeAddr r = zeroAddr → start = zeroAddr)
      ∧ ∃ steps,
          l = (noDuplicate (foldl (scanStepRun box emit) (startState start) steps)).*2
          ∧ ∀ before after a r,
              steps = before ++ after →
              lookupRec a
                (noDuplicate (foldl (scanStepRun box emit) (startState start) before))
              = Some r →
              ∃ r', r' ∈ l ∧ sighting r' = sighting r.
Proof.
  split; [apply lqiScan_terminates|].
  unfold lqiScan. intros fuel l Hscan. simpl.
  destruct (lqi box ask _) as [data|]; [|done].
  destruct (scanLoop _ _ _ _ _ _) as [[st|]|] eqn:Hloop; [|done..].
  injection Hscan as <-.
  apply scanLoop_steps in Hloop as [steps ->].
  destruct (scan_steps_result box emit (startOf netIeeeAddr startAddr) steps)
    as (Hunique & Hstart & Hzero).
  split; [done|]. split; [done|]. split; [done|].
  exists steps. split; [done|].
  intros before after a r -> Hlook. rewrite foldl_app.
  destruct (first_sighting_wins box emit _ after a r Hlook) as (r' & Hr' & Hsame).
  exists r'. split; [|done].
  apply lookupRec_Some in Hr'. by apply (list_elem_of_fmap_2 snd) in Hr'.
Qed.

(** The claim of C5 as it stands fails for a scan started at the all-zero
    address: when a device is registered under it, the scan returns the
    start record, which carries that address. *)
Lemma lqiScan_from_zero_address :
  lqiScan 1 Demo.zeroBox Demo.silent Demo.addrS (Some zeroAddr) false
  = Some (Resolved [startRec zeroAddr])
  ∧ rec_ieeeAddr (startRec zeroAddr) = "0x0000000000000000".
Proof. by vm_compute. Qed.

(** C5 as amended, at work on the five-device network: the coordinator,
    A, B, C (first seen from A) and D. *)
Lemma lqiScan_result_witness :
  ∃ l, lqiScan 10 Demo.box Demo.radio Demo.addrS None false = Some (Resolved l)
       ∧ rec_ieeeAddr <$> l
         = [Demo.addrS; Demo.addrA; Demo.addrB; Demo.addrC; Demo.addrD]
       ∧ NoDup (rec_ieeeAddr <$> l)
       ∧ ∀ r, r ∈ l → rec_ieeeAddr r = zeroAddr → Demo.addrS = zeroAddr.
Proof.
  destruct (lqiScan 10 Demo.box Demo.radio Demo.addrS None false) as [[l|]|] eqn:Hscan;
    [|by vm_compute in Hscan..].
  exists l. split; [done|].
  destruct (proj2 (lqiScan_result Demo.box Demo.radio Demo.addrS None false) 10 l Hscan)
    as (Hunique & _ & Hzero & _).
  split; [|by split].
  vm_compute in Hscan. by injection Hscan as <-.
Defined.

End ScanFacts.

(** ** The cache of an endpoint, request by request *)

Module RouterMore.
Import Router RouterFacts Facade Endpoint.

Lemma filter_narrow {A} (P Q : A → Prop) `{∀ x, Decision (P x)} `{∀ x, Decision (Q x)}
    (l : list A) :
  (∀ x, x ∈ l → P x → Q x) → filter P l = filter P (filter Q l).
Proof.
  induction l as [|x l IH]; intros Himp; [done|].
  assert (Hrest : ∀ y, y ∈ l → P y → Q y)
    by (intros y Hy; apply Himp; by apply list_elem_of_further).
  rewrite !filter_cons. destruct (decide (P x)) as [HP|HP].
  - rewrite decide_True by (apply Himp; [apply list_elem_of_here|done]).
    rewrite filter_cons, decide_True by done. f_equal. by apply IH.
  - destruct (decide (Q x)).
    + rewrite filter_cons, decide_False by done. by apply IH.
    + by apply IH.
Qed.

Lemma filter_none {A} (P : A → Prop) `{∀ x, Decision (P x)} (l : list A) :
  (∀ x, x ∈ l → ¬ P x) → filter P l = [].
Proof.
  intros Hnone. apply elem_of_nil_inv. intros x [HP Hx]%list_elem_of_filter.
  by apply (Hnone x).
Qed.

(** The entries of a loop are those it writes, then those it does not get
    to, which are none or begin with an [undefined] value. *)
Lemma accepted_prefix l :
  l = accepted l ++ drop (length (accepted l)) l
  ∧ (drop (length (accepted l)) l = []
     ∨ ∃ k rest, drop (length (accepted l)) l = (k, VUndefined) :: rest).
Proof.
  destruct (accepted_split l) as [Hall|(k & rest & Hsplit)].
  - rewrite Hall, drop_all, app_nil_r. by auto.
  - assert (Hdrop : drop (length (accepted l)) l = (k, VUndefined) :: rest).
    { rewrite Hsplit at 2. by rewrite drop_app_length. }
    rewrite Hdrop. split; [done|]. right. by eauto.
Qed.

Section WithInterfaces.
Context `{ZclId} `{Af} {keyOrder : KeyOrder}.

(** What a pass leaves cached, attribute by attribute: the value of the
    new snapshot where it differs from the cached one and was written, the
    cached value elsewhere. *)
Lemma written_lookup old new k :
  overlay (accepted (diffEntries old new)) old !! k
  = if decide (k ∈ refused old new) then old !! k
    else match new !! k with Some v => Some v | None => old !! k end.
Proof.
  unfold refused.
  destruct (accepted_prefix (diffEntries old new)) as [Hsplit _].
  set (acc := accepted (diffEntries old new)) in *.
  set (tail := drop (length acc) (diffEntries old new)) in *.
  pose proof (diffEntries_NoDup old new) as Hnodup.
  rewrite Hsplit, fmap_app in Hnodup. apply NoDup_app in Hnodup as (Hacc & Hdisj & _).
  destruct (decide (k ∈ tail.*1)) as [Htail|Htail].
  - apply overlay_lookup_ne. intros Hk. by apply (Hdisj k).
  - destruct (new !! k) as [v|] eqn:Hnew.
    + destruct (decide (old !! k = Some v)) as [Hsame|Hdiff].
      * rewrite overlay_lookup_ne; [done|].
        intros [[k' v'] [Hk' Hin]]%list_elem_of_fmap. simpl in Hk'. subst k'.
        apply accepted_elem in Hin as [_ Hin].
        apply diffEntries_elem, objectDiff_lookup in Hin as [Hv' Hne]. congruence.
      * apply overlay_lookup; [done|].
        assert (Hin : (k, v) ∈ diffEntries old new)
          by (by apply diffEntries_elem, objectDiff_lookup).
        rewrite Hsplit in Hin. apply elem_of_app in Hin as [|Hin]; [done|].
        destruct Htail. apply list_elem_of_fmap. by exists (k, v).
    + apply overlay_lookup_ne.
      intros [[k' v'] [Hk' Hin]]%list_elem_of_fmap. simpl in Hk'. subst k'.
      apply accepted_elem in Hin as [_ Hin].
      apply diffEntries_elem, objectDiff_lookup in Hin as [Hv' _]. congruence.
Qed.

Lemma refused_nil old new :
  (∀ k, new !! k ≠ Some VUndefined) → refused old new = [].
Proof.
  intros Hdefined. unfold refused. rewrite diffEntries_accepted.
  - by rewrite drop_all.
  - intros k [Hk _]%objectDiff_lookup. by apply (Hdefined k).
Qed.

(** After a pass run on its own, the same snapshot has nothing left that
    a second pass would write. *)
Lemma written_again old new :
  accepted (diffEntries (overlay (accepted (diffEntries old new)) old) new) = [].
Proof.
  set (old1 := overlay (accepted (diffEntries old new)) old).
  assert (Hold1 : ∀ k, old1 !! k
                      = if decide (k ∈ refused old new) then old !! k
                        else match new !! k with Some v => Some v | None => old !! k end)
    by apply written_lookup.
  unfold diffEntries at 1.
  rewrite (filter_narrow _ (λ kv, old !! kv.1 ≠ Some kv.2)).
  2:{ intros [k v] Hin Hne Hsame. simpl in *. apply Hne.
      apply entriesOf_elem in Hin. rewrite Hold1, Hin. by destruct (decide _). }
  fold (diffEntries old new).
  destruct (accepted_prefix (diffEntries old new)) as [Hsplit Htail].
  assert (Hwritten : filter (λ kv, old1 !! kv.1 ≠ Some kv.2) (accepted (diffEntries old new))
                     = []).
  { apply filter_none. intros [k v] Hin Hne. simpl in Hne. apply Hne.
    pose proof (diffEntries_NoDup old new) as Hnodup.
    rewrite Hsplit, fmap_app in Hnodup. apply NoDup_app in Hnodup as (Hacc & _ & _).
    by apply overlay_lookup. }
  rewrite Hsplit at 1. rewrite filter_app, Hwritten. simpl.
  destruct Htail as [->|(k & rest & Htail)]; [done|].
  rewrite Htail, filter_cons. destruct (decide _) as [|Hsame]; [done|].
  destruct Hsame. simpl.
  assert (Hin : (k, VUndefined) ∈ diffEntries old new).
  { rewrite Hsplit, Htail. apply elem_of_app. right. apply list_elem_of_here. }
  apply diffEntries_elem, objectDiff_lookup in Hin as [_ Hne].
  rewrite Hold1, decide_True; [done|].
  unfold refused. rewrite Htail. apply list_elem_of_here.
Qed.

(** The snapshot that a pass gets does not depend on the state of the
    cache. *)
Lemma fetch_value ep cId attrs reported w0 w w0' w' :
  (fetch (startPass ep cId attrs reported w0) w).1
  = (fetch (startPass ep cId attrs reported w0') w').1.
Proof. by destruct attrs. Qed.

(** A pass changes nothing in a world whose tables are those left by the
    same pass. *)
Lemma pass_silent_after ep cId attrs reported w0 w' :
  tables w' = tables (_updateFinalizer ep cId attrs reported w0) →
  tables (_updateFinalizer ep cId attrs reported w') = tables w'
  ∧ indLog (_updateFinalizer ep cId attrs reported w') = indLog w'.
Proof.
  intros Htables. apply (cache_tables _ _ ep cId) in Htables as Hcache.
  destruct ((fetch (startPass ep cId attrs reported w') w').1) as [new|e] eqn:Hnew.
  2:{ rewrite (pass_alone_rejected _ _ _ _ _ e) by done.
      by rewrite fetch_tables, fetch_indLog. }
  assert (Hnew0 : (fetch (startPass ep cId attrs reported w0) w0).1 = Resolved new)
    by (by rewrite (fetch_value _ _ _ _ _ _ w' w')).
  destruct (cache w0 ep cId) as [old|] eqn:Hold.
  - rewrite (pass_alone_cache _ _ _ _ _ old new) in Hcache by done.
    rewrite (pass_alone _ _ _ _ _ _ new Hnew Hcache). cbv zeta.
    rewrite written_again, decide_True by done.
    by rewrite fetch_tables, fetch_indLog.
  - rewrite pass_alone_no_cluster in Hcache by done.
    rewrite (cache_tables (fetch _ w0).2 w0) in Hcache by apply fetch_tables.
    rewrite Hold in Hcache.
    rewrite pass_alone_no_cluster by done.
    by rewrite fetch_tables, fetch_indLog.
Qed.

Lemma pass_other_endpoint ep cId attrs reported w ep' :
  ep' ≠ ep →
  getClusters (_updateFinalizer ep cId attrs reported w) ep' = getClusters w ep'.
Proof.
  intros Hne. apply map_eq. intros cid'. apply pass_frame. congruence.
Qed.

Lemma foundation_frame srcEp ep cId cmd data w ep' cid' :
  (ep', cid') ≠ (ep, clusterKey cId) →
  getClusters (_foundation srcEp ep cId cmd data w).2 ep' !! cid'
  = getClusters w ep' !! cid'.
Proof.
  intros Hother. unfold _foundation.
  destruct (af_zclFoundation _ _ _ _ _); [|done]. simpl.
  repeat case_decide; by rewrite ?pass_frame.
Qed.

(** X1.  A pass of [_updateFinalizer] for a cluster of an endpoint, and so
    a foundation request to that endpoint or a report from it, leaves what
    is cached for every other cluster and every other endpoint as it is. *)
Theorem pass_touches_one_cluster ep cId ep' cid' :
  (ep', cid') ≠ (ep, clusterKey cId) →
  (∀ attrs reported w,
     getClusters (_updateFinalizer ep cId attrs reported w) ep' !! cid'
     = getClusters w ep' !! cid')
  ∧ (∀ srcEp cmd data w,
       getClusters (_foundation srcEp ep cId cmd data w).2 ep' !! cid'
       = getClusters w ep' !! cid')
  ∧ (∀ attrs w,
       getClusters (on_ind_reported ep cId attrs w) ep' !! cid'
       = getClusters w ep' !! cid').
Proof.
  intros Hother. split; [|split].
  - intros attrs reported w. by apply pass_frame.
  - intros srcEp cmd data w. by apply foundation_frame.
  - intros attrs w. rewrite on_ind_reported_pass. by rewrite pass_frame.
Qed.

(** X2.  The end of a pass of [_updateFinalizer], whatever has happened to
    the cache since the pass was called.  Either no event is emitted, and
    then the tables are as they were unless the new snapshot holds
    [undefined] for an attribute of the diff (the entries of the diff
    before it have then been written).  Or one [devChange] is emitted; it
    carries the diff of the new snapshot against the attributes dumped at
    the call, which is not empty; every entry of it has a value other than
    [undefined], differs from the dump and is cached afterwards; the other
    attributes are cached as they were just before.  When the dump is
    still what is cached, a [devChange] comes with a change of the tables. *)
Theorem cache_changes_with_devChange p fetched w :
  let w' := finishPass p fetched w in
  let ep := pass_ep p in
  let cId := pass_cId p in
  ((indLog w' = indLog w
    ∧ (tables w' = tables w
       ∨ ∃ old new k,
           fetched = Resolved new
           ∧ pass_clusters p !! clusterKey cId = Some old
           ∧ new !! k = Some VUndefined
           ∧ old !! k ≠ Some VUndefined))
   ∨ ∃ old new now,
       fetched = Resolved new
       ∧ pass_clusters p !! clusterKey cId = Some old
       ∧ indLog w' = indLog w ++ [DevChange ep (clusterKey cId) (objectDiff old new)]
       ∧ objectDiff old new ≠ ∅
       ∧ cache w' ep cId = Some now
       ∧ (∀ k v, objectDiff old new !! k = Some v →
                 v ≠ VUndefined ∧ old !! k ≠ Some v ∧ now !! k = Some v)
       ∧ (∀ k, objectDiff old new !! k = None →
               now !! k = default ∅ (cache w ep cId) !! k))
  ∧ (pass_clusters p = getClusters w ep → indLog w' ≠ indLog w → tables w' ≠ tables w).
Proof.
  cbv zeta.
  assert (Hcases :
    (indLog (finishPass p fetched w) = indLog w
     ∧ (tables (finishPass p fetched w) = tables w
        ∨ ∃ old new k,
            fetched = Resolved new
            ∧ pass_clusters p !! clusterKey (pass_cId p) = Some old
            ∧ new !! k = Some VUndefined
            ∧ old !! k ≠ Some VUndefined))
    ∨ ∃ old new now,
        fetched = Resolved new
        ∧ pass_clusters p !! clusterKey (pass_cId p) = Some old
        ∧ indLog (finishPass p fetched w)
          = indLog w ++ [DevChange (pass_ep p) (clusterKey (pass_cId p)) (objectDiff old new)]
        ∧ objectDiff old new ≠ ∅
        ∧ cache (finishPass p fetched w) (pass_ep p) (pass_cId p) = Some now
        ∧ (∀ k v, objectDiff old new !! k = Some v →
                  v ≠ VUndefined ∧ old !! k ≠ Some v ∧ now !! k = Some v)
        ∧ (∀ k, objectDiff old new !! k = None →
                now !! k = default ∅ (cache w (pass_ep p) (pass_cId p)) !! k)).
  { destruct (finishPass_cases p fetched w)
      as [->|(old & new & -> & Hold & Hdiff & Hacc & [[Hall ->]|[Hsome ->]])].
    - left. by auto.
    - right. eexists old, new, _. split; [done|]. split; [done|]. split; [done|].
      split; [done|]. rewrite cache_emit, cache_withAttrs. split; [done|]. split.
      + intros k v Hk. rewrite Hall.
        assert (Hin : (k, v) ∈ diffEntries old new) by (by apply diffEntries_elem).
        split.
        { apply accepted_all in Hall. rewrite Forall_forall in Hall.
          by apply (Hall (k, v)). }
        split; [by apply objectDiff_lookup in Hk as [_ ?]|].
        apply overlay_lookup; [apply diffEntries_NoDup|done].
      + intros k Hk. rewrite Hall. apply overlay_lookup_ne.
        intros [[k' v'] [Hk' Hin]]%list_elem_of_fmap. simpl in Hk'. subst k'.
        apply diffEntries_elem in Hin. congruence.
    - left. split; [done|]. right.
      destruct (accepted_split (diffEntries old new)) as [|(k & rest & Hsplit)]; [done|].
      assert (Hin : (k, VUndefined) ∈ diffEntries old new).
      { rewrite Hsplit. apply elem_of_app. right. apply list_elem_of_here. }
      apply diffEntries_elem, objectDiff_lookup in Hin as [Hnew Hne].
      by exists old, new, k. }
  split; [exact Hcases|].
  intros Hdump Hlog Htables.
  destruct Hcases as [[Hsame _]|(old & new & now & _ & Hold & _ & Hdiff & Hnow & Hin & _)];
    [done|].
  apply map_choose in Hdiff as (k & v & Hk).
  destruct (Hin k v Hk) as (_ & Hwas & Hnew).
  apply (cache_tables _ _ (pass_ep p) (pass_cId p)) in Htables.
  rewrite Hnow in Htables. unfold cache in Htables. rewrite <-Hdump, Hold in Htables.
  congruence.
Qed.

(** X3.  Repeating a foundation request that is answered as before caches
    nothing new and emits nothing: after the first request, the second
    leaves the tables and the event log as it found them. *)
Theorem repeated_request_is_silent srcEp dstEp cId cmd data w :
  let w1 := (_foundation srcEp dstEp cId cmd data w).2 in
  let w2 := (_foundation srcEp dstEp cId cmd data w1).2 in
  tables w2 = tables w1 ∧ indLog w2 = indLog w1.
Proof.
  simpl. unfold _foundation.
  destruct (af_zclFoundation _ _ _ _ _) as [msg|]; [|done]. simpl.
  set (req := ZclFoundation srcEp dstEp cId cmd data).
  repeat case_decide; try done;
    match goal with
    | |- context [_updateFinalizer ?ep ?c ?attrs false (send req ?w0)] =>
        apply (pass_silent_after ep c attrs false (send req w0)
                 (send req (_updateFinalizer ep c attrs false (send req w0))));
        reflexivity
    end.
Qed.

Lemma newAttrsOf_one cId rec :
  newAttrsOf cId false [rec]
  = {[ attrKey cId rec := if decide (status rec = Some 0%Z) then attrData rec else VNull ]}.
Proof. reflexivity. Qed.

(** X4.  What a read answered with one record caches, with the cluster in
    the endpoint's table: the value the read resolves with, unless that is
    [undefined], which the table refuses, so that the attribute stays as it
    was; [null] when the read rejects.  No other attribute of the cluster
    changes. *)
Theorem read_caches_what_it_returns ep cId attrId w msg rec old :
  readIsRead →
  af_zclFoundation ep ep cId (Name "read") (ReadData [attrIdValue cId attrId])
  = Resolved msg →
  payload msg = [rec] →
  cache w ep cId = Some old →
  ∃ new,
    cache (read ep cId attrId w).2 ep cId = Some new
    ∧ (∀ k, k ≠ attrKey cId rec → new !! k = old !! k)
    ∧ match (read ep cId attrId w).1 with
      | Resolved v =>
          if decide (v = VUndefined) then new !! attrKey cId rec = old !! attrKey cId rec
          else new !! attrKey cId rec = Some v
      | Rejected _ => new !! attrKey cId rec = Some VNull
      end.
Proof.
  intros Hread Haf Hpayload Hold.
  rewrite read_world, (foundation_read_world _ _ _ _ _ msg) by done.
  rewrite read_result, Haf. simpl. rewrite Hpayload.
  eexists. split.
  { apply (pass_alone_cache _ _ _ _ _ old (newAttrsOf cId false [rec]));
      [by rewrite fetch_records|by rewrite cache_send]. }
  assert (Hlookup := written_lookup old (newAttrsOf cId false [rec])).
  rewrite newAttrsOf_one in *.
  set (x := if decide (status rec = Some 0%Z) then attrData rec else VNull) in *.
  assert (Hrefused : ∀ k, k ∈ refused old {[attrKey cId rec := x]} →
                          k = attrKey cId rec ∧ x = VUndefined).
  { unfold refused. intros k [[k' v'] [Hk' Hin]]%list_elem_of_fmap. simpl in Hk'. subst k'.
    destruct (accepted_prefix (diffEntries old {[attrKey cId rec := x]}))
      as [Hsplit [Hnil|(k0 & rest & Htail)]].
    { rewrite Hnil in Hin. by apply elem_of_nil in Hin. }
    assert (Hall : ∀ kv, kv ∈ diffEntries old {[attrKey cId rec := x]} →
                         kv.1 = attrKey cId rec ∧ kv.2 = x).
    { intros [k1 v1] Hkv. apply diffEntries_elem, objectDiff_lookup in Hkv as [Hkv _].
      apply lookup_singleton_Some in Hkv as [<- <-]. done. }
    destruct (Hall (k, v')) as [Hk _].
    { rewrite Hsplit. apply elem_of_app. by right. }
    destruct (Hall (k0, VUndefined)) as [_ Hx].
    { rewrite Hsplit, Htail. apply elem_of_app. right. apply list_elem_of_here. }
    simpl in *. by split. }
  split.
  - intros k Hk. rewrite Hlookup, lookup_singleton_ne by done.
    by destruct (decide (k ∈ _)).
  - rewrite Hlookup, lookup_singleton_eq.
    subst x. destruct (decide (status rec = Some 0%Z)) as [Hst|Hst].
    + destruct (decide (attrData rec = VUndefined)) as [Hundef|Hdef].
      * destruct (decide (attrKey cId rec ∈ refused old _)) as [|Hno]; [done|].
        rewrite Hundef in *.
        (* the entry is in the diff exactly when the cached value is not
           [undefined]; it is then refused *)
        destruct (decide (old !! attrKey cId rec = Some VUndefined)) as [->|Hne]; [done|].
        destruct Hno. unfold refused.
        assert (Hin : (attrKey cId rec, VUndefined)
                      ∈ diffEntries old {[attrKey cId rec := VUndefined]}).
        { apply diffEntries_elem, objectDiff_lookup.
          by rewrite lookup_singleton_eq. }
        destruct (accepted_prefix (diffEntries old {[attrKey cId rec := VUndefined]}))
          as [Hsplit _].
        rewrite Hsplit in Hin. apply elem_of_app in Hin as [Hin|Hin].
        { by apply accepted_elem in Hin as [? _]. }
        apply list_elem_of_fmap. by exists (attrKey cId rec, VUndefined).
      * destruct (decide (_ ∈ refused old _)) as [Hin|]; [|done].
        by apply Hrefused in Hin as [_ ?].
    + destruct (decide (_ ∈ refused old _)) as [Hin|]; [|done].
      by apply Hrefused in Hin as [_ ?].
Qed.

Lemma foundation_write_world srcEp dstEp cId data w msg :
  writeIsWrite →
  af_zclFoundation srcEp dstEp cId (Name "write") data = Resolved msg →
  (_foundation srcEp dstEp cId (Name "write") data w).2
  = _updateFinalizer dstEp cId None false
      (send (ZclFoundation srcEp dstEp cId (Name "write") data) w).
Proof.
  intros Hwrite Haf. unfold _foundation. rewrite Haf. simpl.
  destruct (zclId_foundation (Name "write")) as [it|] eqn:Hit.
  - rewrite (Hwrite it Hit). rewrite decide_False by done. by rewrite decide_True by auto.
  - rewrite decide_False by done. by rewrite decide_True by auto.
Qed.

(** X5.  [ep.write]: for an attribute whose number or whose type the
    catalog does not know the call throws before anything is sent.
    Otherwise one [write] request goes out; when the AF layer rejects it
    the promise rejects likewise and no refresh is asked for; when it
    answers, the attributes of the cluster are asked of the device whatever
    the status of the answer, and the promise resolves with the data the
    caller gave on status 0 and rejects with ['request unsuccess: ' + status]
    otherwise. *)
Theorem write_outcome ep cId attrId data w :
  writeIsWrite →
  match zclId_attr cId attrId, zclId_attrType cId attrId with
  | Some attr, Some attrType =>
      let zclData := WriteData [(Num (value attr), value attrType, data)] in
      let req := ZclFoundation ep ep cId (Name "write") zclData in
      ∃ out,
        write ep cId attrId data w = Return out
        ∧ match af_zclFoundation ep ep cId (Name "write") zclData with
          | Rejected e =>
              out.1 = Rejected e ∧ afLog out.2 = afLog w ++ [req]
              ∧ tables out.2 = tables w ∧ indLog out.2 = indLog w
          | Resolved msg =>
              afLog out.2 = afLog w ++ [req; ZclClusterAttrsReq ep cId]
              ∧ ∀ rec rest,
                  payload msg = rec :: rest →
                  if decide (status rec = Some 0%Z) then out.1 = Resolved data
                  else out.1
                       = Rejected (Error ("request unsuccess: " +:+ showField (status rec)))
          end
  | _, _ =>
      write ep cId attrId data w
      = Throw (TypeError "Cannot read properties of undefined (reading 'value')")
  end.
Proof.
  intros Hwrite. unfold write.
  destruct (zclId_attr cId attrId) as [attr|]; [|done].
  destruct (zclId_attrType cId attrId) as [attrType|]; [|done]. simpl.
  set (zclData := WriteData _).
  pose proof (foundation_result ep ep cId (Name "write") zclData w) as Hres.
  pose proof (foundation_write_world ep ep cId zclData w) as Hworld.
  destruct (af_zclFoundation ep ep cId (Name "write") zclData) as [msg|e] eqn:Haf.
  - specialize (Hworld msg Hwrite eq_refl).
    destruct (_foundation _ _ _ _ _ _) as [rsp w']. simpl in *. subst rsp w'.
    eexists. split; [done|]. simpl. split.
    + rewrite updateFinalizer_afLog_query. simpl. by rewrite <-app_assoc.
    + intros rec rest ->. by destruct (decide _).
  - clear Hworld. unfold _foundation in *. rewrite Haf in *. simpl in *.
    eexists. split; [done|]. done.
Qed.

(** X6.  What [ep.write] leaves in the cache is what the device reports
    afterwards, not what was written: when the write is answered and the
    cluster is cached, every attribute the device reports is cached with
    the reported value and the others stay, but for the attributes the
    table refuses (those of the diff from the first [undefined] value on,
    none when the device reports no [undefined]), which stay as they were;
    when the attribute query fails the cache stays as it was. *)
Theorem write_caches_device_answer ep cId attrId data w attr attrType msg old out :
  writeIsWrite →
  zclId_attr cId attrId = Some attr →
  zclId_attrType cId attrId = Some attrType →
  af_zclFoundation ep ep cId (Name "write")
    (WriteData [(Num (value attr), value attrType, data)])
  = Resolved msg →
  cache w ep cId = Some old →
  write ep cId attrId data w = Return out →
  ∃ new,
    cache out.2 ep cId = Some new
    ∧ match af_zclClusterAttrsReq ep cId with
      | Resolved snapshot =>
          (∀ k, new !! k
                = if decide (k ∈ refused old snapshot) then old !! k
                  else match snapshot !! k with Some v => Some v | None => old !! k end)
          ∧ ((∀ k, snapshot !! k ≠ Some VUndefined) → refused old snapshot = [])
      | Rejected _ => new = old ∧ indLog out.2 = indLog w
      end.
Proof.
  intros Hwrite Hattr Htype Haf Hold. unfold write. rewrite Hattr, Htype.
  pose proof (foundation_write_world ep ep cId _ w msg Hwrite Haf) as Hworld.
  destruct (_foundation _ _ _ _ _ _) as [rsp w']. simpl in Hworld. subst w'.
  intros [= <-]. simpl.
  destruct (af_zclClusterAttrsReq ep cId) as [snapshot|e] eqn:Hsnap.
  - eexists. split.
    + apply (pass_alone_cache _ _ _ _ _ old snapshot);
        [by rewrite fetch_query|by rewrite cache_send].
    + split; [apply written_lookup|apply refused_nil].
  - rewrite (pass_alone_rejected _ _ _ _ _ e) by (by rewrite fetch_query).
    rewrite fetch_query. simpl. exists old. done.
Qed.

(** X7.  [ep.report] throws only when report arguments are given for an
    attribute whose type the catalog does not know.  Otherwise it never
    touches the cache and emits no event; it sends at most one request, the
    [configReport], and only with a delegator for the endpoint's profile, a
    bind that succeeded and the report arguments given. *)
Theorem report_leaves_cache `{Binder} ep cId args w :
  (∀ it, zclId_foundation (Name "configReport") = Some it → key it = "configReport") →
  match report ep cId args w with
  | Throw e =>
      e = TypeError "Cannot read properties of undefined (reading 'value')"
      ∧ ∃ a, args = Some a ∧ zclId_attrType cId (rpt_attrId a) = None
  | Return out =>
      tables out.2 = tables w
      ∧ indLog out.2 = indLog w
      ∧ (afLog out.2 = afLog w
         ∨ ∃ dlg a rec,
             args = Some a
             ∧ cfgRptRecOf cId a = Some rec
             ∧ coord_getDelegator (ep_getProfId ep) = Some dlg
             ∧ ctl_bind ep cId dlg = Resolved tt
             ∧ afLog out.2
               = afLog w
                 ++ [ZclFoundation ep ep cId (Name "configReport") (CfgRptData [rec])])
  end.
Proof.
  intros Hcfg. unfold report.
  assert (Hquiet : ∀ cfgRptRec,
            (cfgRptRec = None ∨ ∃ a, args = Some a ∧ cfgRptRecOf cId a = cfgRptRec) →
            let out := reportChain ep cId cfgRptRec w in
            tables out.2 = tables w
            ∧ indLog out.2 = indLog w
            ∧ (afLog out.2 = afLog w
               ∨ ∃ dlg a rec,
                   args = Some a
                   ∧ cfgRptRecOf cId a = Some rec
                   ∧ coord_getDelegator (ep_getProfId ep) = Some dlg
                   ∧ ctl_bind ep cId dlg = Resolved tt
                   ∧ afLog out.2
                     = afLog w
                       ++ [ZclFoundation ep ep cId (Name "configReport")
                             (CfgRptData [rec])])).
  { intros cfgRptRec Hrec. simpl. unfold reportChain.
    destruct (coord_getDelegator _) as [dlg|]; [|by auto].
    destruct (ctl_bind ep cId dlg) as [[]|] eqn:Hbind; [|by auto].
    destruct cfgRptRec as [rec|]; [|by auto].
    destruct Hrec as [|(a & Hargs & Hrec)]; [done|].
    assert (Hworld : (_foundation ep ep cId (Name "configReport") (CfgRptData [rec]) w).2
                     = send (ZclFoundation ep ep cId (Name "configReport")
                               (CfgRptData [rec])) w).
    { unfold _foundation. destruct (af_zclFoundation _ _ _ _ _); [|done]. simpl.
      destruct (zclId_foundation (Name "configReport")) as [it|] eqn:Hit.
      - rewrite (Hcfg it eq_refl). rewrite decide_False by done.
        rewrite decide_False; [done|]. by intros [|[|]].
      - rewrite decide_False by done.
        rewrite decide_False; [done|]. by intros [|[|]]. }
    destruct (_foundation _ _ _ _ _ _) as [rsp w']. simpl in Hworld. subst w'.
    assert (Hsent : ∀ o : reportOutcome,
              let out := (o, send (ZclFoundation ep ep cId (Name "configReport")
                                     (CfgRptData [rec])) w) in
              tables out.2 = tables w ∧ indLog out.2 = indLog w
              ∧ (afLog out.2 = afLog w
                 ∨ ∃ dlg0 a0 rec0,
                     args = Some a0
                     ∧ cfgRptRecOf cId a0 = Some rec0
                     ∧ Some dlg = Some dlg0
                     ∧ ctl_bind ep cId dlg0 = Resolved tt
                     ∧ afLog out.2
                       = afLog w
                         ++ [ZclFoundation ep ep cId (Name "configReport")
                               (CfgRptData [rec0])])).
    { intros o. simpl. repeat split. right. by exists dlg, a, rec. }
    destruct rsp as [[|r rest]|e]; try apply Hsent.
    destruct (status r) as [st|]; [|apply Hsent].
    destruct (decide _); [apply Hsent|].
    destruct (zclId_status st); apply Hsent. }
  destruct args as [a|].
  - destruct (cfgRptRecOf cId a) as [rec|] eqn:Hrec.
    + apply Hquiet. right. by exists a.
    + split; [done|]. exists a. split; [done|].
      unfold cfgRptRecOf in Hrec. by destruct (zclId_attrType cId (rpt_attrId a)).
  - apply Hquiet. by left.
Qed.

Lemma reported_names cId attrs :
  namesAgree cId → reportData cId attrs = newAttrsOf cId true attrs.
Proof.
  intros Hagree. unfold reportData, newAttrsOf.
  generalize (∅ : gmap string jsval).
  induction attrs as [|rec attrs IH]; intros acc; [done|].
  cbn [foldl]. rewrite <-IH. unfold attrKey. by rewrite Hagree.
Qed.

(** X8.  An attribute report is always published, and first: [ind:reported]
    emits one [attReport] carrying the reported values under the cluster's
    name, and the pass it has started emits at most one [devChange] behind
    it, which names only attributes of the report.  With the cluster not
    cached nothing else happens.  With the cluster cached, and the pass run
    with nothing else in between, there is no [devChange] exactly when
    every value reported is the one cached or the table refuses a value
    that differs from the cached one; and when no value reported is
    [undefined], every value published is the value cached afterwards. *)
Theorem report_is_published ep cId attrs w :
  namesAgree cId →
  let w' := on_ind_reported ep cId attrs w in
  let data := newAttrsOf cId true attrs in
  ∃ changes,
    indLog w' = indLog w ++ AttReport ep (clusterKey cId) data :: changes
    ∧ match cache w ep cId with
      | None => changes = [] ∧ tables w' = tables w
      | Some old =>
          (changes = []
           ∨ ∃ diff, changes = [DevChange ep (clusterKey cId) diff] ∧ diff ⊆ data)
          ∧ (changes = []
             ↔ data ⊆ old
               ∨ ∃ k, data !! k = Some VUndefined ∧ old !! k ≠ Some VUndefined)
          ∧ ∃ new, cache w' ep cId = Some new
                   ∧ ((∀ k, data !! k ≠ Some VUndefined) → data ⊆ new)
      end.
Proof.
  intros Hagree. cbv zeta. rewrite on_ind_reported_pass.
  rewrite (reported_names cId attrs Hagree).
  set (data := newAttrsOf cId true attrs).
  set (w1 := emit (AttReport ep (clusterKey cId) data) w).
  assert (Hcache1 : cache w1 ep cId = cache w ep cId) by apply cache_emit.
  destruct (cache w ep cId) as [old|] eqn:Hold.
  - assert (Hfetch : (fetch (startPass ep cId (Some attrs) true w1) w1).1 = Resolved data)
      by (by rewrite fetch_records).
    rewrite (pass_alone_cache _ _ _ _ _ old data Hfetch Hcache1).
    rewrite (pass_alone _ _ _ _ _ old data Hfetch Hcache1). cbv zeta.
    rewrite fetch_records. cbn [snd].
    assert (Hsub : (∀ k, data !! k ≠ Some VUndefined) →
                   data ⊆ overlay (accepted (diffEntries old data)) old).
    { intros Hdefined. apply map_subseteq_spec. intros k v Hk.
      by rewrite written_lookup, (refused_nil _ _ Hdefined), decide_False, Hk
        by apply not_elem_of_nil. }
    assert (Hempty : diffEntries old data = [] ↔ data ⊆ old).
    { rewrite diffEntries_nil, objectDiff_empty. symmetry. apply map_subseteq_spec. }
    assert (Hundef : accepted (diffEntries old data) ≠ diffEntries old data
                     ↔ ∃ k, data !! k = Some VUndefined ∧ old !! k ≠ Some VUndefined).
    { split.
      - intros Hne.
        destruct (accepted_split (diffEntries old data)) as [|(k & rest & Hsplit)]; [done|].
        exists k. apply objectDiff_lookup, diffEntries_elem.
        rewrite Hsplit. apply elem_of_app. right. apply list_elem_of_here.
      - intros (k & Hk & Hne) Hall. apply accepted_all in Hall.
        rewrite Forall_forall in Hall.
        apply (Hall (k, VUndefined)); [|done].
        by apply diffEntries_elem, objectDiff_lookup. }
    destruct (decide (accepted (diffEntries old data) = [])) as [Hnil|Hwritten].
    + exists []. split; [done|]. split; [by left|]. split; [|by eauto].
      split; [|done]. intros _.
      destruct (decide (diffEntries old data = [])) as [He|Hne].
      * left. by apply Hempty.
      * right. apply Hundef. by rewrite Hnil.
    + destruct (decide (accepted (diffEntries old data) = diffEntries old data))
        as [Hall|Hsome].
      * eexists [_]. split; [simpl; by rewrite <-app_assoc|]. split.
        { right. eexists. split; [done|]. apply map_filter_subseteq. }
        split; [|by eauto].
        split; [done|]. intros [Hsubset|Hrefused]; exfalso.
        -- apply Hempty in Hsubset. rewrite Hsubset in Hwritten. done.
        -- by apply Hundef in Hrefused.
      * exists []. split; [done|]. split; [by left|]. split; [|by eauto].
        split; [|done]. intros _. right. by apply Hundef.
  - rewrite updateFinalizer_no_cluster by done. by exists [].
Qed.

(** X9.  A request of a mounted application refreshes the cache of its
    destination only: for every endpoint other than the one found for the
    destination address and endpoint id (every endpoint, when none is
    found) the cluster table is as before, after [zApp.foundation] and
    after [zApp.functional] alike. *)
Theorem zApp_requests_touch_destination_only `{Endpoint.Endpoints} `{AfFunctional}
    box _endpoint dstAddr dstEpId cId cmd data zclData c w ep' :
  Endpoint.find box dstAddr dstEpId ≠ Some ep' →
  getClusters (zApp_foundation box _endpoint dstAddr dstEpId cId cmd data w).2 ep'
  = getClusters w ep'
  ∧ getClusters (zApp_functional box _endpoint dstAddr dstEpId cId cmd zclData c w).2 ep'
    = getClusters w ep'.
Proof.
  intros Hother. unfold zApp_foundation, zApp_functional.
  destruct (Endpoint.find box dstAddr dstEpId) as [dstEp|]; [|done].
  assert (Hne : ep' ≠ dstEp) by congruence.
  split.
  - apply map_eq. intros cid'. apply foundation_frame. congruence.
  - unfold _functional. destruct (af_zclFunctional _ _ _ _ _ _); [|done]. simpl.
    case_decide; [|done]. by apply pass_other_endpoint.
Qed.

End WithInterfaces.

Lemma demo_writeIsWrite : writeIsWrite (H := Demo.catalog).
Proof. intros it. vm_compute. by intros [= <-]. Defined.

Lemma demo_namesAgree : namesAgree (H := Demo.catalog) (Name "genBasic").
Proof. intros a. reflexivity. Defined.

(** Two reports of the same value that arrive before the pass of the first
    has run: both passes compare with the dump made at their call, both
    emit a [devChange], and the second changes nothing in the cache. *)
Lemma stale_dump_emits_again :
  let w := Demo.cached {[ "hwVersion" := VNum 2400 ]} in
  let recs := [AttrRec 3 None (Some 33%Z) (VNum 2401)] in
  let p := startPass 1 (Name "genBasic") (Some recs) true w in
  let new := newAttrsOf (H := Demo.catalog) (Name "genBasic") true recs in
  let w1 := finishPass (H := Demo.catalog) (keyOrder := Demo.order) p (Resolved new) w in
  let w2 := finishPass (H := Demo.catalog) (keyOrder := Demo.order) p (Resolved new) w1 in
  indLog w1 = [DevChange 1 "genBasic" {[ "hwVersion" := VNum 2401 ]}]
  ∧ indLog w2 = indLog w1 ++ [DevChange 1 "genBasic" {[ "hwVersion" := VNum 2401 ]}]
  ∧ tables w2 = tables w1.
Proof. by vm_compute. Qed.

(** A snapshot with an [undefined] value behind a defined one: the defined
    value is cached, and no [devChange] tells of it. *)
Lemma refused_value_hides_change :
  let w := Demo.cached {[ "hwVersion" := VNum 2400 ]} in
  let snapshot : gmap string jsval :=
    {[ "zclVersion" := VNum 8; "hwVersion" := VUndefined ]} in
  let dev := Demo2.device [AttrRec 3 (Some 0%Z) None VUndefined] snapshot in
  let w' := _updateFinalizer (H := Demo.catalog) (H0 := dev) (keyOrder := Demo.order)
              1 (Name "genBasic") None false w in
  entriesOf (KeyOrder := Demo.order) snapshot
  = [("zclVersion", VNum 8); ("hwVersion", VUndefined)]
  ∧ cache (H := Demo.catalog) w' 1 (Name "genBasic")
    = Some {[ "zclVersion" := VNum 8; "hwVersion" := VNum 2400 ]}
  ∧ indLog w' = [].
Proof. by vm_compute. Qed.

(** X1 at work: a report for [genBasic] leaves [genOnOff] of the same
    endpoint as it was. *)
Lemma pass_touches_one_cluster_witness :
  getClusters
    (on_ind_reported (H := Demo.catalog) (H0 := Demo.answering []) (keyOrder := Demo.order)
       1 (Name "genBasic") [AttrRec 3 None (Some 33%Z) (VNum 2401)] Demo2.twoClusters)
    1 !! "genOnOff"
  = Some {[ "onOff" := VNum 1 ]}.
Proof.
  refine (proj2 (proj2 (pass_touches_one_cluster (H := Demo.catalog)
                          (H0 := Demo.answering []) (keyOrder := Demo.order)
                          1 (Name "genBasic") 1 "genOnOff" _))
            [AttrRec 3 None (Some 33%Z) (VNum 2401)] Demo2.twoClusters).
  vm_compute. intros Heq. discriminate Heq.
Defined.

(** X4 at work: the hardware version read over a cached 2300. *)
Lemma read_caches_what_it_returns_witness :
  ∃ new,
    cache (H := Demo.catalog)
      (read (H := Demo.catalog) (H0 := Demo.answering [Demo.hwVersionOk])
         (keyOrder := Demo.order) 1 (Name "genBasic") (Name "hwVersion")
         (Demo.cached {[ "hwVersion" := VNum 2300 ]})).2
      1 (Name "genBasic") = Some new
    ∧ new !! "hwVersion" = Some (VNum 2400).
Proof.
  destruct (read_caches_what_it_returns (H := Demo.catalog)
              (H0 := Demo.answering [Demo.hwVersionOk]) (keyOrder := Demo.order)
              1 (Name "genBasic") (Name "hwVersion")
              (Demo.cached {[ "hwVersion" := VNum 2300 ]})
              (AfMsg [Demo.hwVersionOk]) Demo.hwVersionOk {[ "hwVersion" := VNum 2300 ]}
              demo_readIsRead eq_refl eq_refl eq_refl)
    as (new & Hcache & _ & Hvalue).
  exists new. split; [exact Hcache|exact Hvalue].
Defined.

(** X5 at work: writing 7 to the hardware version of a device that
    accepts it. *)
Lemma write_outcome_witness :
  ∃ out,
    write (H := Demo.catalog)
      (H0 := Demo2.device [AttrRec 3 (Some 0%Z) None VUndefined] {[ "hwVersion" := VNum 8 ]})
      (keyOrder := Demo.order)
      1 (Name "genBasic") (Name "hwVersion") (VNum 7) (Demo.cached ∅)
    = Return out
    ∧ afLog out.2
      = [ZclFoundation 1 1 (Name "genBasic") (Name "write")
           (WriteData [(Num 3, 32%Z, VNum 7)]);
         ZclClusterAttrsReq 1 (Name "genBasic")]
    ∧ out.1 = Resolved (VNum 7).
Proof.
  destruct (write_outcome (H := Demo.catalog)
              (H0 := Demo2.device [AttrRec 3 (Some 0%Z) None VUndefined]
                       {[ "hwVersion" := VNum 8 ]})
              (keyOrder := Demo.order)
              1 (Name "genBasic") (Name "hwVersion") (VNum 7) (Demo.cached ∅)
              demo_writeIsWrite)
    as (out & Hout & Hlog & Hres).
  exists out. split; [exact Hout|]. split; [exact Hlog|].
  exact (Hres (AttrRec 3 (Some 0%Z) None VUndefined) [] eq_refl).
Defined.

(** X6 at work: the device accepts the write of 7 and then reports 8; 8 is
    what is cached. *)
Lemma write_caches_device_answer_witness :
  let dev := Demo2.device [AttrRec 3 (Some 0%Z) None VUndefined] {[ "hwVersion" := VNum 8 ]} in
  let w := Demo.cached {[ "hwVersion" := VNum 2400 ]} in
  let out := (Resolved (VNum 7),
              (_foundation (H := Demo.catalog) (H0 := dev) (keyOrder := Demo.order)
                 1 1 (Name "genBasic") (Name "write")
                 (WriteData [(Num 3, 32%Z, VNum 7)]) w).2) in
  write (H := Demo.catalog) (H0 := dev) (keyOrder := Demo.order)
    1 (Name "genBasic") (Name "hwVersion") (VNum 7) w
  = Return out
  ∧ ∃ new, cache (H := Demo.catalog) out.2 1 (Name "genBasic") = Some new
           ∧ new !! "hwVersion" = Some (VNum 8).
Proof.
  intros dev w out. split; [reflexivity|].
  destruct (write_caches_device_answer (H := Demo.catalog) (H0 := dev)
              (keyOrder := Demo.order)
              1 (Name "genBasic") (Name "hwVersion") (VNum 7) w
              (Item "hwVersion" 3) (Item "uint8" 32)
              (AfMsg [AttrRec 3 (Some 0%Z) None VUndefined])
              {[ "hwVersion" := VNum 2400 ]} out
              demo_writeIsWrite eq_refl eq_refl eq_refl eq_refl eq_refl)
    as (new & Hcache & Hnew & _).
  exists new. split; [exact Hcache|]. exact (Hnew "hwVersion").
Defined.

(** X7 at work: a report configuration that the device refuses leaves
    cache and events alone. *)
Lemma report_leaves_cache_witness :
  match report (H := Demo.catalog)
          (H0 := Demo.answering [AttrRec 3 (Some 134%Z) None VUndefined])
          (keyOrder := Demo.order) (H1 := Demo.binder) 1 (Name "genBasic")
          (Some (ReportArgs (Name "hwVersion") (VNum 1) (VNum 60) (VNum 0)))
          Demo2.twoClusters with
  | Return out => tables out.2 = tables Demo2.twoClusters ∧ indLog out.2 = []
  | Throw _ => False
  end.
Proof.
  pose proof (report_leaves_cache (H := Demo.catalog)
                (H0 := Demo.answering [AttrRec 3 (Some 134%Z) None VUndefined])
                (keyOrder := Demo.order) (H1 := Demo.binder) 1 (Name "genBasic")
                (Some (ReportArgs (Name "hwVersion") (VNum 1) (VNum 60) (VNum 0)))
                Demo2.twoClusters) as Hreport.
  destruct (report _ _ _ _) as [out|e] eqn:Hout.
  - destruct Hreport as (Htables & Hind & _).
    + intros it. vm_compute. by intros [= <-].
    + split; [exact Htables|exact Hind].
  - discriminate Hout.
Defined.

(** X8 at work: a report of the hardware version over a cached 2400. *)
Lemma report_is_published_witness :
  ∃ changes,
    indLog (on_ind_reported (H := Demo.catalog) (H0 := Demo.answering [])
              (keyOrder := Demo.order)
              1 (Name "genBasic") [AttrRec 3 None (Some 33%Z) (VNum 2401)]
              Demo2.twoClusters)
    = AttReport 1 "genBasic" {[ "hwVersion" := VNum 2401 ]} :: changes.
Proof.
  destruct (report_is_published (H := Demo.catalog) (H0 := Demo.answering [])
              (keyOrder := Demo.order)
              1 (Name "genBasic") [AttrRec 3 None (Some 33%Z) (VNum 2401)]
              Demo2.twoClusters demo_namesAgree)
    as (changes & Hlog & _).
  exists changes. exact Hlog.
Defined.

(** X9 at work: a request of a mounted application to endpoint 1 of router
    A leaves the cache of endpoint 1 as it is. *)
Lemma zApp_requests_touch_destination_only_witness :
  getClusters
    (zApp_foundation (H := Demo.catalog) (H0 := Demo.answering [Demo.hwVersionOk])
       (keyOrder := Demo.order)
       (H1 := Demo2.endpoints) Demo.box 11 (Registry.Ieee Demo.addrA) 1
       (Name "genBasic") (Name "read") (ReadData [Num 3]) Demo2.twoClusters).2 1
  = getClusters Demo2.twoClusters 1.
Proof.
  refine (proj1 (zApp_requests_touch_destination_only (H := Demo.catalog)
                   (H0 := Demo.answering [Demo.hwVersionOk]) (keyOrder := Demo.order)
                   (H1 := Demo2.endpoints)
                   (H2 := Demo2.functional) Demo.box 11 (Registry.Ieee Demo.addrA) 1
                   (Name "genBasic") (Name "read") (ReadData [Num 3]) VUndefined None
                   Demo2.twoClusters 1 _)).
  vm_compute. intros Heq. discriminate Heq.
Defined.

End RouterMore.

(** ** More of the mount serializer *)

Module MountMore.
Import Mount MountFacts.

Lemma finish_serializer result zApps c s zApp d :
  inFlight s = [(zApp, d)] →
  line s ≡ₚ seq 0 (deferreds s) →
  let s' := finish result zApps c s in
  length (inFlight s') ≤ 1
  ∧ (_mounting s' = true ↔ inFlight s' ≠ [])
  ∧ (_mountQueue s' ≠ [] → inFlight s' ≠ [] ∨ 0 < nextTicks s')
  ∧ line s' ≡ₚ seq 0 (deferreds s').
Proof.
  intros Hfl Hline. unfold line in *. unfold finish. rewrite Hfl in *. simpl in *.
  split; [lia|]. split; [split; [done|by intros []]|]. split.
  - intros Hq. right. rewrite decide_False by done. lia.
  - rewrite fmap_app. simpl. rewrite <-Hline. simpl. by rewrite <-(assoc_L (++)).
Qed.

(** What every reachable state of the serializer satisfies. *)
Lemma serializer_step s e :
  (length (inFlight s) ≤ 1
   ∧ (_mounting s = true ↔ inFlight s ≠ [])
   ∧ (_mountQueue s ≠ [] → inFlight s ≠ [] ∨ 0 < nextTicks s)
   ∧ line s ≡ₚ seq 0 (deferreds s)) →
  length (inFlight (step s e)) ≤ 1
  ∧ (_mounting (step s e) = true ↔ inFlight (step s e) ≠ [])
  ∧ (_mountQueue (step s e) ≠ [] → inFlight (step s e) ≠ [] ∨ 0 < nextTicks (step s e))
  ∧ line (step s e) ≡ₚ seq 0 (deferreds (step s e)).
Proof.
  intros (Hone & Hflag & Hlive & Hline).
  assert (Hsingle : ∀ zApp d rest, inFlight s = (zApp, d) :: rest → rest = []).
  { intros zApp d rest Hfl. rewrite Hfl in Hone. destruct rest; [done|simpl in Hone; lia]. }
  destruct e as [zApp| |ans| |closed]; cbn [step].
  - destruct s as [zApps mounting queue c flight ticks n settledL unc beg nbs].
    unfold line in *. simpl in *.
    unfold mount. cbn -[seq]. destruct mounting; cbn -[seq].
    + split; [done|]. split; [done|]. split.
      { intros _. left. by apply Hflag. }
      rewrite seq_S, fmap_app, <-Hline. simpl. by rewrite !(assoc_L (++)).
    + assert (flight = []) as ->.
      { destruct flight as [|x l]; [done|]. exfalso.
        assert (false = true) by (apply Hflag; done). done. }
      cbn -[seq]. split; [lia|]. split; [done|]. split; [by left|].
      rewrite seq_S, <-Hline. simpl. rewrite <-(assoc_L (++)).
      apply Permutation_app_head. change (n :: queue.*2) with ([n] ++ queue.*2).
      apply Permutation_app_comm.
  - unfold begin. destruct (inFlight s) as [|[zApp d] rest] eqn:Hfl; [by rewrite Hfl|].
    pose proof (Hsingle zApp d rest eq_refl) as ->.
    destruct (begun s); [by rewrite Hfl|].
    unfold firstCallback. destruct (decide _).
    + by apply (finish_serializer _ _ _ _ zApp d).
    + unfold line in *. rewrite Hfl in Hline. by simpl.
  - unfold complete. destruct (inFlight s) as [|[zApp d] rest] eqn:Hfl; [by rewrite Hfl|].
    pose proof (Hsingle zApp d rest eq_refl) as ->.
    destruct (begun s).
    + destruct (laterCallbacks _ _ _) as [result c'].
      by apply (finish_serializer _ _ _ _ zApp d).
    + destruct (chain _ _ _ _) as [[result zApps'] c'].
      by apply (finish_serializer _ _ _ _ zApp d).
  - destruct s as [zApps mounting queue c flight ticks n settledL unc beg nbs].
    unfold line in *. simpl in *.
    unfold drain. simpl. destruct ticks as [|ticks]; simpl.
    { unfold line. simpl. done. }
    destruct queue as [|[zApp d] queue]; simpl.
    { split; [done|]. split; [done|]. split; [done|]. done. }
    unfold mount. cbn -[seq]. destruct mounting; cbn -[seq].
    + split; [done|]. split; [done|]. split.
      { intros _. left. by apply Hflag. }
      rewrite fmap_app. simpl. rewrite <-Hline.
      apply Permutation_app_head, Permutation_app_head.
      change (d :: queue.*2) with ([d] ++ queue.*2). apply Permutation_app_comm.
    + assert (flight = []) as ->.
      { destruct flight as [|x l]; [done|]. exfalso.
        assert (false = true) by (apply Hflag; done). done. }
      simpl. split; [lia|]. split; [done|]. split; [by left|].
      by rewrite <-Hline.
  - unfold stop. destruct closed; simpl; done.
Qed.

Lemma serializer_run c evs :
  let s := run (init c) evs in
  length (inFlight s) ≤ 1
  ∧ (_mounting s = true ↔ inFlight s ≠ [])
  ∧ (_mountQueue s ≠ [] → inFlight s ≠ [] ∨ 0 < nextTicks s)
  ∧ line s ≡ₚ seq 0 (deferreds s).
Proof.
  simpl. induction evs as [|e evs IH] using rev_ind.
  - simpl. unfold line. simpl. repeat split; try done; lia.
  - unfold run. rewrite foldl_snoc. by apply serializer_step.
Qed.

(** X10.  Whatever the order of calls, chain ends, drains and stops, at
    most one mount chain is in flight, [_mounting] is raised exactly while
    one is, and a queued call is never stranded: while the queue is not
    empty, a chain is in flight or a drain is scheduled. *)
Theorem queued_mount_is_not_stranded c evs :
  let s := run (init c) evs in
  length (inFlight s) ≤ 1
  ∧ (_mounting s = true ↔ inFlight s ≠ [])
  ∧ (_mountQueue s = [] ∨ inFlight s ≠ [] ∨ 0 < nextTicks s).
Proof.
  simpl. destruct (serializer_run c evs) as (Hone & Hflag & Hlive & _).
  split; [done|]. split; [done|].
  destruct (decide (_mountQueue (run (init c) evs) = [])) as [|Hq]; [by left|].
  right. by apply Hlive.
Qed.

(** X11.  No call of [mount] is lost or served twice, in any order of
    events: the deferreds settled, in flight and queued are, together, the
    deferreds created so far, each once. *)
Theorem every_mount_is_accounted_once c evs :
  let s := run (init c) evs in
  line s ≡ₚ seq 0 (deferreds s) ∧ NoDup (line s).
Proof.
  simpl. destruct (serializer_run c evs) as (_ & _ & _ & Hline).
  split; [done|]. rewrite Hline. apply NoDup_seq.
Qed.



Lemma freshEpId_new l : (freshEpId l ∉ l) ∧ (10 < freshEpId l)%Z.
Proof.
  destruct (freshEpId_spec l) as [(m & [_ Hmax] & Hm & ->)|[Hlow ->]].
  - split; [|lia]. intros Hin. apply Hmax in Hin. lia.
  - split; [|lia]. intros Hin. apply Hlow in Hin. lia.
Qed.


(** X13.  Whenever a mount resolves, the endpoint id it resolves with is
    above 10 and is not in the coordinator's endpoint list as the mount
    found it.  The application is put in [_zApp] by the first callback of
    the chain, which found it missing there, and by no later one: a chain
    that runs in one go leaves [_zApp] with the application appended; a
    chain whose first callback ran earlier leaves [_zApp] as it finds it,
    so that after a [stop] in between the mount resolves for an
    application that is not listed. *)
Theorem mounted_endpoint_is_new s zApp deferred rest ans epId :
  inFlight s = (zApp, deferred) :: rest →
  settledLog (complete ans s) = settledLog s ++ [(deferred, Resolved epId)] →
  ∃ c, coord s = Some c
       ∧ (epId ∉ epList c)
       ∧ (10 < epId)%Z
       ∧ (if begun s then _zApp (complete ans s) = _zApp s
          else (zApp ∉ _zApp s) ∧ _zApp (complete ans s) = _zApp s ++ [zApp])
       ∧ ∀ u, _zApp (complete ans (step s (Stop (Resolved u))))
              = (if begun s then [] else [zApp]).
Proof.
  intros Hflight Hlog.
  destruct (mount_resolved_inv s zApp deferred rest ans epId Hflight Hlog)
    as (c & Hcoord & -> & Hnew).
  exists c. destruct (freshEpId_new (epList c)) as [Hfresh Hhigh].
  split; [done|]. split; [done|]. split; [done|]. split.
  - unfold complete, chain, firstCallback. rewrite Hflight.
    destruct (begun s).
    + destruct (laterCallbacks _ _ _) as [r c']. unfold finish. by rewrite Hflight.
    + split; [by apply Hnew|].
      rewrite (decide_False (P := zApp ∈ _zApp s)) by (by apply Hnew).
      destruct (laterCallbacks _ _ _) as [r c']. unfold finish. by rewrite Hflight.
  - intros u. unfold complete, chain, firstCallback. simpl. rewrite Hflight.
    destruct (begun s).
    + by destruct (laterCallbacks _ _ _) as [r c'].
    + by destruct (laterCallbacks _ _ _) as [r c'].
Qed.



(** X13 at work: application 7 is mounted on a coordinator with endpoints
    1 and 8; after the first callback of the chain, [stop] empties the
    list; the mount resolves with endpoint 11 all the same, and the
    application is not listed. *)
Lemma mounted_endpoint_is_new_witness :
  let s := run (init (Some (Coordinator [1%Z; 8%Z] ∅))) [Call 7; Begin; Stop (Resolved tt)] in
  let s' := complete (allFine [1%Z; 8%Z; 11%Z]) s in
  settledLog s' = [(0, Resolved 11%Z)]
  ∧ (11%Z ∉ [1%Z; 8%Z])
  ∧ _zApp s' = [].
Proof.
  intros s s'.
  destruct (mounted_endpoint_is_new s 7 0 [] (allFine [1%Z; 8%Z; 11%Z]) 11%Z
              eq_refl eq_refl)
    as (c & Hcoord & Hfresh & _ & Hlist & _).
  injection Hcoord as <-.
  split; [reflexivity|]. split; [exact Hfresh|exact Hlist].
Defined.


End MountMore.

(** ** More on the topology scanner *)

Module ScanMore.
Import Registry Scan ScanWords ScanFacts.

(** *** The [emit] sink *)

Lemma sight_emit box emit emit' parent set st st' entry :
  noDuplicate st = noDuplicate st' →
  (sight box emit parent (set, st) entry).1 = (sight box emit' parent (set, st') entry).1
  ∧ noDuplicate (sight box emit parent (set, st) entry).2
    = noDuplicate (sight box emit' parent (set, st') entry).2.
Proof.
  intros Hnd. unfold sight. rewrite Hnd.
  destruct (decide _); [done|].
  by destruct (lookupRec _ _).
Qed.

Lemma foldl_sight_emit box emit emit' parent data set st st' :
  noDuplicate st = noDuplicate st' →
  (foldl (sight box emit parent) (set, st) data).1
  = (foldl (sight box emit' parent) (set, st') data).1
  ∧ noDuplicate (foldl (sight box emit parent) (set, st) data).2
    = noDuplicate (foldl (sight box emit' parent) (set, st') data).2.
Proof.
  revert set st st'. induction data as [|entry data IH]; intros set st st' Hnd; [done|].
  cbn [foldl].
  destruct (sight_emit box emit emit' parent set st st' entry Hnd) as [Hset Hnd'].
  destruct (sight box emit parent (set, st) entry) as [set1 st1].
  destruct (sight box emit' parent (set, st') entry) as [set1' st1'].
  simpl in Hset, Hnd'. subst set1'. by apply IH.
Qed.

Lemma settleAll_same box ask set st st' :
  noDuplicate st = noDuplicate st' →
  (settleAll box ask set st).1 = (settleAll box ask set st').1
  ∧ noDuplicate (settleAll box ask set st).2 = noDuplicate (settleAll box ask set st').2.
Proof.
  revert st st'. induction set as [|a set IH]; intros st st' Hnd; [done|].
  cbn [settleAll]. destruct (lqi box ask a) as [data|err].
  - destruct (IH st st' Hnd) as [Hl Hr].
    destruct (settleAll box ask set st) as [rest st1].
    destruct (settleAll box ask set st') as [rest' st1']. simpl in *. by subst.
  - assert (Hnd' : noDuplicate (markError a err st) = noDuplicate (markError a err st'))
      by (unfold markError; simpl; by rewrite Hnd).
    destruct (IH _ _ Hnd') as [Hl Hr].
    destruct (settleAll box ask set (markError a err st)) as [rest st1].
    destruct (settleAll box ask set (markError a err st')) as [rest' st1']. simpl in *.
    by subst.
Qed.

Lemma scanLoop_emit fuel box ask emit emit' pending st st' :
  noDuplicate st = noDuplicate st' →
  match scanLoop fuel box ask emit pending st, scanLoop fuel box ask emit' pending st' with
  | None, None => True
  | Some (Rejected e), Some (Rejected e') => e = e'
  | Some (Resolved s), Some (Resolved s') => noDuplicate s = noDuplicate s'
  | _, _ => False
  end.
Proof.
  revert pending st st'. induction fuel as [|fuel IH]; intros pending st st' Hnd.
  - destruct pending as [|[parent data] rest]; simpl; done.
  - destruct pending as [|[parent data] rest]; [done|]. cbn [scanLoop].
    destruct data as [entries|]; [|done].
    unfold processResponse.
    destruct (foldl_sight_emit box emit emit' parent entries [] st st' Hnd) as [Hset Hnd1].
    destruct (foldl (sight box emit parent) ([], st) entries) as [set st1].
    destruct (foldl (sight box emit' parent) ([], st') entries) as [set' st1'].
    simpl in Hset, Hnd1. subst set'.
    destruct (settleAll_same box ask set st1 st1' Hnd1) as [Hchildren Hnd2].
    destruct (settleAll box ask set st1) as [children st2].
    destruct (settleAll box ask set st1') as [children' st2'].
    simpl in Hchildren, Hnd2. subst children'. by apply IH.
Qed.

(** X15.  The [emit] sink, as long as it returns and leaves the records it
    is given alone, has no influence on the scan: [lqiScan] gives the same
    result with a sink as without. *)
Theorem scan_result_ignores_emit fuel box ask netIeeeAddr startAddr emit :
  lqiScan fuel box ask netIeeeAddr startAddr emit
  = lqiScan fuel box ask netIeeeAddr startAddr false.
Proof.
  unfold lqiScan. destruct (lqi box ask _) as [data|e]; [|done].
  pose proof (scanLoop_emit fuel box ask emit false
                [(startOf netIeeeAddr startAddr, data)]
                (startState (startOf netIeeeAddr startAddr))
                (startState (startOf netIeeeAddr startAddr)) eq_refl) as Hsame.
  destruct (scanLoop fuel box ask emit _ _) as [[s|e]|];
    destruct (scanLoop fuel box ask false _ _) as [[s'|e']|]; try done.
  - by rewrite Hsame.
  - by subst.
Qed.

Lemma foldl_sight_emitted box emit parent data set st :
  emitted (foldl (sight box emit parent) (set, st) data).2
  = emitted st
    ++ (if emit
        then stamped box parent <$> filter (λ entry, rec_ieeeAddr entry ≠ zeroAddr) data
        else []).
Proof.
  revert set st. induction data as [|entry data IH]; intros set st.
  - simpl. by destruct emit; rewrite app_nil_r.
  - cbn [foldl]. unfold sight at 2.
    destruct (decide (rec_ieeeAddr entry = zeroAddr)) as [Hz|Hz].
    + rewrite IH. by rewrite filter_cons_False by (by intros Hne).
    + rewrite filter_cons_True by done.
      destruct (lookupRec _ _); rewrite IH; simpl;
        destruct emit; simpl; by rewrite <-?(assoc_L (++)).
Qed.

(** X16.  With a sink, one call of [processResponse] hands it every entry
    of the response that does not carry the all-zero address, in the order
    of the response and stamped with the parent and the registry's status,
    whether or not the address was recorded before; without a sink nothing
    is handed out. *)
Theorem emit_sees_every_sighting box parent data st :
  emitted (processResponse box true parent data st).2
  = emitted st
    ++ (stamped box parent <$> filter (λ entry, rec_ieeeAddr entry ≠ zeroAddr) data)
  ∧ emitted (processResponse box false parent data st).2 = emitted st.
Proof.
  unfold processResponse. rewrite !foldl_sight_emitted. split; [done|].
  by rewrite app_nil_r.
Qed.

(** *** Which nodes are asked *)

Lemma sight_keys box emit parent set st entry a :
  a ∈ (noDuplicate (sight box emit parent (set, st) entry).2).*1
  ↔ a ∈ (noDuplicate st).*1 ∨ (a = rec_ieeeAddr entry ∧ a ≠ zeroAddr).
Proof.
  unfold sight. destruct (decide (rec_ieeeAddr entry = zeroAddr)) as [Hz|Hz].
  { split; [by left|]. intros [|[-> Hne]]; done. }
  destruct (lookupRec _ _) as [r|] eqn:Hrec; simpl.
  - split; [by left|]. intros [|[-> _]]; [done|].
    apply lookupRec_Some in Hrec. apply list_elem_of_fmap. by exists (rec_ieeeAddr entry, r).
  - rewrite fmap_app, elem_of_app. simpl. rewrite list_elem_of_singleton.
    split; (intros [|Ha]; [by left|right]).
    + by subst.
    + by destruct Ha.
Qed.

Lemma sight_set box emit parent set st entry a :
  a ∈ (sight box emit parent (set, st) entry).1
  ↔ a ∈ set
    ∨ (a = rec_ieeeAddr entry ∧ a ≠ zeroAddr ∧ (a ∉ (noDuplicate st).*1) ∧ isRouter box a).
Proof.
  unfold sight, isRouter. destruct (decide (rec_ieeeAddr entry = zeroAddr)) as [Hz|Hz].
  { split; [by left|]. intros [|(-> & Hne & _)]; done. }
  destruct (lookupRec _ _) as [r|] eqn:Hrec; simpl.
  - split; [by left|]. intros [|(-> & _ & Hnew & _)]; [done|].
    apply lookupRec_None in Hnew. congruence.
  - apply lookupRec_None in Hrec. case_bool_decide as Hrouter.
    + rewrite elem_of_app, list_elem_of_singleton.
      split; (intros [|Ha]; [by left|right]).
      * by subst.
      * by destruct Ha.
    + split; [by left|]. intros [|(-> & _ & _ & Hr)]; done.
Qed.

Lemma foldl_sight_keys box emit parent data set st a :
  a ∈ (noDuplicate (foldl (sight box emit parent) (set, st) data).2).*1
  ↔ a ∈ (noDuplicate st).*1
    ∨ (a ≠ zeroAddr ∧ ∃ entry, entry ∈ data ∧ rec_ieeeAddr entry = a).
Proof.
  induction data as [|entry data IH] using rev_ind.
  - simpl. split; [by left|]. intros [|(_ & e & He & _)]; [done|].
    by apply elem_of_nil in He.
  - rewrite foldl_snoc.
    destruct (foldl (sight box emit parent) (set, st) data) as [set1 st1].
    rewrite sight_keys. simpl in IH. rewrite IH. split.
    + intros [[|(Hz & e & He & Ha)]|[-> Hz]].
      * by left.
      * right. split; [done|]. exists e. split; [|done]. apply elem_of_app. by left.
      * right. split; [done|]. exists entry. split; [|done].
        apply elem_of_app. right. by apply list_elem_of_singleton.
    + intros [|(Hz & e & He & Ha)]; [left; by left|].
      apply elem_of_app in He as [He|He%list_elem_of_singleton].
      * left. right. split; [done|]. by exists e.
      * subst e. by right.
Qed.

Lemma foldl_sight_set box emit parent data set st a :
  a ∈ (foldl (sight box emit parent) (set, st) data).1
  ↔ a ∈ set
    ∨ ((a ∉ (noDuplicate st).*1) ∧ isRouter box a ∧ a ≠ zeroAddr
       ∧ ∃ entry, entry ∈ data ∧ rec_ieeeAddr entry = a).
Proof.
  induction data as [|entry data IH] using rev_ind.
  - simpl. split; [by left|]. intros [|(_ & _ & _ & e & He & _)]; [done|].
    by apply elem_of_nil in He.
  - rewrite foldl_snoc.
    pose proof (foldl_sight_keys box emit parent data set st a) as Hkeys.
    destruct (foldl (sight box emit parent) (set, st) data) as [set1 st1].
    rewrite sight_set. simpl in IH, Hkeys. rewrite IH. split.
    + intros [[|(Hnew & Hr & Hz & e & He & Ha)]|(-> & Hz & Hnew & Hr)].
      * by left.
      * right. repeat split; try done. exists e. split; [|done].
        apply elem_of_app. by left.
      * right. split.
        { intros Hin. apply Hnew, Hkeys. by left. }
        repeat split; try done. exists entry. split; [|done].
        apply elem_of_app. right. by apply list_elem_of_singleton.
    + intros [|(Hnew & Hr & Hz & e & He & Ha)]; [left; by left|].
      apply elem_of_app in He as [He|He%list_elem_of_singleton].
      * left. right. repeat split; try done. by exists e.
      * subst e. destruct (decide (a ∈ (noDuplicate st1).*1)) as [Hin|Hnin].
        -- apply Hkeys in Hin as [|(_ & e & He & Ha')]; [done|].
           left. right. repeat split; try done. by exists e.
        -- right. by subst.
Qed.

Lemma foldl_sight_NoDup box emit parent data set st :
  NoDup set → (∀ a, a ∈ set → a ∈ (noDuplicate st).*1) →
  NoDup (foldl (sight box emit parent) (set, st) data).1
  ∧ ∀ a, a ∈ (foldl (sight box emit parent) (set, st) data).1 →
         a ∈ (noDuplicate (foldl (sight box emit parent) (set, st) data).2).*1.
Proof.
  revert set st. induction data as [|entry data IH]; intros set st Hnd Hsub; [done|].
  cbn [foldl].
  pose proof (λ a, sight_set box emit parent set st entry a) as Hset.
  pose proof (λ a, sight_keys box emit parent set st entry a) as Hkeys.
  assert (Hshape : (sight box emit parent (set, st) entry).1 = set
                   ∨ ((sight box emit parent (set, st) entry).1 = set ++ [rec_ieeeAddr entry]
                      ∧ rec_ieeeAddr entry ∉ (noDuplicate st).*1)).
  { unfold sight. destruct (decide _); [by left|].
    destruct (lookupRec _ _) eqn:Hrec; [by left|]. simpl.
    case_bool_decide; [|by left]. right. split; [done|]. by apply lookupRec_None. }
  destruct (sight box emit parent (set, st) entry) as [set1 st1]. simpl in *.
  apply IH.
  - destruct Hshape as [->|[-> Hnew]]; [done|].
    apply NoDup_app. split; [done|]. split; [|apply NoDup_singleton].
    intros a Ha Hin. apply list_elem_of_singleton in Hin. subst a. auto.
  - intros a Ha. apply Hkeys. apply Hset in Ha as [Ha|(-> & Hz & _)]; [left; auto|by right].
Qed.

Lemma scanStepRun_keys box emit st s a :
  a ∈ (noDuplicate st).*1 → a ∈ (noDuplicate (scanStepRun box emit st s)).*1.
Proof.
  intros Ha. destruct s as [parent data|a' err]; cbn [scanStepRun].
  - unfold processResponse. apply foldl_sight_keys. by left.
  - by rewrite markError_keys.
Qed.

Lemma scanSteps_keys box emit steps st a :
  a ∈ (noDuplicate st).*1 →
  a ∈ (noDuplicate (foldl (scanStepRun box emit) st steps)).*1.
Proof.
  revert st. induction steps as [|s steps IH]; intros st Ha; [done|].
  cbn [foldl]. by apply IH, scanStepRun_keys.
Qed.

(** X17.  No node is asked twice in a scan.  The requests that one call of
    [processResponse] starts are for distinct addresses, each the address
    of a registered router that was not recorded before and is not the
    all-zero address; and whatever callbacks run in between, no later call
    of [processResponse] starts a request for any of them again. *)
Theorem router_is_asked_once box emit st parent data steps parent' data' :
  let first := processResponse box emit parent data st in
  let later := foldl (scanStepRun box emit) first.2 steps in
  NoDup first.1
  ∧ ∀ a, a ∈ first.1 →
         isRouter box a ∧ a ≠ zeroAddr ∧ (a ∉ (noDuplicate st).*1)
         ∧ a ∉ (processResponse box emit parent' data' later).1.
Proof.
  simpl. unfold processResponse.
  destruct (foldl_sight_NoDup box emit parent data [] st) as [Hnd Hin].
  { apply NoDup_nil_2. }
  { intros a Ha. by apply elem_of_nil in Ha. }
  split; [done|]. intros a Ha.
  pose proof (Hin a Ha) as Hkey.
  apply foldl_sight_set in Ha as [Ha|(Hnew & Hr & Hz & _)].
  { by apply elem_of_nil in Ha. }
  repeat split; try done.
  intros Hagain. apply foldl_sight_set in Hagain as [Hagain|(Hnew' & _)].
  { by apply elem_of_nil in Hagain. }
  apply Hnew'. by apply scanSteps_keys.
Qed.

(** *** Refused and failed requests *)

Lemma settleAll_answers box ask set st a :
  a ∈ set →
  (a, match lqi box ask a with
      | Rejected _ => Some []
      | Resolved data => data
      end) ∈ (settleAll box ask set st).1.
Proof.
  revert st. induction set as [|a' set IH]; intros st Ha.
  { by apply elem_of_nil in Ha. }
  cbn [settleAll]. apply elem_of_cons in Ha as [->|Ha].
  - destruct (lqi box ask a') as [data|err].
    + destruct (settleAll box ask set st). simpl. apply list_elem_of_here.
    + destruct (settleAll box ask set (markError a' err st)). simpl. apply list_elem_of_here.
  - destruct (lqi box ask a') as [data|err].
    + specialize (IH st Ha). destruct (settleAll box ask set st). simpl.
      by apply list_elem_of_further.
    + specialize (IH (markError a' err st) Ha).
      destruct (settleAll box ask set (markError a' err st)). simpl.
      by apply list_elem_of_further.
Qed.

Lemma scanLoop_undefined fuel box ask emit pending st a st' :
  (a, None) ∈ pending →
  scanLoop fuel box ask emit pending st ≠ Some (Resolved st').
Proof.
  revert pending st. induction fuel as [|fuel IH]; intros pending st Ha.
  - destruct pending as [|[parent data] rest]; [by apply elem_of_nil in Ha|done].
  - destruct pending as [|[parent data] rest]; [by apply elem_of_nil in Ha|].
    cbn [scanLoop]. destruct data as [entries|]; [|done].
    destruct (processResponse box emit parent entries st) as [set st1].
    destruct (settleAll box ask set st1) as [children st2].
    apply IH. apply elem_of_app. left.
    apply elem_of_cons in Ha as [[=]|Ha]; done.
Qed.

Lemma scanLoop_rejects fuel box ask emit pending st e :
  scanLoop fuel box ask emit pending st = Some (Rejected e) → e = noLength.
Proof.
  revert pending st. induction fuel as [|fuel IH]; intros pending st.
  - destruct pending as [|[parent data] rest]; done.
  - destruct pending as [|[parent data] rest]; [done|].
    cbn [scanLoop]. destruct data as [entries|]; [|by intros [= <-]].
    destruct (processResponse box emit parent entries st) as [set st1].
    destruct (settleAll box ask set st1) as [children st2].
    apply IH.
Qed.

(** X18.  A node that answers the LQI request with a status other than 0
    makes the whole scan fail: when that node is the start node, or a
    registered router in the neighbour table of the start node, [lqiScan]
    rejects with the [TypeError] of reading [length] of [undefined]. *)
Theorem refused_router_rejects_scan box ask netIeeeAddr startAddr emit :
  let start := startOf netIeeeAddr startAddr in
  lqi box ask start = Resolved None
  ∨ (∃ data entry dev rsp,
       lqi box ask start = Resolved (Some data)
       ∧ entry ∈ data
       ∧ rec_ieeeAddr entry ≠ zeroAddr
       ∧ rec_ieeeAddr entry ≠ start
       ∧ _findDevByAddr box (Ieee (rec_ieeeAddr entry)) = Some dev
       ∧ type dev = "Router"
       ∧ ask (nwkAddr dev) = Resolved rsp
       ∧ rsp_status rsp ≠ 0%Z) →
  lqiScan (S (length box)) box ask netIeeeAddr startAddr emit = Some (Rejected noLength).
Proof.
  simpl. intros Hrefused.
  pose proof (lqiScan_terminates box ask netIeeeAddr startAddr emit) as Hends.
  unfold lqiScan in *.
  destruct Hrefused as [Hstart|(data & entry & dev & rsp & Hstart & Hentry & Hz & Hne & Hdev
                                 & Hrouter & Hask & Hstatus)];
    rewrite Hstart in *.
  { done. }
  destruct (scanLoop _ _ _ _ _ _) as [[st'|e]|] eqn:Hloop; [exfalso| |done].
  - cbn [scanLoop] in Hloop.
    pose proof (foldl_sight_set box emit (startOf netIeeeAddr startAddr) data []
                  (startState (startOf netIeeeAddr startAddr)) (rec_ieeeAddr entry)) as Hset.
    fold (processResponse box emit (startOf netIeeeAddr startAddr) data
            (startState (startOf netIeeeAddr startAddr))) in Hset.
    destruct (processResponse _ _ _ _ _) as [set st1]. simpl in Hset.
    assert (Hin : rec_ieeeAddr entry ∈ set).
    { apply Hset. right. split.
      - intros Hin. apply list_elem_of_singleton in Hin. done.
      - split; [unfold isRouter; by rewrite Hdev, <-Hrouter|]. split; [done|]. by exists entry. }
    pose proof (settleAll_answers box ask set st1 _ Hin) as Hans.
    destruct (settleAll box ask set st1) as [children st2]. simpl in Hans, Hloop.
    unfold lqi in Hans. rewrite Hdev, Hask in Hans. simpl in Hans.
    rewrite decide_False in Hans by done.
    exact (scanLoop_undefined _ _ _ _ _ _ _ st' Hans Hloop).
  - by apply scanLoop_rejects in Hloop as ->.
Qed.

Lemma settleAll_defined box ask set st :
  neverRefuses ask →
  Forall (λ p, p.2 ≠ None) (settleAll box ask set st).1.
Proof.
  intros Hask. revert st. induction set as [|a set IH]; intros st; [by constructor|].
  cbn [settleAll]. destruct (lqi box ask a) as [data|err] eqn:Hlqi.
  - specialize (IH st). destruct (settleAll box ask set st). simpl. constructor; [|done].
    simpl. unfold lqi in Hlqi. destruct (_findDevByAddr _ _) as [dev|]; [|done].
    destruct (ask (nwkAddr dev)) as [rsp|] eqn:Hrsp; [|done]. simpl in Hlqi.
    rewrite decide_True in Hlqi by eauto. by injection Hlqi as <-.
  - specialize (IH (markError a err st)).
    destruct (settleAll box ask set (markError a err st)). simpl. by constructor.
Qed.

Lemma scanLoop_defined fuel box ask emit pending st e :
  neverRefuses ask →
  Forall (λ p, p.2 ≠ None) pending →
  scanLoop fuel box ask emit pending st ≠ Some (Rejected e).
Proof.
  intros Hask. revert pending st. induction fuel as [|fuel IH]; intros pending st Hall.
  - destruct pending as [|[parent data] rest]; done.
  - destruct pending as [|[parent data] rest]; [done|].
    apply Forall_cons in Hall as [Hdata Hrest].
    cbn [scanLoop]. destruct data as [entries|]; [|done].
    destruct (processResponse box emit parent entries st) as [set st1].
    pose proof (settleAll_defined box ask set st1 Hask) as Hchildren.
    destruct (settleAll box ask set st1) as [children st2].
    apply IH. apply Forall_app. by split.
Qed.

(** X19.  Requests that fail do not stop the scan.  When the radio never
    answers with a status other than 0 and the request to the start node,
    which must be registered, is answered, [lqiScan] resolves, whatever
    requests to other nodes fail. *)
Theorem scan_survives_failed_requests box ask netIeeeAddr startAddr emit dev rsp :
  neverRefuses ask →
  _findDevByAddr box (Ieee (startOf netIeeeAddr startAddr)) = Some dev →
  ask (nwkAddr dev) = Resolved rsp →
  ∃ l, lqiScan (S (length box)) box ask netIeeeAddr startAddr emit = Some (Resolved l).
Proof.
  intros Hask Hdev Hrsp.
  pose proof (lqiScan_terminates box ask netIeeeAddr startAddr emit) as Hends.
  assert (Hstart : ∃ data, lqi box ask (startOf netIeeeAddr startAddr)
                           = Resolved (Some data)).
  { unfold lqi. rewrite Hdev, Hrsp. simpl. rewrite decide_True by eauto. by eexists. }
  destruct Hstart as [data Hstart].
  unfold lqiScan in *. rewrite Hstart in *.
  destruct (scanLoop _ _ _ _ _ _) as [[st'|e]|] eqn:Hloop; [by eexists| |done].
  exfalso. eapply scanLoop_defined; [done| |exact Hloop].
  by repeat constructor.
Qed.

Lemma demo_neverRefuses : neverRefuses Demo.radio.
Proof.
  intros n rsp. unfold Demo.radio. repeat case_bool_decide; by intros [= <-].
Defined.

(** X18 at work: on the five-device network, router B answers with status
    0x80 and the scan started at the coordinator fails. *)
Lemma refused_router_rejects_scan_witness :
  lqiScan 6 Demo.box Demo2.refusing Demo.addrS None false = Some (Rejected noLength).
Proof.
  apply (refused_router_rejects_scan Demo.box Demo2.refusing Demo.addrS None false).
  right. eexists.
  exists (ScanRec Demo.addrB (Some 2%Z) (Some 100%Z) None None None None).
  eexists. eexists.
  split; [reflexivity|]. split.
  { apply list_elem_of_further, list_elem_of_further, list_elem_of_here. }
  split; [intros Heq; discriminate Heq|]. split; [intros Heq; discriminate Heq|].
  split; [reflexivity|]. split; [reflexivity|]. split; [reflexivity|].
  intros Heq. discriminate Heq.
Defined.

(** X19 at work: on the same network with a radio that answers or times
    out, the scan resolves. *)
Lemma scan_survives_failed_requests_witness :
  ∃ l, lqiScan 6 Demo.box Demo.radio Demo.addrS None false = Some (Resolved l).
Proof.
  eapply (scan_survives_failed_requests Demo.box Demo.radio Demo.addrS None false).
  - exact demo_neverRefuses.
  - reflexivity.
  - reflexivity.
Defined.

End ScanMore.

(** ** More on the facade *)

Module LookupFacts.
Import Registry Facade Scan Lookup FacadeFacts.

Lemma unknown_not_found box a : unknown box a → _findDevByAddr box (Ieee a) = None.
Proof.
  intros Hunknown. unfold _findDevByAddr.
  destruct (find _ box) as [dev|] eqn:Hfind; [|done].
  apply find_Some in Hfind as [Hin Hp]. apply bool_decide_eq_true in Hp.
  by apply Hunknown in Hin.
Qed.

(** X20.  [rtg] on a registered device whose request is answered: with
    status 0 it resolves with the routing table as answered, in order,
    less the entries whose [routeStatus] is 3 modulo 8 (the inactive
    routes), and with no other entry dropped; with any other status it
    resolves with [undefined]. *)
Theorem rtg_drops_inactive_routes box ask ieeeAddr dev rsp :
  _findDevByAddr box (Ieee ieeeAddr) = Some dev →
  ask (nwkAddr dev) = Resolved rsp →
  if decide (rtg_status rsp = 0%Z) then
    ∃ l, rtg box ask ieeeAddr = Resolved (Some l)
         ∧ l `sublist_of` routingtablelist rsp
         ∧ ∀ r, r ∈ l ↔ r ∈ routingtablelist rsp ∧ (routeStatus r `mod` 8 ≠ 3)%Z
  else rtg box ask ieeeAddr = Resolved None.
Proof.
  intros Hdev Hask. unfold rtg. rewrite Hdev, Hask. simpl.
  destruct (decide _); [|done].
  eexists. split; [done|]. split; [apply sublist_filter|].
  intros r. rewrite list_elem_of_filter.
  change 7%Z with (Z.ones 3). rewrite Z.land_ones by lia.
  change (2 ^ 3)%Z with 8%Z. tauto.
Qed.

(** X21.  Looking a device up by its IEEE address.  For an address no
    device is registered under, [lqi], [rtg], [remove] and a scan started
    there reject with 'device is not found.' whatever the radio and the
    Controller would answer, and [find] returns [undefined].  For a
    registered device, when no two devices share an address, [lqi], [rtg]
    and [remove] address that device: the request goes to its network
    address, and [remove] settles as the Controller settles the removal of
    that device. *)
Theorem lookup_by_address `{Endpoint.Endpoints} box :
  (∀ a, unknown box a →
     (∀ ask, lqi box ask a = Rejected (Error "device is not found."))
     ∧ (∀ ask, rtg box ask a = Rejected (Error "device is not found."))
     ∧ (∀ ctl c, remove box ctl a c = Rejected (Error "device is not found."))
     ∧ (∀ epId, Endpoint.find box (Ieee a) epId = None)
     ∧ (∀ fuel ask netIeeeAddr emit,
          a ≠ "" →
          lqiScan fuel box ask netIeeeAddr (Some a) emit
          = Some (Rejected (Error "device is not found."))))
  ∧ (NoDup (ieeeAddr <$> exportAllObjs box) →
     ∀ dev, dev ∈ exportAllObjs box →
       (∀ ask e, ask (nwkAddr dev) = Rejected e →
          lqi box ask (ieeeAddr dev) = Rejected e)
       ∧ (∀ ask e, ask (nwkAddr dev) = Rejected e →
            rtg box ask (ieeeAddr dev) = Rejected e)
       ∧ (∀ ctl c, remove box ctl (ieeeAddr dev) c = ctl dev (cfgOf c))
       ∧ (∀ epId, Endpoint.find box (Ieee (ieeeAddr dev)) epId
                  = Endpoint.getEndpoint dev epId)).
Proof.
  split.
  - intros a Hunknown. apply unknown_not_found in Hunknown.
    unfold lqiScan, startOf, lqi, rtg, remove, Endpoint.find. rewrite Hunknown.
    repeat split; try done.
    intros fuel ask netIeeeAddr emit Ha. rewrite decide_False by done.
    by rewrite Hunknown.
  - intros Hnd dev Hdev.
    pose proof (findDevByAddr_registered box dev Hnd Hdev) as Hfound.
    unfold lqi, rtg, remove, Endpoint.find. rewrite Hfound.
    repeat split; try done; by intros ask e ->.
Qed.

(** X20 at work: of three routes, the inactive one is dropped. *)
Lemma rtg_drops_inactive_routes_witness :
  ∃ l, rtg Demo.box Demo2.routes Demo.addrA = Resolved (Some l)
       ∧ l `sublist_of` [Route 0 [("destNwkAddr", VNum 1)];
                         Route 3 [("destNwkAddr", VNum 2)];
                         Route 1 [("destNwkAddr", VNum 3)]]
       ∧ ∀ r, r ∈ l ↔ r ∈ [Route 0 [("destNwkAddr", VNum 1)];
                           Route 3 [("destNwkAddr", VNum 2)];
                           Route 1 [("destNwkAddr", VNum 3)]]
                       ∧ (routeStatus r `mod` 8 ≠ 3)%Z.
Proof.
  exact (rtg_drops_inactive_routes Demo.box Demo2.routes Demo.addrA
           (Demo.dev 2 "Router" Demo.addrA 1).2
           (RtgRsp 0 [Route 0 [("destNwkAddr", VNum 1)];
                      Route 3 [("destNwkAddr", VNum 2)];
                      Route 1 [("destNwkAddr", VNum 3)]])
           eq_refl eq_refl).
Defined.

End LookupFacts.

Module LifecycleFacts.
Import Registry Lifecycle FacadeFacts.

Lemma foldl_remove_spec ids box (entry : nat * device) :
  entry ∈ foldl (λ b i, remove i b) box ids ↔ entry ∈ box ∧ entry.1 ∉ ids.
Proof.
  revert box. induction ids as [|i ids IH]; intros box; cbn [foldl].
  - split; [intros Hin; split; [done|apply not_elem_of_nil]|by intros [? _]].
  - rewrite IH, elem_of_remove, not_elem_of_cons. tauto.
Qed.

Lemma removeElements_empty box : removeElements box = [].
Proof.
  unfold removeElements.
  destruct (foldl _ box (exportAllIds box)) as [|entry rest] eqn:Hleft; [done|].
  assert (Hin : entry ∈ foldl (λ b i, remove i b) box (exportAllIds box)).
  { rewrite Hleft. apply list_elem_of_here. }
  apply foldl_remove_spec in Hin as [Hin Hid]. exfalso. apply Hid.
  unfold exportAllIds. by apply list_elem_of_fmap_2.
Qed.

(** X22.  A Shepherd that is enabled has a start time: whatever starts
    and stops it has gone through since it was constructed, succeeding or
    not, [_enabled] implies [_startTime > 0], as long as the clock read at
    every start is past the first second of 1970.  A Shepherd that is not
    enabled refuses [permitJoin] without asking the Controller. *)
Theorem enabled_has_start_time box evs :
  Forall clockRuns evs →
  let s := run (created box) evs in
  (_enabled s = true → (0 < _startTime s)%Z)
  ∧ (_enabled s = false →
     ∀ ctl time type cb,
       permitJoin ctl time type cb s = Rejected (Error "Shepherd is not enabled.")).
Proof.
  intros Hclock. simpl. split.
  - induction evs as [|e evs IH] using rev_ind; [done|].
    apply Forall_app in Hclock as [Hevs He]. apply Forall_inv in He.
    unfold run. rewrite foldl_snoc. fold (run (created box) evs).
    specialize (IH Hevs).
    destruct e as [setup loaded now generateEvent|closed]; simpl.
    + unfold start. destruct setup; simpl; [|done]. intros _.
      simpl in He. apply Z.div_str_pos. lia.
    + unfold stop. destruct closed; simpl; done.
  - intros Hoff ctl time type cb. unfold permitJoin. by rewrite Hoff.
Qed.

(** X23.  [stop] on an enabled Shepherd empties the registry before the
    Controller is asked to close, so whatever the Controller answers no
    device is found afterwards.  When closing fails, [stop] rejects with
    that error and the Shepherd stays enabled (with its start time), its
    registry empty; when closing succeeds the Shepherd is disabled. *)
Theorem stop_empties_registry closed s :
  _enabled s = true →
  _devbox (stop closed s).2 = []
  ∧ (∀ a, _findDevByAddr (_devbox (stop closed s).2) a = None)
  ∧ _startTime (stop closed s).2 = _startTime s
  ∧ match closed with
    | Rejected e => (stop closed s).1 = Rejected e ∧ _enabled (stop closed s).2 = true
    | Resolved _ => (stop closed s).1 = Resolved tt ∧ _enabled (stop closed s).2 = false
    end.
Proof.
  intros Hon. unfold stop. rewrite Hon, removeElements_empty.
  destruct closed; simpl; by rewrite ?Hon.
Qed.

(** X22 at work: a start in November 2023 and a stop whose close fails. *)
Lemma enabled_has_start_time_witness :
  (0 < _startTime (run (created [])
                     [Start (Resolved tt) Demo.box 1700000000000 true;
                      Stop (Rejected (Error "busy"))]))%Z.
Proof.
  refine (proj1 (enabled_has_start_time []
                   [Start (Resolved tt) Demo.box 1700000000000 true;
                    Stop (Rejected (Error "busy"))] _) eq_refl).
  repeat constructor. simpl. lia.
Defined.

(** X23 at work: the Controller fails to close; the five devices are gone
    from the registry and the Shepherd is still enabled. *)
Lemma stop_empties_registry_witness :
  let out := stop (Rejected (Error "busy")) (State true 1700000000 Demo.box 1) in
  out.1 = Rejected (Error "busy") ∧ _devbox out.2 = [] ∧ _enabled out.2 = true.
Proof.
  intros out.
  destruct (stop_empties_registry (Rejected (Error "busy"))
              (State true 1700000000 Demo.box 1) eq_refl)
    as (Hbox & _ & _ & Hres & Hon).
  split; [exact Hres|]. split; [exact Hbox|exact Hon].
Defined.

End LifecycleFacts.
